(** * DevSeeder: the dependency closure and copy scheduler of sync.go

    A shallow embedding of [SyncPartialData] and [partialTopoSort]
    (sync.go) together with the data they work on ([ForeignKey] of fks.go,
    [FkEdge] of sync.go), and the properties of the closure, the copy order
    and the error paths.

    Go maps are finite maps ([gmap]) and sets of row ids are [gset Z].  A
    [range] statement over a Go map visits the keys in an unspecified
    order; the order of every [range] statement is taken from an [Oracle],
    and all properties are shown for every oracle. *)

From Stdlib Require Import ZArith Lia.
From stdpp Require Import gmap strings list fin_maps fin_sets sorting relations.

Open Scope string_scope.
Open Scope list_scope.
Open Scope Z_scope.

(** ** Data model *)

(** fks.go: [type ForeignKey struct]. *)
Record ForeignKey := mkFK {
  FromTable : string;
  FromColumn : string;
  ToTable : string;
  ToColumn : string;
  IsNullable : bool
}.

(** sync.go: [type FkEdge struct]. *)
Record FkEdge := mkEdge {
  ParentTable : string;
  ParentColumn : string;
  ChildColumn : string
}.

#[global] Instance ForeignKey_eq_dec : EqDecision ForeignKey.
Proof. solve_decision. Defined.

#[global] Instance FkEdge_eq_dec : EqDecision FkEdge.
Proof. solve_decision. Defined.

(** ** Iteration order of Go maps

    The [k]-th [range] statement of a run visits the keys [l] of its map in
    the order [visit k l]; every key is visited exactly once. *)
Record Oracle := mkOracle {
  visit : nat → list string → list string;
  visit_perm : ∀ k l, visit k l ≡ₚ l
}.

Definition keys {V} (m : gmap string V) : list string := (map_to_list m).*1.

(** [for key, value := range m] as the list of pairs it visits. *)
Definition range {V} (o : Oracle) (k : nat) (m : gmap string V) : list (string * V) :=
  omap (λ t, (λ v, (t, v)) <$> m !! t) (visit o k (keys m)).

Definition in_order : Oracle := mkOracle (λ _ l, l) (λ _ l, reflexivity l).

Definition backwards : Oracle := mkOracle (λ _ l, reverse l) (λ _ l, reverse_Permutation l).

Definition shift (n : nat) (o : Oracle) : Oracle :=
  mkOracle (λ k, visit o (n + k)%nat) (λ k, visit_perm o (n + k)%nat).

(** ** Errors and outcomes *)

(** What the database driver reports for a query. *)
Inductive DriverError :=
  | NoSuchTable (table : string)
  | UnknownColumn (column : string)
  | SyntaxError
  | ScanError (column : string).

(** The error of [partialTopoSort]:
    "topological sort: cycle detected or missing table references". *)
Inductive TopoError := CycleOrMissing.

(** The errors [SyncPartialData] returns, one constructor per [fmt.Errorf];
    the arguments are the values the format string prints. *)
Inductive SyncError :=
  | FetchSomeIDsError (table : string) (e : DriverError)
  | FetchReferencedParentIDsError (e : DriverError)
  | TopoSortError (e : TopoError)
  | TruncateError (table : string) (e : DriverError)
  | FetchRowsByIDsError (e : DriverError)
  | InsertRowsError (e : DriverError).

(** [Done]: normal return; [Failed e]: the error return; [Panicked]: a run
    time panic (assignment to an entry of a nil map, negative repeat
    count); [OutOfFuel]: the iteration bound of a loop of this model was
    reached (no behaviour of the program). *)
Inductive outcome (E A : Type) :=
  | Done (a : A)
  | Failed (e : E)
  | Panicked
  | OutOfFuel.
Arguments Done {E A} a.
Arguments Failed {E A} e.
Arguments Panicked {E A}.
Arguments OutOfFuel {E A}.

Definition obind {E A B} (x : outcome E A) (f : A → outcome E B) : outcome E B :=
  match x with
  | Done a => f a
  | Failed e => Failed e
  | Panicked => Panicked
  | OutOfFuel => OutOfFuel
  end.

(** [fmt.Errorf("...: %w", err)]. *)
Definition wrap {E E' A} (f : E → E') (x : outcome E A) : outcome E' A :=
  match x with
  | Done a => Done a
  | Failed e => Failed (f e)
  | Panicked => Panicked
  | OutOfFuel => OutOfFuel
  end.

Notation "x ← y ;;; z" := (obind y (λ x, z))
  (at level 20, y at level 100, z at level 200, right associativity, only parsing).

(** A loop over a slice whose body can return early. *)
Fixpoint foldlO {E A B} (f : A → B → outcome E A) (a : A) (l : list B) : outcome E A :=
  match l with
  | [] => Done a
  | b :: l' => a' ← f a b ;;; foldlO f a' l'
  end.

(** A relationship that is kept as an edge of the dependency graph: not
    self-referencing and not nullable (the two [continue]s of the loops
    over [allFks]). *)
Definition hard (fk : ForeignKey) : bool :=
  negb (bool_decide (FromTable fk = ToTable fk)) && negb (IsNullable fk).

(** ** partialTopoSort *)
Module Topo.

Definition neededSet (neededTables : list string) : gset string :=
  foldl (λ s t, {[t]} ∪ s) ∅ neededTables.

(** [depMap[table] = nil; inDegree[table] = 0]. *)
Definition initDep (neededTables : list string) : gmap string (list string) :=
  foldl (λ m t, <[t := []]> m) ∅ neededTables.

Definition initDeg (neededTables : list string) : gmap string Z :=
  foldl (λ m t, <[t := 0]> m) ∅ neededTables.

(** One iteration of the loop over [allFks]. *)
Definition addFk (needed : gset string) (depMap : gmap string (list string))
    (fk : ForeignKey) : gmap string (list string) :=
  if bool_decide (FromTable fk = ToTable fk) then depMap
  else if bool_decide (FromTable fk ∈ needed) && bool_decide (ToTable fk ∈ needed)
          && negb (IsNullable fk)
  then <[FromTable fk := default [] (depMap !! FromTable fk) ++ [ToTable fk]]> depMap
  else depMap.

Definition buildDep (allFks : list ForeignKey) (neededTables : list string)
    : gmap string (list string) :=
  foldl (addFk (neededSet neededTables)) (initDep neededTables) allFks.

(** [inDegree[table] = inDegree[table] + 1], once per parent. *)
Definition countParents (inDegree : gmap string Z) (entry : string * list string)
    : gmap string Z :=
  foldl (λ d _, <[entry.1 := default 0 (d !! entry.1) + 1]> d) inDegree entry.2.

(** The tables whose in-degree is 0, in the order the map is visited. *)
Definition ready (visited : list (string * Z)) : list string :=
  (filter (λ e, e.2 = 0) visited).*1.

(** One iteration of [for child, parents := range depMap] for the
    dequeued table [cur]. *)
Definition relax (cur : string) (st : list string * gmap string Z)
    (entry : string * list string) : list string * gmap string Z :=
  if bool_decide (cur ∈ entry.2) then
    let d := default 0 (st.2 !! entry.1) - 1 in
    (if bool_decide (d = 0) then st.1 ++ [entry.1] else st.1, <[entry.1 := d]> st.2)
  else st.

(** [for len(queue) > 0 { ... }]; [k] numbers the [range] statement of
    the iteration. *)
Fixpoint loop (o : Oracle) (depMap : gmap string (list string)) (fuel k : nat)
    (queue sorted : list string) (inDegree : gmap string Z) : option (list string) :=
  match queue with
  | [] => Some sorted
  | cur :: rest =>
      match fuel with
      | O => None
      | S fuel' =>
          let st := foldl (relax cur) (rest, inDegree) (range o k depMap) in
          loop o depMap fuel' (S k) st.1 (sorted ++ [cur]) st.2
      end
  end.

(** The order in which the tables leave the queue; the loop runs at most
    once per table. *)
Definition kahn (o : Oracle) (allFks : list ForeignKey) (neededTables : list string)
    : option (list string) :=
  let depMap := buildDep allFks neededTables in
  let inDegree := foldl countParents (initDeg neededTables) (range o 0 depMap) in
  let queue := ready (range o 1 inDegree) in
  loop o depMap (length neededTables) 2 queue [] inDegree.

End Topo.

Definition partialTopoSort (o : Oracle) (allFks : list ForeignKey)
    (neededTables : list string) : outcome TopoError (list string) :=
  match Topo.kahn o allFks neededTables with
  | None => OutOfFuel
  | Some sorted =>
      if bool_decide (length sorted ≠ length neededTables) then Failed CycleOrMissing
      else Done sorted
  end.

(** ** The two databases

    The source database is read through three queries and the destination
    is written by two statements; what is modelled of MySQL is what these
    five statements depend on.  As the program assumes, every source table
    has an integer key column named id. *)

Inductive Value := VNull | VInt (z : Z) | VOther.

#[global] Instance Value_eq_dec : EqDecision Value.
Proof. solve_decision. Defined.

(** A source row: its id and its other cells (a missing cell is NULL). *)
Record Row := mkRow { row_id : Z; row_cells : gmap string Value }.

(** A source table: its columns other than id, and its rows. *)
Record Table := mkTable { columns : list string; rows : list Row }.

Definition cell (r : Row) (column : string) : Value :=
  if bool_decide (column = "id") then VInt (row_id r)
  else default VNull (row_cells r !! column).

Definition has_column (tb : Table) (column : string) : bool :=
  bool_decide (column = "id") || bool_decide (column ∈ columns tb).

(** A destination table: its columns, and its rows as they were inserted. *)
Record DevTable := mkDevTable { dev_columns : list string; dev_rows : list (gmap string Value) }.

(** [rows.Scan(&pid)] for every row of a result with one column. *)
Fixpoint scanIDs (column : string) (vals : list Value) (acc : gset Z)
    : outcome DriverError (gset Z) :=
  match vals with
  | [] => Done acc
  | VInt z :: vals' => scanIDs column vals' ({[z]} ∪ acc)
  | _ :: _ => Failed (ScanError column)
  end.

(** [SELECT id FROM table ORDER BY id LIMIT limit]. *)
Definition fetchSomeIDs (db : gmap string Table) (table : string) (limit : Z)
    : outcome DriverError (list Z) :=
  if bool_decide (limit < 0) then Failed SyntaxError
  else match db !! table with
       | None => Failed (NoSuchTable table)
       | Some tb => Done (take (Z.to_nat limit) (merge_sort Z.le (row_id <$> rows tb)))
       end.

(** [SELECT DISTINCT col FROM child WHERE id IN (childIDs) AND col IS NOT NULL]. *)
Definition fetchReferencedParentIDs (db : gmap string Table) (childTable : string)
    (edge : FkEdge) (childIDs : gset Z) : outcome DriverError (gset Z) :=
  if bool_decide (size childIDs = 0%nat) then Done ∅
  else match db !! childTable with
       | None => Failed (NoSuchTable childTable)
       | Some tb =>
           if has_column tb (ChildColumn edge) then
             scanIDs (ChildColumn edge)
               (filter (λ v, v ≠ VNull)
                  ((λ r, cell r (ChildColumn edge)) <$>
                     filter (λ r, row_id r ∈ childIDs) (rows tb))) ∅
           else Failed (UnknownColumn (ChildColumn edge))
       end.

(** [SELECT * FROM table WHERE id IN (idSet)]: the rows and the column names. *)
Definition fetchRowsByIDs (db : gmap string Table) (table : string) (idSet : gset Z)
    : outcome DriverError (list (list Value) * list string) :=
  if bool_decide (size idSet = 0%nat) then Done ([], [])
  else match db !! table with
       | None => Failed (NoSuchTable table)
       | Some tb =>
           let cols := "id" :: columns tb in
           Done ((λ r, cell r <$> cols) <$> filter (λ r, row_id r ∈ idSet) (rows tb), cols)
       end.

(** [TRUNCATE TABLE table]. *)
Definition truncateTable (db : gmap string DevTable) (table : string)
    : outcome DriverError (gmap string DevTable) :=
  match db !! table with
  | None => Failed (NoSuchTable table)
  | Some tb => Done (<[table := mkDevTable (dev_columns tb) []]> db)
  end.

(** [INSERT INTO table (columns) VALUES ...], one statement for all rows.
    [strings.Repeat] panics on the negative count it gets for an empty
    column list. *)
Definition insertRows (db : gmap string DevTable) (table : string) (cols : list string)
    (rowsData : list (list Value)) : outcome DriverError (gmap string DevTable) :=
  if bool_decide (length rowsData = 0%nat) then Done db
  else if bool_decide (length cols = 0%nat) then Panicked
  else match db !! table with
       | None => Failed (NoSuchTable table)
       | Some tb =>
           match list_find (λ c, c ∉ dev_columns tb) cols with
           | Some (_, c) => Failed (UnknownColumn c)
           | None =>
               Done (<[table := mkDevTable (dev_columns tb)
                          (dev_rows tb ++ ((λ vals, list_to_map (zip cols vals)) <$> rowsData))]> db)
           end
       end.

(** ** SyncPartialData *)

(** Step 1: [childToParents]. *)
Definition addEdge (childToParents : gmap string (list FkEdge)) (fk : ForeignKey)
    : gmap string (list FkEdge) :=
  if bool_decide (FromTable fk = ToTable fk) then childToParents
  else if IsNullable fk then childToParents
  else <[FromTable fk := default [] (childToParents !! FromTable fk)
           ++ [mkEdge (ToTable fk) (ToColumn fk) (FromColumn fk)]]> childToParents.

Definition buildAdjacency (allFks : list ForeignKey) : gmap string (list FkEdge) :=
  foldl addEdge ∅ allFks.

(** Step 2: [if _, ok := rowSets[t]; !ok { rowSets[t] = make(map[int64]bool) }]. *)
Definition ensure (t : string) (rowSets : gmap string (gset Z)) : gmap string (gset Z) :=
  match rowSets !! t with
  | Some _ => rowSets
  | None => <[t := ∅]> rowSets
  end.

Definition initRowSets (o : Oracle) (allFks : list ForeignKey) (requestedTables : gmap string Z)
    : gmap string (gset Z) :=
  foldl (λ rs e, ensure e.1 rs)
    (foldl (λ rs fk, ensure (ToTable fk) (ensure (FromTable fk) rs)) ∅ allFks)
    (range o 0 requestedTables).

(** [rowSets[t]] read as a set: the nil map has no members. *)
Definition rowsOf (rowSets : gmap string (gset Z)) (t : string) : gset Z :=
  default ∅ (rowSets !! t).

(** Step 3: [rowSets[table][id] = true]; the assignment panics when
    [rowSets[table]] is nil. *)
Definition addID (table : string) (rowSets : gmap string (gset Z)) (id : Z)
    : outcome SyncError (gmap string (gset Z)) :=
  match rowSets !! table with
  | Some s => Done (<[table := {[id]} ∪ s]> rowSets)
  | None => Panicked
  end.

Definition seedTable (db : gmap string Table) (rowSets : gmap string (gset Z))
    (entry : string * Z) : outcome SyncError (gmap string (gset Z)) :=
  ids ← wrap (FetchSomeIDsError entry.1) (fetchSomeIDs db entry.1 entry.2) ;;;
  foldlO (addID entry.1) rowSets ids.

(** Step 4: the state of the closure loop.  [appended] is not a variable
    of the program: it lists, in order, the tables appended to the queue
    inside the loop. *)
Record Bfs := mkBfs {
  queue : list string;
  enqueued : gmap string bool;
  rowSets : gmap string (gset Z);
  appended : list string
}.

(** [if !parentSet[pid] { parentSet[pid] = true; changed = true }];
    [parentSet] is the map stored at [rowSets[parent]]. *)
Definition addParent (parent : string) (st : gmap string (gset Z) * bool) (pid : Z)
    : outcome SyncError (gmap string (gset Z) * bool) :=
  match st.1 !! parent with
  | None => Panicked
  | Some s =>
      if bool_decide (pid ∈ s) then Done st
      else Done (<[parent := {[pid]} ∪ s]> st.1, true)
  end.

(** The body of [for _, edge := range edges]; [childIDs] is the map stored
    at [rowSets[childTable]]. *)
Definition processEdge (db : gmap string Table) (childTable : string) (st : Bfs)
    (edge : FkEdge) : outcome SyncError Bfs :=
  newParentIDs ← wrap FetchReferencedParentIDsError
    (fetchReferencedParentIDs db childTable edge (rowsOf (rowSets st) childTable)) ;;;
  r ← foldlO (addParent (ParentTable edge)) (rowSets st, false) (elements newParentIDs) ;;;
  if r.2 && negb (default false (enqueued st !! ParentTable edge)) then
    Done (mkBfs (queue st ++ [ParentTable edge]) (<[ParentTable edge := true]> (enqueued st))
            r.1 (appended st ++ [ParentTable edge]))
  else Done (mkBfs (queue st) (enqueued st) r.1 (appended st)).

(** [childTable := queue[0]; queue = queue[1:]; enqueued[childTable] = false]. *)
Definition dequeued (st : Bfs) (childTable : string) (rest : list string) : Bfs :=
  mkBfs rest (<[childTable := false]> (enqueued st)) (rowSets st) (appended st).

(** [for len(queue) > 0 { ... }], at most [fuel] iterations. *)
Fixpoint bfs (db : gmap string Table) (childToParents : gmap string (list FkEdge))
    (fuel : nat) (st : Bfs) : outcome SyncError Bfs :=
  match queue st with
  | [] => Done st
  | childTable :: rest =>
      match fuel with
      | O => OutOfFuel
      | S fuel' =>
          let st1 := dequeued st childTable rest in
          if bool_decide (size (rowsOf (rowSets st1) childTable) = 0%nat)
          then bfs db childToParents fuel' st1
          else st2 ← foldlO (processEdge db childTable) st1
                       (default [] (childToParents !! childTable)) ;;;
               bfs db childToParents fuel' st2
      end
  end.

(** The queue before the loop: every requested table, marked. *)
Definition startBfs (o : Oracle) (requestedTables : gmap string Z)
    (rowSets : gmap string (gset Z)) : Bfs :=
  let queue := (range o 2 requestedTables).*1 in
  mkBfs queue (foldl (λ m t, <[t := true]> m) ∅ queue) rowSets [].

(** Steps 1 to 4. *)
Definition closureRun (fuel : nat) (o : Oracle) (prodDB : gmap string Table)
    (allFks : list ForeignKey) (requestedTables : gmap string Z) : outcome SyncError Bfs :=
  let childToParents := buildAdjacency allFks in
  let rowSets := initRowSets o allFks requestedTables in
  seeded ← foldlO (seedTable prodDB) rowSets (range o 1 requestedTables) ;;;
  bfs prodDB childToParents fuel (startBfs o requestedTables seeded).

Definition closure (fuel : nat) (o : Oracle) (prodDB : gmap string Table)
    (allFks : list ForeignKey) (requestedTables : gmap string Z)
    : outcome SyncError (gmap string (gset Z)) :=
  st ← closureRun fuel o prodDB allFks requestedTables ;;; Done (rowSets st).

(** Step 5. *)
Definition tablesNeedingCopy (o : Oracle) (rowSets : gmap string (gset Z)) : list string :=
  (filter (λ e, (0 < size e.2)%nat) (range o 3 rowSets)).*1.

(** Step 7: what the run does to the outside: the destination database and
    the lines [log.Printf("Copying %d rows from table %s", ...)]. *)
Record World := mkWorld {
  devDB : gmap string DevTable;
  logged : list (nat * string)
}.

Definition copyTable (prodDB : gmap string Table) (resetTables : bool)
    (rowSets : gmap string (gset Z)) (w : World) (table : string)
    : outcome SyncError unit * World :=
  let idSet := rowsOf rowSets table in
  if bool_decide (size idSet = 0%nat) then (Done (), w)
  else
    let w1 := mkWorld (devDB w) (logged w ++ [(size idSet, table)]) in
    match (if resetTables then wrap (TruncateError table) (truncateTable (devDB w1) table)
           else Done (devDB w1)) with
    | Done dev2 =>
        let w2 := mkWorld dev2 (logged w1) in
        match wrap FetchRowsByIDsError (fetchRowsByIDs prodDB table idSet) with
        | Done data =>
            match wrap InsertRowsError (insertRows dev2 table data.2 data.1) with
            | Done dev3 => (Done (), mkWorld dev3 (logged w2))
            | Failed e => (Failed e, w2)
            | Panicked => (Panicked, w2)
            | OutOfFuel => (OutOfFuel, w2)
            end
        | Failed e => (Failed e, w2)
        | Panicked => (Panicked, w2)
        | OutOfFuel => (OutOfFuel, w2)
        end
    | Failed e => (Failed e, w1)
    | Panicked => (Panicked, w1)
    | OutOfFuel => (OutOfFuel, w1)
    end.

Fixpoint copyAll (prodDB : gmap string Table) (resetTables : bool)
    (rowSets : gmap string (gset Z)) (w : World) (sorted : list string)
    : outcome SyncError unit * World :=
  match sorted with
  | [] => (Done (), w)
  | table :: sorted' =>
      match copyTable prodDB resetTables rowSets w table with
      | (Done _, w') => copyAll prodDB resetTables rowSets w' sorted'
      | r => r
      end
  end.

Definition SyncPartialData (fuel : nat) (o : Oracle) (prodDB : gmap string Table)
    (dev : gmap string DevTable) (allFks : list ForeignKey)
    (requestedTables : gmap string Z) (resetTables : bool)
    : outcome SyncError unit * World :=
  let w := mkWorld dev [] in
  match closure fuel o prodDB allFks requestedTables with
  | Done rowSets =>
      match wrap TopoSortError
              (partialTopoSort (shift 4 o) allFks (tablesNeedingCopy o rowSets)) with
      | Done sorted => copyAll prodDB resetTables rowSets w sorted
      | Failed e => (Failed e, w)
      | Panicked => (Panicked, w)
      | OutOfFuel => (OutOfFuel, w)
      end
  | Failed e => (Failed e, w)
  | Panicked => (Panicked, w)
  | OutOfFuel => (OutOfFuel, w)
  end.

(** ** The example of the specification *)
Module Shop.

Definition allFks : list ForeignKey :=
  [ mkFK "orders" "customer_id" "customers" "id" false;
    mkFK "order_items" "order_id" "orders" "id" false ].

Definition prodDB : gmap string Table :=
  list_to_map
    [ ("customers", mkTable ["name"] [ mkRow 5 {[ "name" := VOther ]} ]);
      ("orders", mkTable ["customer_id"]
         [ mkRow 100 {[ "customer_id" := VInt 5 ]};
           mkRow 101 {[ "customer_id" := VInt 5 ]} ]);
      ("order_items", mkTable ["order_id"]
         [ mkRow 10 {[ "order_id" := VInt 100 ]};
           mkRow 11 {[ "order_id" := VInt 101 ]} ]) ].

Definition dev : gmap string DevTable :=
  list_to_map
    [ ("customers", mkDevTable ["id"; "name"] []);
      ("orders", mkDevTable ["id"; "customer_id"] []);
      ("order_items", mkDevTable ["id"; "order_id"] []) ].

Definition requested : gmap string Z := {[ "order_items" := 2 ]}.

Definition tables : list string := ["customers"; "orders"; "order_items"].

Definition rank (t : string) : nat :=
  if bool_decide (t = "order_items") then 2%nat
  else if bool_decide (t = "orders") then 1%nat else 0%nat.

End Shop.

(** ** Vocabulary of the properties *)

(** [child] depends on [parent]: a relationship that is neither
    self-referencing nor nullable points from [child] to [parent]. *)
Definition depends (allFks : list ForeignKey) (child parent : string) : Prop :=
  ∃ fk, fk ∈ allFks ∧ hard fk = true ∧ FromTable fk = child ∧ ToTable fk = parent.

(** The same, between two tables of [tables]. *)
Definition dependsIn (allFks : list ForeignKey) (tables : list string)
    (child parent : string) : Prop :=
  child ∈ tables ∧ parent ∈ tables ∧ depends allFks child parent.

(** A non-nullable relationship from [child] to [parent], self-referencing
    or not. *)
Definition references (allFks : list ForeignKey) (child parent : string) : Prop :=
  ∃ fk, fk ∈ allFks ∧ IsNullable fk = false ∧ FromTable fk = child ∧ ToTable fk = parent.

(** No table reaches itself along one or more steps of [R]. *)
Definition acyclic (R : relation string) : Prop := ∀ t, ¬ tc R t t.

(** The parents recorded for a table in [depMap]. *)
Definition parentsOf (depMap : gmap string (list string)) (t : string) : list string :=
  default [] (depMap !! t).

(** The entry of [depMap] is a table that the pass for [cur] appends to
    the queue. *)
Definition hit (cur : string) (d : gmap string Z) (e : string * list string) : Prop :=
  cur ∈ e.2 ∧ default 0 (d !! e.1) - 1 = 0.

#[global] Instance hit_dec cur d e : Decision (hit cur d e).
Proof. unfold hit. apply _. Defined.

(** The state of the loop of [partialTopoSort] between two iterations. *)
Record topoInv (depMap : gmap string (list string)) (queue sorted : list string)
    (inDegree : gmap string Z) : Prop := mkTopoInv {
  inv_nodup : NoDup (sorted ++ queue);
  inv_dom : ∀ t, t ∈ sorted ++ queue → is_Some (depMap !! t);
  inv_deg : ∀ t ps, depMap !! t = Some ps →
    inDegree !! t = Some (Z.of_nat (length ps) - Z.of_nat (length (filter (.∈ ps) sorted)));
  inv_zero : ∀ t ps, depMap !! t = Some ps →
    (t ∈ sorted ++ queue ↔ length ps = length (filter (.∈ ps) sorted));
  inv_before : ∀ l1 t l2, sorted = l1 ++ t :: l2 → ∀ p, p ∈ parentsOf depMap t → p ∈ l1
}.

(** The parents [partialTopoSort] records for [t]: one entry per kept
    relationship from [t] to a table of [tables], in the order of
    [allFks]. *)
Definition depParents (allFks : list ForeignKey) (tables : list string) (t : string)
    : list string :=
  ToTable <$> filter (λ fk, hard fk = true ∧ FromTable fk = t ∧ ToTable fk ∈ tables) allFks.

(** The tables that [partialTopoSort] can place: no parent is recorded
    twice, and every recorded parent can be placed. *)
Inductive sortable (allFks : list ForeignKey) (tables : list string) : string → Prop :=
  | sortable_intro t :
      t ∈ tables →
      NoDup (depParents allFks tables t) →
      (∀ p, p ∈ depParents allFks tables t → sortable allFks tables p) →
      sortable allFks tables t.

(** A path of [R]: every element is related to the next one. *)
Inductive chain (R : relation string) : list string → Prop :=
  | chain_one t : chain R [t]
  | chain_cons a b l : R a b → chain R (b :: l) → chain R (a :: b :: l).

(** ** Vocabulary of the closure *)

(** The rows the run starts from: the ids [fetchSomeIDs] returns for the
    requested tables. *)
Definition seedOf (db : gmap string Table) (requestedTables : gmap string Z)
    (t : string) (i : Z) : Prop :=
  ∃ limit ids, requestedTables !! t = Some limit ∧
               fetchSomeIDs db t limit = Done ids ∧ i ∈ ids.

(** Row [i] of [child] holds [j] in the column of a relationship to
    [parent] that satisfies [keep].  This is the reference as the closure
    follows it: the value is taken for the id of a row of [parent],
    whatever column the relationship references ([ToColumn] is not
    read). *)
Definition refersTo (db : gmap string Table) (allFks : list ForeignKey)
    (keep : ForeignKey → Prop) (child : string) (i : Z) (parent : string) (j : Z) : Prop :=
  ∃ fk tb r, fk ∈ allFks ∧ keep fk ∧ FromTable fk = child ∧ ToTable fk = parent ∧
             db !! child = Some tb ∧ r ∈ rows tb ∧ row_id r = i ∧
             cell r (FromColumn fk) = VInt j.

(** The ids the closure reaches from the seed rows along such
    references. *)
Inductive reachable (db : gmap string Table) (allFks : list ForeignKey)
    (requestedTables : gmap string Z) (keep : ForeignKey → Prop) : string → Z → Prop :=
  | reach_seed t i :
      seedOf db requestedTables t i → reachable db allFks requestedTables keep t i
  | reach_step c i p j :
      reachable db allFks requestedTables keep c i →
      refersTo db allFks keep c i p j →
      reachable db allFks requestedTables keep p j.

(** The edges [childToParents] holds for a table. *)
Definition edgesOf (allFks : list ForeignKey) (c : string) : list FkEdge :=
  (λ fk, mkEdge (ToTable fk) (ToColumn fk) (FromColumn fk)) <$>
    filter (λ fk, hard fk = true ∧ FromTable fk = c) allFks.

(** The ids the row set of [c] refers to through [e] can be fetched, and
    they are in the parent's row set. *)
Definition edgeClosed (db : gmap string Table) (rs : gmap string (gset Z))
    (c : string) (e : FkEdge) : Prop :=
  ∃ X, fetchReferencedParentIDs db c e (rowsOf rs c) = Done X ∧
       X ⊆ rowsOf rs (ParentTable e).

(** Every table named by a relationship has a row set. *)
Definition covers (allFks : list ForeignKey) (rs : gmap string (gset Z)) : Prop :=
  ∀ fk, fk ∈ allFks → is_Some (rs !! FromTable fk) ∧ is_Some (rs !! ToTable fk).

(** The marks agree with the queue, which holds no table twice. *)
Definition marked (st : Bfs) : Prop :=
  NoDup (queue st) ∧ ∀ t, default false (enqueued st !! t) = true ↔ t ∈ queue st.

(** Row set by row set, [rs1] is included in [rs2]. *)
Definition grows (rs1 rs2 : gmap string (gset Z)) : Prop :=
  dom rs1 = dom rs2 ∧ ∀ t, rowsOf rs1 t ⊆ rowsOf rs2 t.

(** The tables that get a row set: the tables named by a relationship and
    the requested tables. *)
Definition tableSet (allFks : list ForeignKey) (requestedTables : gmap string Z)
    : gset string :=
  list_to_set (FromTable <$> allFks) ∪ list_to_set (ToTable <$> allFks) ∪ dom requestedTables.

(** The state of the closure loop between two iterations: the row sets
    hold the seed rows and only reachable rows, and a table that is not in
    the queue has handed all its references to its parents. *)
Record bfsInv (db : gmap string Table) (allFks : list ForeignKey)
    (requestedTables : gmap string Z) (st : Bfs) : Prop := mkBfsInv {
  bi_dom : dom (rowSets st) = tableSet allFks requestedTables;
  bi_covers : covers allFks (rowSets st);
  bi_marked : marked st;
  bi_closed : ∀ c e, c ∉ queue st → e ∈ edgesOf allFks c →
    edgeClosed db (rowSets st) c e;
  bi_sound : ∀ t i, i ∈ rowsOf (rowSets st) t →
    reachable db allFks requestedTables (λ fk, hard fk = true) t i;
  bi_seed : ∀ t i, seedOf db requestedTables t i → i ∈ rowsOf (rowSets st) t
}.

(** The state inside an iteration, after the edges [done] of the dequeued
    table [c]. *)
Record edgeInv (db : gmap string Table) (allFks : list ForeignKey)
    (requestedTables : gmap string Z) (c : string) (done : list FkEdge) (st : Bfs)
    : Prop := mkEdgeInv {
  ei_dom : dom (rowSets st) = tableSet allFks requestedTables;
  ei_covers : covers allFks (rowSets st);
  ei_marked : marked st;
  ei_out : c ∉ queue st;
  ei_closed : ∀ c' e, c' ∉ queue st → c' ≠ c → e ∈ edgesOf allFks c' →
    edgeClosed db (rowSets st) c' e;
  ei_done : ∀ e, e ∈ done → edgeClosed db (rowSets st) c e;
  ei_sound : ∀ t i, i ∈ rowsOf (rowSets st) t →
    reachable db allFks requestedTables (λ fk, hard fk = true) t i;
  ei_seed : ∀ t i, seedOf db requestedTables t i → i ∈ rowsOf (rowSets st) t
}.

(** ** Vocabulary of termination *)

Definition intOf (v : Value) : option Z :=
  match v with VInt z => Some z | _ => None end.

(** The integers a row holds. *)
Definition rowInts (r : Row) : list Z :=
  row_id r :: omap intOf (map_to_list (row_cells r)).*2.

(** The integers the database holds: no other id can enter a row set. *)
Definition dbInts (db : gmap string Table) : gset Z :=
  list_to_set ((map_to_list db).*2 ≫= λ tb, rows tb ≫= rowInts).

(** How many ids of [W] the row sets can still gain. *)
Definition slack (W : gset Z) (rs : gmap string (gset Z)) : nat :=
  sum_list_with (λ t, size (W ∖ rowsOf rs t)) (elements (dom rs)).

(** A number of iterations the closure loop never exceeds. *)
Definition closureFuel (db : gmap string Table) (allFks : list ForeignKey)
    (requestedTables : gmap string Z) : nat :=
  (size (tableSet allFks requestedTables) * size (dbInts db)
   + size requestedTables + 1)%nat.

(** The row sets hold integers of [W] only. *)
Definition within (W : gset Z) (rs : gmap string (gset Z)) : Prop :=
  ∀ t, rowsOf rs t ⊆ W.

(** The run ended: it returned a result or an error. *)
Definition returns {E A} (r : outcome E A) : Prop :=
  match r with Done _ | Failed _ => True | _ => False end.

(** ** Vocabulary of the bound on the queue *)

(** How often [t] entered the queue: at the start ([q0]) and inside the
    loop. *)
Definition entries (q0 : list string) (st : Bfs) (t : string) : nat :=
  ((if decide (t ∈ q0) then 1 else 0) + length (filter (λ x, x = t) (appended st)))%nat.

Definition waiting (st : Bfs) (t : string) : nat :=
  if decide (t ∈ queue st) then 1%nat else 0%nat.

(** The sum of [f] over the child tables of the edges of the graph. *)
Definition weight (allFks : list ForeignKey) (f : string → nat) : nat :=
  sum_list_with (λ fk, f (FromTable fk)) (filter (λ fk, hard fk = true) allFks).

(** A path of [r] dependency steps, through tables that have a row set,
    ends at [t]. *)
Definition depthAt (allFks : list ForeignKey) (requestedTables : gmap string Z)
    (t : string) (r : nat) : Prop :=
  ∃ path, chain (flip (depends allFks)) (t :: path) ∧ length path = r ∧
          ∀ x, x ∈ t :: path → x ∈ tableSet allFks requestedTables.

(** A table outside the queue never entered it, or entered it at most
    [r + 1] times for a depth [r] of at most [R]. *)
Definition seen (allFks : list ForeignKey) (requestedTables : gmap string Z)
    (q0 : list string) (st : Bfs) (R : nat) (t : string) : Prop :=
  entries q0 st t = 0%nat ∨
  ∃ r, (r ≤ R)%nat ∧ (entries q0 st t ≤ r + 1)%nat ∧ depthAt allFks requestedTables t r.

(** The queue is made of the tables of round [R] followed by the tables of
    round [R + 1]. *)
Definition rounds (allFks : list ForeignKey) (requestedTables : gmap string Z)
    (q0 : list string) (st : Bfs) (R : nat) (seg1 seg2 : list string) : Prop :=
  queue st = seg1 ++ seg2 ∧
  (∀ t, t ∈ seg1 → (entries q0 st t ≤ R + 1)%nat ∧ depthAt allFks requestedTables t R) ∧
  (∀ t, t ∈ seg2 → (entries q0 st t ≤ R + 2)%nat ∧ depthAt allFks requestedTables t (S R)).

Record roundInv (allFks : list ForeignKey) (requestedTables : gmap string Z)
    (q0 : list string) (st : Bfs) : Prop := mkRoundInv {
  ro_rounds : ∃ R seg1 seg2, rounds allFks requestedTables q0 st R seg1 seg2 ∧
    ∀ t, t ∉ queue st → seen allFks requestedTables q0 st R t;
  ro_count :
    (length (appended st) + weight allFks (waiting st) ≤ weight allFks (entries q0 st))%nat
}.

Record roundEdgeInv (allFks : list ForeignKey) (requestedTables : gmap string Z)
    (q0 : list string) (c : string) (done : list FkEdge) (st : Bfs) : Prop := mkRoundEdgeInv {
  re_rounds : ∃ R seg1 seg2, rounds allFks requestedTables q0 st R seg1 seg2 ∧
    (∀ t, t ∉ queue st → t ≠ c → seen allFks requestedTables q0 st R t) ∧
    (entries q0 st c ≤ R + 1)%nat ∧ depthAt allFks requestedTables c R;
  re_count :
    (length (appended st) + (length (edgesOf allFks c) - length done)
     + weight allFks (waiting st) ≤ weight allFks (entries q0 st))%nat
}.

Definition ind (c t : string) : nat := if decide (t = c) then 1%nat else 0%nat.

(** ** Vocabulary of the copy *)

(** The rows [copyTable] inserts for a table. *)
Definition copiedRows (prodDB : gmap string Table) (rowSets : gmap string (gset Z))
    (t : string) : list (gmap string Value) :=
  match fetchRowsByIDs prodDB t (rowsOf rowSets t) with
  | Done data => (λ vals, list_to_map (zip data.2 vals)) <$> data.1
  | _ => []
  end.

(** A destination table after it was truncated and filled. *)
Definition copyResult (prodDB : gmap string Table) (rowSets : gmap string (gset Z))
    (t : string) (tb : DevTable) : DevTable :=
  mkDevTable (dev_columns tb) (copiedRows prodDB rowSets t).

(** ** Further examples *)

(** The row sets the specification expects for its example. *)
Definition expectedRowSets : gmap string (gset Z) :=
  {[ "order_items" := {[ 10; 11 ]}; "orders" := {[ 100; 101 ]}; "customers" := {[ 5 ]} ]}.

(** Two relationships from one table to the same parent. *)
Module Messages.
Definition allFks : list ForeignKey :=
  [ mkFK "messages" "sender_id" "users" "id" false;
    mkFK "messages" "recipient_id" "users" "id" false ].
Definition tables : list string := ["messages"; "users"].
Definition rank (t : string) : nat := if bool_decide (t = "messages") then 1%nat else 0%nat.
End Messages.

(** Two tables whose owner column holds text. *)
Module Pets.
Definition allFks : list ForeignKey :=
  [ mkFK "cats" "owner_id" "people" "id" false;
    mkFK "dogs" "owner_id" "people" "id" false ].
Definition prodDB : gmap string Table :=
  list_to_map
    [ ("people", mkTable [] [ mkRow 1 ∅ ]);
      ("cats", mkTable ["owner_id"] [ mkRow 1 {[ "owner_id" := VOther ]} ]);
      ("dogs", mkTable ["owner_id"] [ mkRow 1 {[ "owner_id" := VOther ]} ]) ].
Definition dev : gmap string DevTable :=
  list_to_map
    [ ("people", mkDevTable ["id"] []);
      ("cats", mkDevTable ["id"; "owner_id"] []);
      ("dogs", mkDevTable ["id"; "owner_id"] []) ].
Definition cats : gmap string Z := {[ "cats" := 1 ]}.
Definition dogs : gmap string Z := {[ "dogs" := 1 ]}.
End Pets.

(** An order that refers to a coupon through a nullable column. *)
Module Coupons.
Definition allFks : list ForeignKey :=
  [ mkFK "orders" "coupon_id" "coupons" "id" true ].
Definition prodDB : gmap string Table :=
  list_to_map
    [ ("coupons", mkTable [] [ mkRow 7 ∅ ]);
      ("orders", mkTable ["coupon_id"] [ mkRow 1 {[ "coupon_id" := VInt 7 ]} ]) ].
Definition requested : gmap string Z := {[ "orders" := 1 ]}.
End Coupons.

(** The number of edges of the dependency graph. *)
Definition edgeCount (childToParents : gmap string (list FkEdge)) : nat :=
  map_fold (λ _ es n, (length es + n)%nat) 0%nat childToParents.

(** Literals for single bytes. *)
String Notation Ascii.ascii Ascii.ascii_of_byte Ascii.byte_of_ascii : char_scope.
Delimit Scope char_scope with char.

(** ** The text of the INSERT statement (sync.go) *)

(** [backtickJoin]: one iteration of [for i, c := range cols] on the
    contents [b] of the builder. *)
Definition backtickStep (b : string) (ic : nat * string) : string :=
  let b1 := if bool_decide (0 < ic.1)%nat then b +:+ "," else b in
  ((b1 +:+ "`") +:+ ic.2) +:+ "`".

Definition backtickJoin (cols : list string) : string :=
  foldl backtickStep EmptyString (imap (λ i c, (i, c)) cols).

Fixpoint repeatString (s : string) (count : nat) : string :=
  match count with
  | O => EmptyString
  | S count' => s +:+ repeatString s count'
  end.

(** [strings.Repeat(s, count)]: panics when [count] is negative. *)
Definition stringsRepeat {E} (s : string) (count : Z) : outcome E string :=
  if bool_decide (count < 0) then Panicked
  else Done (repeatString s (Z.to_nat count)).

(** [strings.Join(elems, sep)]. *)
Fixpoint stringsJoin (elems : list string) (sep : string) : string :=
  match elems with
  | [] => EmptyString
  | [e] => e
  | e :: rest => e +:+ sep +:+ stringsJoin rest sep
  end.

(** The loop of [insertRows] over [rowsData]: one block of placeholders
    and the values of the row, for every row. *)
Definition addRow (placeholders : string) (acc : list string * list Value)
    (row : list Value) : list string * list Value :=
  (acc.1 ++ [placeholders], acc.2 ++ row).

(** What [insertRows] hands to [db.Exec]: nothing when there is no row,
    else the clause after VALUES, the whole statement and its arguments. *)
Record Statement := mkStatement {
  st_values : string;
  st_text : string;
  st_args : list Value
}.

Definition insertStatement (table : string) (cols : list string)
    (rowsData : list (list Value)) : outcome DriverError (option Statement) :=
  if bool_decide (length rowsData = 0%nat) then Done None
  else
    let colList := backtickJoin cols in
    marks ← stringsRepeat "?," (Z.of_nat (length cols) - 1) ;;;
    let placeholders := "(" +:+ marks +:+ "?)" in
    let blocks := foldl (addRow placeholders) ([], []) rowsData in
    let values := stringsJoin blocks.1 "," in
    Done (Some (mkStatement values
                  ("INSERT INTO `" +:+ table +:+ "` (" +:+ colList +:+ ") VALUES " +:+ values)
                  blocks.2)).

(** ** The prompt for the tables (prompt.go) *)

(** The error of [strconv.Atoi], [*strconv.NumError]: the text that was
    parsed and [ErrSyntax] or [ErrRange]. *)
Inductive NumError :=
  | ErrSyntax (num : string)
  | ErrRange (num : string).

Definition digitOf (a : Ascii.ascii) : option Z :=
  let n := Z.of_N (Ascii.N_of_ascii a) in
  if bool_decide (48 ≤ n ≤ 57) then Some (n - 48) else None.

(** The digits of [strconv.ParseUint] in base 10 and 64 bits, from left to
    right: a character that is no digit is a syntax error, a value beyond
    [2^64 - 1] a range error. *)
Fixpoint parseDigits (num : string) (n : Z) (s : string) : outcome NumError Z :=
  match s with
  | EmptyString => Done n
  | String a s' =>
      match digitOf a with
      | None => Failed (ErrSyntax num)
      | Some d =>
          if bool_decide (2 ^ 64 ≤ n * 10 + d) then Failed (ErrRange num)
          else parseDigits num (n * 10 + d) s'
      end
  end.

(** [strconv.Atoi(s)] where [int] has 64 bits: an optional sign, then one
    decimal digit or more, and a value that fits [int]. *)
Definition Atoi (s : string) : outcome NumError Z :=
  match s with
  | EmptyString => Failed (ErrSyntax s)
  | String a rest =>
      let neg := bool_decide (a = "-"%char) in
      let body := if bool_decide (a = "-"%char ∨ a = "+"%char) then rest else s in
      match body with
      | EmptyString => Failed (ErrSyntax s)
      | _ =>
          un ← parseDigits s 0 body ;;;
          if negb neg && bool_decide (2 ^ 63 ≤ un) then Failed (ErrRange s)
          else if neg && bool_decide (2 ^ 63 < un) then Failed (ErrRange s)
          else Done (if neg then - un else un)
      end
  end.

(** [strings.Split(s, sep)] for a separator of one byte. *)
Fixpoint stringsSplit (s : string) (sep : Ascii.ascii) : list string :=
  match s with
  | EmptyString => [EmptyString]
  | String a s' =>
      if bool_decide (a = sep) then EmptyString :: stringsSplit s' sep
      else match stringsSplit s' sep with
           | first :: rest => String a first :: rest
           | [] => [String a EmptyString]
           end
  end.

(** The two calls of [log.Fatalf] in [parseTablesPrompt], with the values
    they print. *)
Inductive Fatal :=
  | InvalidTableFormat (pair : string)
  | InvalidLimit (tableName : string) (e : NumError).

(** The body of [for _, pair := range pairs]. *)
Definition parsePair (tables : gmap string Z) (pair : string)
    : outcome Fatal (gmap string Z) :=
  match stringsSplit pair ":"%char with
  | [tableName; limitText] =>
      limit ← wrap (InvalidLimit tableName) (Atoi limitText) ;;;
      Done (<[tableName := limit]> tables)
  | _ => Failed (InvalidTableFormat pair)
  end.

(** [parseTablesPrompt], from the text [promptForValue] returned. *)
Definition parseTablesPrompt (tablesInput : string) : outcome Fatal (gmap string Z) :=
  foldlO parsePair ∅ (stringsSplit tablesInput ","%char).

(** The decimal digits of [n], before [acc]. *)
Fixpoint formatDigits (fuel : nat) (n : Z) (acc : string) : string :=
  match fuel with
  | O => acc
  | S fuel' =>
      let acc' := String (Ascii.ascii_of_N (Z.to_N (48 + n mod 10))) acc in
      if bool_decide (n < 10) then acc' else formatDigits fuel' (n / 10) acc'
  end.

(** The verb [%d] of [fmt.Sprintf]. *)
Definition formatInt (z : Z) : string :=
  if bool_decide (z < 0)
  then String "-"%char (formatDigits (S (Z.to_nat (Z.log2 (- z)))) (- z) EmptyString)
  else formatDigits (S (Z.to_nat (Z.log2 z))) z EmptyString.

(** [buildDSN]: [fmt.Sprintf("%s:%s@tcp(%s:%d)/%s", ...)]. *)
Definition buildDSN (user pass host : string) (port : Z) (dbName : string) : string :=
  user +:+ ":" +:+ pass +:+ "@tcp(" +:+ host +:+ ":" +:+ formatInt port +:+ ")/" +:+ dbName.

(** ** Vocabulary of the text properties *)

(** The bytes of a string. *)
Definition bytes (s : string) : list Ascii.ascii := String.list_ascii_of_string s.

(** The text the prompt asks for: [table:limit,table:limit]. *)
Definition formatTables (l : list (string * Z)) : string :=
  stringsJoin ((λ p, p.1 +:+ ":" +:+ formatInt p.2) <$> l) ",".

(** The map [parseTablesPrompt] builds from the pairs, a later pair
    replacing an earlier one for the same table. *)
Definition tablesOf (l : list (string * Z)) : gmap string Z :=
  foldl (λ m p, <[p.1 := p.2]> m) ∅ l.

(** How often the byte [c] occurs in [s]. *)
Definition countByte (c : Ascii.ascii) (s : string) : nat :=
  length (filter (λ a, a = c) (bytes s)).

(** The text begins with a digit. *)
Definition startsDigit (s : string) : Prop :=
  match s with
  | String a _ => is_Some (digitOf a)
  | EmptyString => False
  end.

(** Digits and the minus sign. *)
Definition numeric (a : Ascii.ascii) : Prop := is_Some (digitOf a) ∨ a = "-"%char.

(** ** Vocabulary of the copied rows *)

(** The row of the destination that holds the cells of the source row [r]
    under the columns [cols]. *)
Definition storedRow (cols : list string) (r : Row) : gmap string Value :=
  list_to_map (zip cols (cell r <$> cols)).

(** A message that refers to its sender and to its recipient. *)
Module Chat.
Definition prodDB : gmap string Table :=
  list_to_map
    [ ("users", mkTable [] [ mkRow 1 ∅; mkRow 2 ∅ ]);
      ("messages", mkTable ["sender_id"; "recipient_id"]
         [ mkRow 7 {[ "sender_id" := VInt 1; "recipient_id" := VInt 2 ]} ]) ].
Definition dev : gmap string DevTable :=
  list_to_map
    [ ("users", mkDevTable ["id"] []);
      ("messages", mkDevTable ["id"; "sender_id"; "recipient_id"] []) ].
Definition requested : gmap string Z := {[ "messages" := 1 ]}.
End Chat.

(** ** References between rows *)




(** An order that refers to its customer by the customer's number, not by
    the customer's id. *)
Module Accounts.
Definition allFks : list ForeignKey :=
  [ mkFK "orders" "customer_no" "customers" "number" false ].
Definition prodDB : gmap string Table :=
  list_to_map
    [ ("customers", mkTable ["number"]
         [ mkRow 1 {[ "number" := VInt 5 ]}; mkRow 5 {[ "number" := VInt 9 ]} ]);
      ("orders", mkTable ["customer_no"] [ mkRow 10 {[ "customer_no" := VInt 5 ]} ]) ].
Definition requested : gmap string Z := {[ "orders" := 1 ]}.
Definition rank (t : string) : nat := if bool_decide (t = "orders") then 1%nat else 0%nat.
End Accounts.

(** ** Enqueue events *)

(** How often a table was put in the queue during a run that ended in
    [st]: once per requested table before the loop, and once per append
    inside the loop. *)
Definition enqueueCount (o : Oracle) (requestedTables : gmap string Z) (st : Bfs) : nat :=
  (length (range o 2 requestedTables) + length (appended st))%nat.

(** Two requested tables, one of which refers to the other. *)
Module Pair.
Definition allFks : list ForeignKey := [ mkFK "a" "b_id" "b" "id" false ].
Definition prodDB : gmap string Table :=
  list_to_map
    [ ("a", mkTable ["b_id"] [ mkRow 1 {[ "b_id" := VInt 2 ]} ]);
      ("b", mkTable [] [ mkRow 1 ∅; mkRow 2 ∅ ]) ].
Definition requested : gmap string Z := {[ "a" := 1; "b" := 1 ]}.
Definition rank (t : string) : nat := if bool_decide (t = "a") then 1%nat else 0%nat.
End Pair.

(** * Properties *)

(** ** Visiting a map *)
Section range_facts.
Context {V : Type} (o : Oracle) (k : nat) (m : gmap string V).

Lemma omap_keys (l : list (string * V)) :
  (∀ t v, (t, v) ∈ l → m !! t = Some v) →
  omap (λ t, (λ v, (t, v)) <$> m !! t) l.*1 = l.
Proof.
  induction l as [|[t v] l IH]; intros Hl; [done|].
  simpl. rewrite (Hl t v) by left. simpl. f_equal.
  apply IH. intros t' v' Hin. apply Hl. by right.
Qed.

Lemma range_perm : range o k m ≡ₚ map_to_list m.
Proof.
  unfold range. rewrite (visit_perm o k (keys m)). unfold keys.
  rewrite omap_keys; [done|]. intros t v. by rewrite elem_of_map_to_list.
Qed.

Lemma elem_of_range t v : (t, v) ∈ range o k m ↔ m !! t = Some v.
Proof. by rewrite range_perm, elem_of_map_to_list. Qed.

Lemma NoDup_range : NoDup (range o k m).*1.
Proof. rewrite range_perm. apply NoDup_fst_map_to_list. Qed.

Lemma range_keys_perm : (range o k m).*1 ≡ₚ keys m.
Proof. unfold keys. by rewrite range_perm. Qed.

Lemma elem_of_range_keys t : t ∈ (range o k m).*1 ↔ is_Some (m !! t).
Proof.
  rewrite list_elem_of_fmap. split.
  - intros [[t' v] [-> Hin]]. apply elem_of_range in Hin. eauto.
  - intros [v Hv]. exists (t, v). split; [done|]. by apply elem_of_range.
Qed.
End range_facts.

Lemma keys_elem_of {V} (m : gmap string V) t : t ∈ keys m ↔ is_Some (m !! t).
Proof.
  unfold keys. rewrite list_elem_of_fmap. split.
  - intros [[t' v] [-> Hin]]. apply elem_of_map_to_list in Hin. eauto.
  - intros [v Hv]. exists (t, v). split; [done|]. by apply elem_of_map_to_list.
Qed.

(** ** Lists without duplicates and counting *)
Section counting.
Context {A : Type} `{EqDecision A}.
Implicit Types l s ps : list A.

Lemma filter_ext_in (P Q : A → Prop) `{∀ x, Decision (P x)} `{∀ x, Decision (Q x)} l :
  (∀ x, x ∈ l → (P x ↔ Q x)) → filter P l = filter Q l.
Proof.
  induction l as [|x l IH]; intros Hl; [done|].
  rewrite !filter_cons. rewrite IH by (intros y Hy; apply Hl; by right).
  destruct (decide (P x)) as [HP|HP], (decide (Q x)) as [HQ|HQ]; try done.
  - apply (Hl x) in HP; [done|left].
  - apply (Hl x) in HQ; [done|left].
Qed.

Lemma count_le ps s : NoDup s → (length (filter (.∈ ps) s) ≤ length ps)%nat.
Proof.
  intros Hs. apply submseteq_length, NoDup_submseteq.
  - by apply NoDup_filter.
  - intros x [Hx _]%list_elem_of_filter. done.
Qed.

Lemma count_full ps s :
  NoDup s → length ps = length (filter (.∈ ps) s) → NoDup ps ∧ ∀ p, p ∈ ps → p ∈ s.
Proof.
  intros Hs Hlen.
  assert (filter (.∈ ps) s ≡ₚ ps) as Hperm.
  { apply submseteq_length_Permutation; [|lia].
    apply NoDup_submseteq; [by apply NoDup_filter|].
    intros x [Hx _]%list_elem_of_filter. done. }
  split.
  - rewrite <- Hperm. by apply NoDup_filter.
  - intros p Hp. rewrite <- Hperm in Hp. by apply list_elem_of_filter in Hp as [_ ?].
Qed.

Lemma count_all ps s :
  NoDup s → NoDup ps → (∀ p, p ∈ ps → p ∈ s) → length ps = length (filter (.∈ ps) s).
Proof.
  intros Hs Hps Hsub. apply Permutation_length, NoDup_Permutation; [done|by apply NoDup_filter|].
  intros x. rewrite list_elem_of_filter. naive_solver.
Qed.

Lemma count_snoc ps s x :
  length (filter (.∈ ps) (s ++ [x])) =
  (length (filter (.∈ ps) s) + if decide (x ∈ ps) then 1 else 0)%nat.
Proof.
  rewrite filter_app, length_app. f_equal.
  rewrite filter_cons, filter_nil. by destruct (decide (x ∈ ps)).
Qed.
End counting.

(** ** The loop of partialTopoSort *)
Section topo_loop.
Context (o : Oracle) (depMap : gmap string (list string)).

(** What one pass over [depMap] does to the queue and the in-degrees. *)
Lemma relax_pass cur l : ∀ q d, NoDup l.*1 →
  (foldl (Topo.relax cur) (q, d) l).1 = q ++ (filter (hit cur d) l).*1 ∧
  (∀ t ps, (t, ps) ∈ l → cur ∈ ps →
    (foldl (Topo.relax cur) (q, d) l).2 !! t = Some (default 0 (d !! t) - 1)) ∧
  (∀ t, (∀ ps, (t, ps) ∈ l → cur ∉ ps) →
    (foldl (Topo.relax cur) (q, d) l).2 !! t = d !! t).
Proof.
  induction l as [|[t0 ps0] l IH]; intros q d Hnd.
  { simpl. rewrite app_nil_r. split_and!; [done| |done].
    intros ?? Hin. by apply elem_of_nil in Hin. }
  simpl in Hnd. apply NoDup_cons in Hnd as [Ht0 Hnd].
  assert (∀ ps, (t0, ps) ∈ l → False) as Hfresh.
  { intros ps Hin. apply Ht0. apply list_elem_of_fmap. by exists (t0, ps). }
  simpl. unfold Topo.relax at 2 4 6. simpl.
  destruct (bool_decide_reflect (cur ∈ ps0)) as [Hcur|Hcur].
  - set (d1 := <[t0 := default 0 (d !! t0) - 1]> d).
    set (q1 := if bool_decide (default 0 (d !! t0) - 1 = 0) then q ++ [t0] else q).
    destruct (IH q1 d1 Hnd) as (Hq & Hin & Hout).
    assert (filter (hit cur d1) l = filter (hit cur d) l) as Hfil.
    { apply filter_ext_in. intros [t ps] Hl. unfold hit, d1. simpl.
      rewrite lookup_insert_ne; [done|]. intros <-. by eapply Hfresh. }
    split_and!.
    + rewrite Hq, Hfil, filter_cons. unfold q1.
      destruct (decide (hit cur d (t0, ps0))) as [[_ Hz]|Hn]; simpl in *.
      * rewrite bool_decide_eq_true_2 by done. by rewrite <- app_assoc.
      * rewrite bool_decide_eq_false_2; [done|]. intros Hz. by apply Hn.
    + intros t ps [Heq|Hl]%elem_of_cons Hc.
      * injection Heq as -> ->. rewrite Hout.
        -- unfold d1. by rewrite lookup_insert_eq.
        -- intros ps Hl. by destruct (Hfresh ps).
      * rewrite (Hin t ps Hl Hc). unfold d1.
        rewrite lookup_insert_ne; [done|]. intros <-. by eapply Hfresh.
    + intros t Ht. rewrite Hout.
      * unfold d1. rewrite lookup_insert_ne; [done|].
        intros <-. apply (Ht ps0); [left|done].
      * intros ps Hl. apply Ht. by right.
  - destruct (IH q d Hnd) as (Hq & Hin & Hout).
    split_and!.
    + rewrite Hq, filter_cons.
      destruct (decide (hit cur d (t0, ps0))) as [[Hc _]|Hn]; [done|done].
    + intros t ps [Heq|Hl]%elem_of_cons Hc.
      * injection Heq as -> ->. done.
      * by apply Hin with ps.
    + intros t Ht. apply Hout. intros ps Hl. apply Ht. by right.
Qed.

End topo_loop.

Lemma NoDup_length_le_size (l : list string) (X : gset string) :
  NoDup l → (∀ x, x ∈ l → x ∈ X) → (length l ≤ size X)%nat.
Proof.
  intros Hnd Hsub. rewrite <- (size_list_to_set (C := gset string) l) by done.
  apply subseteq_size. intros x Hx. apply Hsub. by apply elem_of_list_to_set in Hx.
Qed.

Lemma NoDup_filter_fst {V} (P : string * V → Prop) `{∀ e, Decision (P e)}
    (l : list (string * V)) :
  NoDup l.*1 → NoDup (filter P l).*1.
Proof.
  induction l as [|e l IH]; [done|]. simpl. rewrite filter_cons.
  intros [Hx Hl]%NoDup_cons. destruct (decide (P e)); [|by apply IH].
  simpl. apply NoDup_cons. split; [|by apply IH].
  intros [e' [Heq [_ Hin]%list_elem_of_filter]]%list_elem_of_fmap.
  apply Hx. apply list_elem_of_fmap. by exists e'.
Qed.

Section topo_inv.
Context (o : Oracle) (depMap : gmap string (list string)).

Lemma topo_step k cur rest sorted d :
  topoInv depMap (cur :: rest) sorted d →
  topoInv depMap (foldl (Topo.relax cur) (rest, d) (range o k depMap)).1
    (sorted ++ [cur]) (foldl (Topo.relax cur) (rest, d) (range o k depMap)).2.
Proof.
  intros [Hnd Hdom Hdeg Hzero Hbefore].
  destruct (relax_pass cur (range o k depMap) rest d (NoDup_range o k depMap))
    as (Hq & Hin & Hout).
  set (new := (filter (hit cur d) (range o k depMap)).*1) in *.
  assert (NoDup (sorted ++ [cur])) as Hnd1.
  { rewrite (assoc_L (++) sorted [cur] rest : sorted ++ cur :: rest = _) in Hnd.
    by apply NoDup_app in Hnd as [? _]. }
  assert (∀ t, t ∈ new ↔
    ∃ ps, depMap !! t = Some ps ∧ cur ∈ ps ∧ default 0 (d !! t) - 1 = 0) as Hnew.
  { intros t. unfold new. rewrite list_elem_of_fmap. split.
    - intros [[t' ps] [-> [[Hc Hz] Hl]%list_elem_of_filter]].
      apply elem_of_range in Hl. by exists ps.
    - intros (ps & Hps & Hc & Hz). exists (t, ps). split; [done|].
      apply list_elem_of_filter. split; [by split|]. by apply elem_of_range. }
  assert (NoDup new) as Hndnew.
  { apply NoDup_filter_fst, NoDup_range. }
  assert (∀ t ps, depMap !! t = Some ps →
    default 0 (d !! t) = Z.of_nat (length ps) - Z.of_nat (length (filter (.∈ ps) sorted)))
    as Hdeg'.
  { intros t ps Hps. by rewrite (Hdeg t ps Hps). }
  assert (∀ t, t ∈ (sorted ++ [cur]) ++ rest ++ new ↔ t ∈ sorted ++ cur :: rest ∨ t ∈ new)
    as Hmem.
  { intros t. rewrite !elem_of_app, !elem_of_cons, elem_of_nil. tauto. }
  rewrite Hq. fold new. split.
  - rewrite (assoc_L (++)). apply NoDup_app. split_and!; [|  |done].
    + by rewrite <- (assoc_L (++)).
    + intros t Ht Htn. apply Hnew in Htn as (ps & Hps & Hc & Hz).
      rewrite <- (assoc_L (++)) in Ht. simpl in Ht.
      apply (Hzero t ps Hps) in Ht. rewrite (Hdeg' t ps Hps) in Hz. lia.
  - intros t [Ht|Ht]%Hmem; [by apply Hdom|].
    apply Hnew in Ht as (ps & Hps & _). eauto.
  - intros t ps Hps. rewrite count_snoc.
    destruct (decide (cur ∈ ps)) as [Hc|Hc].
    + rewrite (Hin t ps); [|by apply elem_of_range|done].
      rewrite (Hdeg' t ps Hps). f_equal. lia.
    + rewrite Hout.
      * rewrite (Hdeg t ps Hps). f_equal. lia.
      * intros ps' Hl. apply elem_of_range in Hl. congruence.
  - intros t ps Hps. rewrite Hmem, count_snoc.
    pose proof (count_le ps (sorted ++ [cur]) Hnd1) as Hle.
    rewrite count_snoc in Hle.
    rewrite (Hzero t ps Hps), Hnew.
    destruct (decide (cur ∈ ps)) as [Hc|Hc].
    + split.
      * intros [Heq|(ps' & Hps' & _ & Hz)]; [lia|].
        assert (ps' = ps) as -> by congruence.
        rewrite (Hdeg' t ps Hps) in Hz. lia.
      * intros Heq. right. exists ps. split_and!; [done..|].
        rewrite (Hdeg' t ps Hps). lia.
    + split.
      * intros [Heq|(ps' & Hps' & Hc' & _)]; [lia|].
        assert (ps' = ps) as -> by congruence. done.
      * intros Heq. left. lia.
  - intros l1 t l2 Heq p Hp.
    destruct l2 as [|x l2 _] using rev_ind.
    + apply app_inj_tail in Heq as [Hl1 Ht]. subst l1 t.
      unfold parentsOf in Hp.
      destruct (Hdom cur) as [ps Hps]; [apply elem_of_app; right; left|].
      rewrite Hps in Hp. simpl in Hp.
      assert (NoDup sorted) as Hs by (by apply NoDup_app in Hnd1 as [? _]).
      assert (cur ∈ sorted ++ cur :: rest) as Hcur by (apply elem_of_app; right; left).
      apply (Hzero cur ps Hps) in Hcur.
      by apply (count_full ps sorted Hs Hcur).
    + rewrite app_comm_cons, (assoc_L (++)) in Heq.
      apply app_inj_tail in Heq as [Hs Hx]. subst x.
      by apply (Hbefore l1 t l2 Hs).
Qed.

Lemma loop_spec fuel : ∀ k queue sorted d,
  topoInv depMap queue sorted d →
  (size (dom depMap) ≤ length sorted + fuel)%nat →
  ∃ final d', Topo.loop o depMap fuel k queue sorted d = Some final ∧
              topoInv depMap [] final d'.
Proof.
  induction fuel as [|fuel IH]; intros k queue sorted d Hinv Hfuel.
  - destruct queue as [|cur rest].
    + by exists sorted, d.
    + exfalso. destruct Hinv as [Hnd Hdom _ _ _].
      pose proof (NoDup_length_le_size (sorted ++ cur :: rest) (dom depMap) Hnd) as Hle.
      rewrite length_app in Hle. simpl in Hle.
      assert (∀ x, x ∈ sorted ++ cur :: rest → x ∈ dom depMap) as Hsub.
      { intros x Hx. apply elem_of_dom. by apply Hdom. }
      specialize (Hle Hsub). lia.
  - destruct queue as [|cur rest].
    + by exists sorted, d.
    + simpl. apply IH.
      * by apply topo_step.
      * rewrite length_app. simpl. lia.
Qed.

Lemma topo_start inDegree :
  (∀ t ps, depMap !! t = Some ps → inDegree !! t = Some (Z.of_nat (length ps))) →
  (∀ t, is_Some (inDegree !! t) → is_Some (depMap !! t)) →
  topoInv depMap (Topo.ready (range o 1 inDegree)) [] inDegree.
Proof.
  intros Hdeg Hdom.
  assert (∀ t, t ∈ Topo.ready (range o 1 inDegree) ↔ inDegree !! t = Some 0) as Hready.
  { intros t. unfold Topo.ready. rewrite list_elem_of_fmap. split.
    - intros [[t' z] [-> [Hz Hl]%list_elem_of_filter]]. simpl in *. subst z.
      by apply elem_of_range in Hl.
    - intros Ht. exists (t, 0). split; [done|]. apply list_elem_of_filter.
      split; [done|]. by apply elem_of_range. }
  split; simpl.
  - apply NoDup_filter_fst, NoDup_range.
  - intros t Ht. apply Hdom. apply Hready in Ht. eauto.
  - intros t ps Hps. rewrite (Hdeg t ps Hps). f_equal. lia.
  - intros t ps Hps. rewrite Hready, (Hdeg t ps Hps). split.
    + intros [= Heq]. lia.
    + intros Heq. f_equal. lia.
  - intros l1 t l2 Heq. by destruct l1.
Qed.

(** What the final state says about the order. *)
Lemma topo_final_member final d t ps :
  topoInv depMap [] final d → depMap !! t = Some ps →
  (t ∈ final ↔ NoDup ps ∧ ∀ p, p ∈ ps → p ∈ final).
Proof.
  intros [Hnd _ _ Hzero _] Hps. rewrite app_nil_r in Hnd.
  specialize (Hzero t ps Hps). rewrite app_nil_r in Hzero. rewrite Hzero. split.
  - by apply count_full.
  - intros [? ?]. by apply count_all.
Qed.

End topo_inv.

(** ** The maps built by partialTopoSort *)
Lemma hard_spec fk : hard fk = true ↔ FromTable fk ≠ ToTable fk ∧ IsNullable fk = false.
Proof.
  unfold hard. rewrite andb_true_iff, !negb_true_iff, bool_decide_eq_false. done.
Qed.

Section topo_maps.
Context (allFks : list ForeignKey) (neededTables : list string).

Lemma elem_of_neededSet l t : t ∈ Topo.neededSet l ↔ t ∈ l.
Proof.
  unfold Topo.neededSet. induction l as [|x l IH] using rev_ind.
  - simpl. rewrite elem_of_nil. set_solver.
  - rewrite foldl_snoc, elem_of_app, elem_of_cons, elem_of_nil. set_solver.
Qed.

Lemma initDep_lookup l t :
  Topo.initDep l !! t = if decide (t ∈ l) then Some [] else None.
Proof.
  unfold Topo.initDep. induction l as [|x l IH] using rev_ind.
  - destruct (decide (t ∈ [])) as [Hin|_]; [by apply elem_of_nil in Hin|done].
  - rewrite foldl_snoc. destruct (decide (x = t)) as [->|Hne].
    + rewrite lookup_insert_eq, decide_True; [done|]. apply elem_of_app. right. left.
    + rewrite lookup_insert_ne, IH by done.
      destruct (decide (t ∈ l)) as [Hl|Hl].
      * rewrite decide_True; [done|]. apply elem_of_app. by left.
      * rewrite decide_False; [done|].
        rewrite elem_of_app, elem_of_cons, elem_of_nil. naive_solver.
Qed.

Lemma initDeg_lookup l t :
  Topo.initDeg l !! t = if decide (t ∈ l) then Some 0 else None.
Proof.
  unfold Topo.initDeg. induction l as [|x l IH] using rev_ind.
  - destruct (decide (t ∈ [])) as [Hin|_]; [by apply elem_of_nil in Hin|done].
  - rewrite foldl_snoc. destruct (decide (x = t)) as [->|Hne].
    + rewrite lookup_insert_eq, decide_True; [done|]. apply elem_of_app. right. left.
    + rewrite lookup_insert_ne, IH by done.
      destruct (decide (t ∈ l)) as [Hl|Hl].
      * rewrite decide_True; [done|]. apply elem_of_app. by left.
      * rewrite decide_False; [done|].
        rewrite elem_of_app, elem_of_cons, elem_of_nil. naive_solver.
Qed.

Lemma buildDep_lookup t :
  Topo.buildDep allFks neededTables !! t =
  if decide (t ∈ neededTables) then Some (depParents allFks neededTables t) else None.
Proof.
  unfold Topo.buildDep, depParents.
  induction allFks as [|fk fks IH] using rev_ind.
  - simpl. apply initDep_lookup.
  - rewrite foldl_snoc, filter_app, fmap_app, filter_cons, filter_nil.
    unfold Topo.addFk at 1.
    destruct (bool_decide_reflect (FromTable fk = ToTable fk)) as [Hself|Hself].
    { rewrite IH, (decide_False (P := _ ∧ _)); [simpl; by rewrite app_nil_r|].
      intros [[? _]%hard_spec _]. done. }
    destruct (bool_decide_reflect (FromTable fk ∈ Topo.neededSet neededTables))
      as [Hfrom|Hfrom]; rewrite elem_of_neededSet in Hfrom; simpl.
    2:{ rewrite IH. destruct (decide (t ∈ neededTables)) as [Ht|Ht]; [|done].
        rewrite (decide_False (P := _ ∧ _)); [simpl; by rewrite app_nil_r|]. intros (_ & <- & _). done. }
    destruct (bool_decide_reflect (ToTable fk ∈ Topo.neededSet neededTables))
      as [Hto|Hto]; rewrite elem_of_neededSet in Hto; simpl.
    2:{ rewrite IH, (decide_False (P := _ ∧ _)); [simpl; by rewrite app_nil_r|]. intros (_ & _ & ?). done. }
    destruct (IsNullable fk) eqn:Hnull; simpl.
    { rewrite IH, (decide_False (P := _ ∧ _)); [simpl; by rewrite app_nil_r|].
      intros [[_ ?]%hard_spec _]. congruence. }
    destruct (decide (FromTable fk = t)) as [<-|Hne].
    + rewrite lookup_insert_eq, IH, (decide_True (P := _ ∧ _)).
      * by destruct (decide (FromTable fk ∈ neededTables)).
      * split; [|done]. by apply hard_spec.
    + rewrite lookup_insert_ne, IH by done.
      rewrite (decide_False (P := _ ∧ _)); [simpl; by rewrite app_nil_r|].
      intros (_ & ? & _). done.
Qed.

Lemma countParents_lookup ps : ∀ d t t',
  Topo.countParents d (t, ps) !! t' =
  if decide (t' = t ∧ ps ≠ []) then Some (default 0 (d !! t) + Z.of_nat (length ps))
  else d !! t'.
Proof.
  unfold Topo.countParents. simpl.
  induction ps as [|p ps IH]; intros d t t'; simpl.
  { rewrite decide_False; [done|]. naive_solver. }
  rewrite IH. destruct (decide (t' = t)) as [->|Hne].
  - rewrite (decide_True (P := t = t ∧ p :: ps ≠ [])) by done.
    rewrite lookup_insert_eq. simpl.
    destruct (decide (t = t ∧ ps ≠ [])) as [_|Hn].
    + f_equal. lia.
    + assert (ps = []) as -> by (destruct ps; [done|]; exfalso; apply Hn; done).
      simpl. f_equal; lia.
  - rewrite !decide_False by (intros [? _]; done). by rewrite lookup_insert_ne.
Qed.

Lemma count_pass (l : list (string * list string)) : ∀ d,
  NoDup l.*1 →
  (∀ t ps, (t, ps) ∈ l → d !! t = Some 0) →
  (∀ t ps, (t, ps) ∈ l → foldl Topo.countParents d l !! t = Some (Z.of_nat (length ps))) ∧
  (∀ t, t ∉ l.*1 → foldl Topo.countParents d l !! t = d !! t).
Proof.
  induction l as [|[t0 ps0] l IH]; intros d Hnd Hzero.
  { split; [|done]. intros ?? Hin. by apply elem_of_nil in Hin. }
  simpl in *. apply NoDup_cons in Hnd as [Ht0 Hnd].
  destruct (IH (Topo.countParents d (t0, ps0)) Hnd) as [Hin Hout].
  { intros t ps Hl. rewrite countParents_lookup.
    rewrite decide_False; [apply (Hzero t ps); by right|].
    intros [-> _]. apply Ht0, list_elem_of_fmap. by exists (t0, ps). }
  split.
  - intros t ps [Heq|Hl]%elem_of_cons; [|by apply Hin].
    injection Heq as -> ->. rewrite Hout by done.
    rewrite countParents_lookup, (Hzero t0 ps0) by left. simpl.
    destruct (decide (t0 = t0 ∧ ps0 ≠ [])) as [_|Hn]; [done|].
    assert (ps0 = []) as -> by (destruct ps0; [done|]; exfalso; apply Hn; done). done.
  - intros t Ht. rewrite not_elem_of_cons in Ht. destruct Ht as [Hne Ht].
    rewrite Hout by done. rewrite countParents_lookup. rewrite decide_False; naive_solver.
Qed.

Lemma size_list_to_set_le (l : list string) :
  (size (list_to_set (C := gset string) l) ≤ length l)%nat.
Proof.
  unfold size, set_size. simpl.
  apply submseteq_length, NoDup_submseteq; [apply NoDup_elements|].
  intros x Hx. apply elem_of_elements in Hx. by apply elem_of_list_to_set in Hx.
Qed.

(** The loop ends, and its last state satisfies the invariant. *)
Lemma kahn_spec o :
  ∃ final d, Topo.kahn o allFks neededTables = Some final ∧
             topoInv (Topo.buildDep allFks neededTables) [] final d.
Proof.
  unfold Topo.kahn.
  set (depMap := Topo.buildDep allFks neededTables).
  set (inDegree := foldl Topo.countParents (Topo.initDeg neededTables) (range o 0 depMap)).
  destruct (count_pass (range o 0 depMap) (Topo.initDeg neededTables)) as [Hin Hout].
  { apply NoDup_range. }
  { intros t ps Hl. apply elem_of_range in Hl. unfold depMap in Hl.
    rewrite buildDep_lookup in Hl. rewrite initDeg_lookup.
    by destruct (decide (t ∈ neededTables)). }
  apply loop_spec.
  - apply topo_start.
    + intros t ps Hps. apply Hin. by apply elem_of_range.
    + intros t Ht. destruct (depMap !! t) as [ps|] eqn:Hps; [done|].
      unfold inDegree in Ht. rewrite Hout in Ht.
      * unfold depMap in Hps. rewrite buildDep_lookup in Hps.
        rewrite initDeg_lookup in Ht.
        destruct (decide (t ∈ neededTables)); [done|by destruct Ht].
      * rewrite elem_of_range_keys, Hps. by intros [? ?].
  - simpl. etransitivity; [|apply (size_list_to_set_le neededTables)].
    apply subseteq_size. intros t Ht. apply elem_of_dom in Ht.
    unfold depMap in Ht. rewrite buildDep_lookup in Ht.
    apply elem_of_list_to_set. destruct (decide (t ∈ neededTables)); [done|by destruct Ht].
Qed.

End topo_maps.

(** ** What partialTopoSort returns *)
Section topo_results.
Context (o : Oracle) (allFks : list ForeignKey) (neededTables : list string).

Lemma elem_of_depParents t p :
  p ∈ depParents allFks neededTables t ↔
  p ∈ neededTables ∧ depends allFks t p.
Proof.
  unfold depParents, depends. rewrite list_elem_of_fmap. split.
  - intros [fk [-> [(Hh & Hf & Ht) Hin]%list_elem_of_filter]]. split; [done|].
    by exists fk.
  - intros [Hp (fk & Hin & Hh & Hf & Ht)]. exists fk. split; [done|].
    apply list_elem_of_filter. subst p. done.
Qed.

Lemma kahn_result :
  ∃ final, Topo.kahn o allFks neededTables = Some final ∧
    NoDup final ∧
    (∀ t, t ∈ final → t ∈ neededTables) ∧
    (∀ t, t ∈ neededTables →
       (t ∈ final ↔ NoDup (depParents allFks neededTables t) ∧
                    ∀ p, p ∈ depParents allFks neededTables t → p ∈ final)) ∧
    (∀ l1 t l2, final = l1 ++ t :: l2 →
       ∀ p, p ∈ depParents allFks neededTables t → p ∈ l1).
Proof.
  destruct (kahn_spec allFks neededTables o) as (final & d & Hk & Hinv).
  exists final. split; [done|].
  assert (∀ t, t ∈ neededTables →
    Topo.buildDep allFks neededTables !! t = Some (depParents allFks neededTables t)) as Hlk.
  { intros t Ht. by rewrite buildDep_lookup, decide_True. }
  assert (∀ t, t ∈ final → t ∈ neededTables) as Hsub.
  { intros t Ht. destruct (inv_dom _ _ _ _ Hinv t) as [ps Hps].
    - by rewrite app_nil_r.
    - rewrite buildDep_lookup in Hps. by destruct (decide (t ∈ neededTables)). }
  split_and!.
  - pose proof (inv_nodup _ _ _ _ Hinv) as Hnd. by rewrite app_nil_r in Hnd.
  - done.
  - intros t Ht. eapply topo_final_member; [exact Hinv|by apply Hlk].
  - intros l1 t l2 Heq p Hp. apply (inv_before _ _ _ _ Hinv l1 t l2 Heq).
    unfold parentsOf. rewrite Hlk; [done|]. apply Hsub. rewrite Heq.
    apply elem_of_app. right. left.
Qed.

Lemma partialTopoSort_unfold :
  ∃ final, Topo.kahn o allFks neededTables = Some final ∧
    partialTopoSort o allFks neededTables =
      if bool_decide (length final ≠ length neededTables) then Failed CycleOrMissing
      else Done final.
Proof.
  destruct kahn_result as (final & Hk & _). exists final. split; [done|].
  unfold partialTopoSort. by rewrite Hk.
Qed.

(** The result is the error or an order. *)
Lemma partialTopoSort_cases :
  partialTopoSort o allFks neededTables = Failed CycleOrMissing ∨
  ∃ sorted, partialTopoSort o allFks neededTables = Done sorted.
Proof.
  destruct partialTopoSort_unfold as (final & _ & ->).
  destruct (bool_decide _); eauto.
Qed.

Lemma final_sortable final :
  Topo.kahn o allFks neededTables = Some final →
  ∀ t, t ∈ final ↔ sortable allFks neededTables t.
Proof.
  intros Hk. destruct kahn_result as (final' & Hk' & Hnd & Hsub & Hmem & Hbefore).
  assert (final' = final) as -> by congruence.
  intros t. split.
  - assert (∀ l1 l2, final = l1 ++ l2 → ∀ t, t ∈ l1 → sortable allFks neededTables t)
      as Hpre.
    { induction l1 as [|x l1 IH] using rev_ind; intros l2 Heq t' Ht'.
      { by apply elem_of_nil in Ht'. }
      rewrite <- (assoc_L (++)) in Heq. simpl in Heq.
      apply elem_of_app in Ht' as [Ht'|Ht']; [by apply (IH (x :: l2))|].
      apply list_elem_of_singleton in Ht' as ->.
      assert (x ∈ final) as Hx by (rewrite Heq, elem_of_app; right; left).
      constructor.
      - by apply Hsub.
      - by apply (Hmem x (Hsub x Hx)).
      - intros p Hp. apply (IH (x :: l2) Heq). by apply (Hbefore l1 x l2 Heq). }
    apply (Hpre final []). by rewrite app_nil_r.
  - induction 1 as [t Ht Hnodup _ IH]. apply (Hmem t Ht). done.
Qed.

(** A returned order lists every table once, parents first. *)
Lemma partialTopoSort_Done sorted :
  partialTopoSort o allFks neededTables = Done sorted →
  NoDup sorted ∧ sorted ≡ₚ neededTables ∧
  (∀ l1 t l2, sorted = l1 ++ t :: l2 →
     ∀ p, p ∈ depParents allFks neededTables t → p ∈ l1) ∧
  (∀ t, t ∈ neededTables → sortable allFks neededTables t).
Proof.
  intros Hdone. destruct kahn_result as (final & Hk & Hnd & Hsub & Hmem & Hbefore).
  unfold partialTopoSort in Hdone. rewrite Hk in Hdone.
  destruct (bool_decide_reflect (length final ≠ length neededTables)) as [|Hlen];
    [done|]. injection Hdone as <-.
  assert (final ≡ₚ neededTables) as Hperm.
  { apply submseteq_length_Permutation; [by apply NoDup_submseteq|]. lia. }
  split_and!; [done..|].
  intros t Ht. apply (final_sortable final Hk). by rewrite Hperm.
Qed.

Lemma partialTopoSort_succeeds :
  NoDup neededTables → (∀ t, t ∈ neededTables → sortable allFks neededTables t) →
  ∃ sorted, partialTopoSort o allFks neededTables = Done sorted.
Proof.
  intros Hnd Hall. destruct kahn_result as (final & Hk & Hndf & Hsub & _).
  exists final. unfold partialTopoSort. rewrite Hk.
  rewrite bool_decide_eq_false_2; [done|]. intros Hne. apply Hne.
  apply Permutation_length, NoDup_Permutation; [done..|].
  intros t. split; [apply Hsub|]. intros Ht. apply (final_sortable final Hk). by apply Hall.
Qed.

(** Parents come first, by index. *)
Lemma partialTopoSort_index sorted child parent i j :
  partialTopoSort o allFks neededTables = Done sorted →
  depends allFks child parent →
  sorted !! i = Some parent → sorted !! j = Some child → (i < j)%nat.
Proof.
  intros Hdone Hdep Hi Hj.
  destruct (partialTopoSort_Done sorted Hdone) as (Hnd & Hperm & Hbefore & _).
  assert (parent ∈ depParents allFks neededTables child) as Hp.
  { apply elem_of_depParents. split; [|done]. rewrite <- Hperm.
    by apply list_elem_of_lookup_2 in Hi. }
  pose proof (take_drop_middle sorted j child Hj) as Heq.
  specialize (Hbefore (take j sorted) child (drop (S j) sorted) (eq_sym Heq) parent Hp).
  apply list_elem_of_lookup in Hbefore as [i' Hi'].
  pose proof (lookup_lt_Some _ _ _ Hi') as Hlt. rewrite length_take in Hlt.
  rewrite lookup_take_lt in Hi' by lia.
  assert (i = i') as -> by (by apply (NoDup_lookup sorted i i' parent)).
  lia.
Qed.

End topo_results.

(** ** The queries *)
Section queries.
Context (db : gmap string Table).

Lemma scanIDs_Done column vals : ∀ acc X,
  scanIDs column vals acc = Done X →
  ∀ j, j ∈ X ↔ j ∈ acc ∨ VInt j ∈ vals.
Proof.
  induction vals as [|v vals IH]; intros acc X Hscan j; simpl in Hscan.
  - injection Hscan as <-. rewrite elem_of_nil. tauto.
  - destruct v as [|z|]; [done| |done].
    rewrite (IH _ _ Hscan), elem_of_cons, elem_of_union, elem_of_singleton.
    split; [|intros [?|[[= ->]|?]]; tauto]. intros [[->|?]|?]; tauto.
Qed.

Lemma scanIDs_cases column vals acc :
  (∃ X, scanIDs column vals acc = Done X) ∨
  scanIDs column vals acc = Failed (ScanError column).
Proof.
  revert acc. induction vals as [|v vals IH]; intros acc; simpl; [eauto|].
  destruct v; eauto.
Qed.

(** The ids fetched for an edge are the ids the rows of the set hold in
    the column of the edge. *)
Lemma fetchReferencedParentIDs_Done c e S X :
  fetchReferencedParentIDs db c e S = Done X →
  ∀ j, j ∈ X ↔ ∃ tb r, db !! c = Some tb ∧ r ∈ rows tb ∧ row_id r ∈ S ∧
                       cell r (ChildColumn e) = VInt j.
Proof.
  unfold fetchReferencedParentIDs. intros Hf j.
  destruct (bool_decide_reflect (size S = 0%nat)) as [Hsz|Hsz].
  { injection Hf as <-. apply size_empty_iff in Hsz.
    split; [set_solver|]. intros (tb & r & _ & _ & Hr & _). set_solver. }
  destruct (db !! c) as [tb|]; [|done].
  destruct (has_column tb (ChildColumn e)); [|done].
  rewrite (scanIDs_Done _ _ _ _ Hf j). split.
  - intros [Hj|Hj]; [set_solver|].
    apply list_elem_of_filter in Hj as [_ Hj].
    apply list_elem_of_fmap in Hj as (r & Hc & Hr).
    apply list_elem_of_filter in Hr as [Hid Hr]. by exists tb, r.
  - intros (tb' & r & [= <-] & Hr & Hid & Hc). right.
    apply list_elem_of_filter. split; [done|].
    apply list_elem_of_fmap. exists r. split; [done|].
    by apply list_elem_of_filter.
Qed.

Lemma fetchReferencedParentIDs_cases c e S :
  (∃ X, fetchReferencedParentIDs db c e S = Done X) ∨
  (∃ err, fetchReferencedParentIDs db c e S = Failed err).
Proof.
  unfold fetchReferencedParentIDs.
  destruct (bool_decide _); [eauto|].
  destruct (db !! c) as [tb|]; [|eauto].
  destruct (has_column tb (ChildColumn e)); [|eauto].
  destruct (scanIDs_cases (ChildColumn e)
    (filter (λ v, v ≠ VNull) ((λ r, cell r (ChildColumn e)) <$>
       filter (λ r, row_id r ∈ S) (rows tb))) ∅) as [?|?]; eauto.
Qed.

Lemma fetchSomeIDs_cases t limit :
  (∃ ids, fetchSomeIDs db t limit = Done ids) ∨
  (∃ err, fetchSomeIDs db t limit = Failed err).
Proof.
  unfold fetchSomeIDs. destruct (bool_decide _); [eauto|].
  destruct (db !! t); eauto.
Qed.
End queries.

(** ** Row sets *)
Lemma rowsOf_insert rs t s t' :
  rowsOf (<[t := s]> rs) t' = if decide (t = t') then s else rowsOf rs t'.
Proof.
  unfold rowsOf. destruct (decide (t = t')) as [->|Hne].
  - by rewrite lookup_insert_eq.
  - by rewrite lookup_insert_ne.
Qed.

Lemma rowsOf_Some rs t s : rs !! t = Some s → rowsOf rs t = s.
Proof. unfold rowsOf. by intros ->. Qed.

Lemma grows_refl rs : grows rs rs.
Proof. by split. Qed.

Lemma grows_trans rs1 rs2 rs3 : grows rs1 rs2 → grows rs2 rs3 → grows rs1 rs3.
Proof.
  intros [Hd1 H1] [Hd2 H2]. split; [congruence|].
  intros t. etransitivity; [apply H1|apply H2].
Qed.

Lemma grows_insert rs t old s : rs !! t = Some old → old ⊆ s → grows rs (<[t := s]> rs).
Proof.
  intros Hold Hsub. split.
  - rewrite dom_insert_L. apply elem_of_dom_2 in Hold. set_solver.
  - intros t'. rewrite rowsOf_insert. destruct (decide (t = t')) as [<-|]; [|done].
    by rewrite (rowsOf_Some _ _ _ Hold).
Qed.

Lemma grows_lookup rs1 rs2 t : grows rs1 rs2 → is_Some (rs1 !! t) → is_Some (rs2 !! t).
Proof. intros [Hd _] Hs. apply elem_of_dom. rewrite <- Hd. by apply elem_of_dom. Qed.

(** ** One edge *)
Section edge.
Context (db : gmap string Table).

(** The loop over the fetched ids adds them to the parent's set, and
    [changed] tells whether one of them was new. *)
Lemma addParent_pass parent l : ∀ rs changed old,
  rs !! parent = Some old →
  foldlO (E := SyncError) (addParent parent) (rs, changed) l =
  Done (<[parent := list_to_set l ∪ old]> rs,
        changed || bool_decide (¬ list_to_set (C := gset Z) l ⊆ old)).
Proof.
  induction l as [|x l IH]; intros rs changed old Hold; simpl.
  - rewrite union_empty_l_L, insert_id by done.
    rewrite bool_decide_eq_false_2 by set_solver. by rewrite orb_false_r.
  - unfold addParent at 1. simpl. rewrite Hold.
    destruct (bool_decide_reflect (x ∈ old)) as [Hx|Hx]; simpl.
    + rewrite (IH rs changed old Hold). do 2 f_equal.
      * f_equal. set_solver.
      * f_equal. apply bool_decide_ext. set_solver.
    + rewrite (IH _ true ({[x]} ∪ old)) by apply lookup_insert_eq.
      rewrite insert_insert_eq. simpl.
      rewrite (bool_decide_eq_true_2 (_ ⊈ old)) by set_solver.
      rewrite orb_true_r. do 3 f_equal. set_solver.
Qed.

(** [processEdge] when the parent has a row set. *)
Lemma processEdge_eq c st e old :
  rowSets st !! ParentTable e = Some old →
  processEdge db c st e =
  match fetchReferencedParentIDs db c e (rowsOf (rowSets st) c) with
  | Done X =>
      let rs' := <[ParentTable e := X ∪ old]> (rowSets st) in
      if bool_decide (¬ X ⊆ old) && negb (default false (enqueued st !! ParentTable e))
      then Done (mkBfs (queue st ++ [ParentTable e])
                   (<[ParentTable e := true]> (enqueued st)) rs'
                   (appended st ++ [ParentTable e]))
      else Done (mkBfs (queue st) (enqueued st) rs' (appended st))
  | Failed err => Failed (FetchReferencedParentIDsError err)
  | Panicked => Panicked
  | OutOfFuel => OutOfFuel
  end.
Proof.
  intros Hold. unfold processEdge.
  destruct (fetchReferencedParentIDs db c e (rowsOf (rowSets st) c)) as [X| | |];
    simpl; [|done..].
  rewrite (addParent_pass _ _ _ _ old Hold). simpl.
  rewrite list_to_set_elements_L. done.
Qed.
End edge.

(** ** The dependency graph *)
Lemma buildAdjacency_lookup allFks c :
  default [] (buildAdjacency allFks !! c) = edgesOf allFks c.
Proof.
  unfold buildAdjacency, edgesOf.
  induction allFks as [|fk fks IH] using rev_ind; [done|].
  rewrite foldl_snoc, filter_app, fmap_app, filter_cons, filter_nil.
  unfold addEdge at 1.
  destruct (bool_decide_reflect (FromTable fk = ToTable fk)) as [Hself|Hself].
  { rewrite IH, (decide_False (P := _ ∧ _)); [simpl; by rewrite app_nil_r|].
    intros [[? _]%hard_spec _]. done. }
  destruct (IsNullable fk) eqn:Hnull.
  { rewrite IH, (decide_False (P := _ ∧ _)); [simpl; by rewrite app_nil_r|].
    intros [[_ ?]%hard_spec _]. congruence. }
  destruct (decide (FromTable fk = c)) as [<-|Hne].
  - rewrite lookup_insert_eq, IH, (decide_True (P := _ ∧ _)); [done|].
    split; [|done]. by apply hard_spec.
  - rewrite lookup_insert_ne, IH, (decide_False (P := _ ∧ _)) by naive_solver.
    simpl. by rewrite app_nil_r.
Qed.

Lemma elem_of_edgesOf allFks c e :
  e ∈ edgesOf allFks c ↔
  ∃ fk, fk ∈ allFks ∧ hard fk = true ∧ FromTable fk = c ∧
        e = mkEdge (ToTable fk) (ToColumn fk) (FromColumn fk).
Proof.
  unfold edgesOf. rewrite list_elem_of_fmap. split.
  - intros (fk & -> & [[Hh Hc] Hin]%list_elem_of_filter). by exists fk.
  - intros (fk & Hin & Hh & Hc & ->). exists fk. split; [done|].
    by apply list_elem_of_filter.
Qed.

(** ** The closure loop *)
Section bfs_loop.
Context (db : gmap string Table) (allFks : list ForeignKey).

Lemma foldlO_app {E A B} (f : A → B → outcome E A) a l1 l2 :
  foldlO f a (l1 ++ l2) = (a' ← foldlO f a l1 ;;; foldlO f a' l2).
Proof.
  revert a. induction l1 as [|b l1 IH]; intros a; [done|]. simpl.
  destruct (f a b); simpl; [apply IH|done..].
Qed.

Lemma bfs_nil fuel st :
  queue st = [] → bfs db (buildAdjacency allFks) fuel st = Done st.
Proof. intros Hq. destruct fuel; simpl; by rewrite Hq. Qed.

Lemma bfs_O st c rest :
  queue st = c :: rest → bfs db (buildAdjacency allFks) 0 st = OutOfFuel.
Proof. intros Hq. simpl. by rewrite Hq. Qed.

Lemma bfs_S fuel st c rest :
  queue st = c :: rest →
  bfs db (buildAdjacency allFks) (S fuel) st =
  if bool_decide (size (rowsOf (rowSets st) c) = 0%nat)
  then bfs db (buildAdjacency allFks) fuel (dequeued st c rest)
  else st2 ← foldlO (processEdge db c) (dequeued st c rest) (edgesOf allFks c) ;;;
       bfs db (buildAdjacency allFks) fuel st2.
Proof. intros Hq. simpl. rewrite Hq. simpl. by rewrite buildAdjacency_lookup. Qed.

(** An invariant [I] of the loop, with [J c done] holding inside the
    iteration for table [c] after the edges [done]. *)
Lemma bfs_invariant (I : Bfs → Prop) (J : string → list FkEdge → Bfs → Prop) :
  (∀ st c rest, I st → queue st = c :: rest → J c [] (dequeued st c rest)) →
  (∀ c done e rest st st', J c done st → edgesOf allFks c = done ++ e :: rest →
     processEdge db c st e = Done st' → J c (done ++ [e]) st') →
  (∀ c st, J c (edgesOf allFks c) st → I st) →
  (∀ c st, J c [] st → size (rowsOf (rowSets st) c) = 0%nat → I st) →
  ∀ fuel st st', I st → bfs db (buildAdjacency allFks) fuel st = Done st' →
    I st' ∧ queue st' = [].
Proof.
  intros Hdeq Hedge Hend Hskip.
  assert (∀ c es done st st', J c done st → edgesOf allFks c = done ++ es →
    foldlO (processEdge db c) st es = Done st' → J c (edgesOf allFks c) st') as Hpass.
  { intros c es. induction es as [|e es IH]; intros done st st' HJ Hes Hfold.
    - simpl in Hfold. injection Hfold as <-. by rewrite Hes, app_nil_r.
    - simpl in Hfold. destruct (processEdge db c st e) as [st1| | |] eqn:He; [|done..].
      simpl in Hfold. apply (IH (done ++ [e]) st1 st'); [|by rewrite <- (assoc_L (++))|done].
      by apply (Hedge c done e es st st1). }
  induction fuel as [|fuel IH]; intros st st' HI Hbfs.
  - destruct (queue st) as [|c rest] eqn:Hq.
    + rewrite bfs_nil in Hbfs by done. by injection Hbfs as <-.
    + by rewrite (bfs_O _ c rest) in Hbfs.
  - destruct (queue st) as [|c rest] eqn:Hq.
    { rewrite bfs_nil in Hbfs by done. by injection Hbfs as <-. }
    rewrite (bfs_S _ _ c rest Hq) in Hbfs.
    pose proof (Hdeq st c rest HI Hq) as HJ.
    destruct (bool_decide_reflect (size (rowsOf (rowSets st) c) = 0%nat)) as [Hz|Hz].
    + apply (IH _ _ (Hskip c _ HJ Hz) Hbfs).
    + destruct (foldlO (processEdge db c) (dequeued st c rest) (edgesOf allFks c))
        as [st2| | |] eqn:Hfold; [|done..].
      simpl in Hbfs. apply (IH st2 st'); [|done].
      apply (Hend c). by apply (Hpass c (edgesOf allFks c) [] (dequeued st c rest)).
Qed.

End bfs_loop.

Section bfs_sound_complete.
Context (db : gmap string Table) (allFks : list ForeignKey)
        (requestedTables : gmap string Z).

Lemma edgeInv_dequeue st c rest :
  bfsInv db allFks requestedTables st → queue st = c :: rest →
  edgeInv db allFks requestedTables c [] (dequeued st c rest).
Proof.
  intros [Hdom Hcov [Hnd Hmark] Hclosed Hsound Hseed] Hq. rewrite Hq in *.
  apply NoDup_cons in Hnd as [Hc Hnd].
  split; simpl; try done.
  - split; [done|]. intros t. simpl. destruct (decide (c = t)) as [<-|Hne].
    + rewrite lookup_insert_eq. simpl. split; [done|]. intros ?. done.
    + rewrite lookup_insert_ne by done. rewrite Hmark, elem_of_cons. naive_solver.
  - intros c' e Hc' Hne. apply Hclosed. rewrite elem_of_cons. naive_solver.
  - intros e He. by apply elem_of_nil in He.
Qed.

Lemma edgeInv_step c done e rest st st' :
  edgeInv db allFks requestedTables c done st →
  edgesOf allFks c = done ++ e :: rest →
  processEdge db c st e = Done st' →
  edgeInv db allFks requestedTables c (done ++ [e]) st'.
Proof.
  intros [Hdom Hcov [Hnd Hmark] Hout Hclosed Hdone Hsound Hseed] Hes Hstep.
  assert (e ∈ edgesOf allFks c) as He.
  { rewrite Hes. apply elem_of_app. right. left. }
  apply elem_of_edgesOf in He as (fk & Hfk & Hhard & Hfrom & ->).
  pose proof Hhard as [Hself _]%hard_spec.
  destruct (Hcov fk Hfk) as [_ [old Hold]].
  rewrite (processEdge_eq db c st (mkEdge (ToTable fk) (ToColumn fk) (FromColumn fk))
             old Hold) in Hstep. simpl in Hstep.
  destruct (fetchReferencedParentIDs db c _ (rowsOf (rowSets st) c)) as [X| | |] eqn:Hfetch;
    [|done..].
  pose proof (fetchReferencedParentIDs_Done db c _ _ X Hfetch) as HX. simpl in HX.
  set (P := ToTable fk) in *.
  set (rs' := <[P := X ∪ old]> (rowSets st)) in *.
  assert (P ≠ c) as HPc by (intros HPc; apply Hself; rewrite Hfrom; done).
  assert (∀ t, rowsOf (rowSets st) t ⊆ rowsOf rs' t) as Hmono.
  { intros t. unfold rs'. rewrite rowsOf_insert. destruct (decide (P = t)) as [<-|]; [|done].
    rewrite (rowsOf_Some _ _ _ Hold). set_solver. }
  assert (rowsOf rs' c = rowsOf (rowSets st) c) as Hc.
  { unfold rs'. rewrite rowsOf_insert. by rewrite decide_False. }
  assert (rowsOf rs' P = X ∪ old) as HP.
  { unfold rs'. rewrite rowsOf_insert. by rewrite decide_True. }
  assert (dom rs' = tableSet allFks requestedTables) as Hdom'.
  { unfold rs'. rewrite dom_insert_L, <- Hdom. apply elem_of_dom_2 in Hold. set_solver. }
  assert (covers allFks rs') as Hcov'.
  { intros fk' Hfk'. destruct (Hcov fk' Hfk') as [? ?]. unfold rs'.
    split; apply lookup_insert_is_Some'; by right. }
  assert (∀ t i, i ∈ rowsOf rs' t →
    reachable db allFks requestedTables (λ fk, hard fk = true) t i) as Hsound'.
  { intros t i. unfold rs'. rewrite rowsOf_insert.
    destruct (decide (P = t)) as [<-|]; [|apply Hsound].
    intros [Hi|Hi]%elem_of_union; [|apply Hsound; by rewrite (rowsOf_Some _ _ _ Hold)].
    apply HX in Hi as (tb & r & Htb & Hr & Hid & Hcell).
    apply (reach_step _ _ _ _ c (row_id r)); [by apply Hsound|].
    by exists fk, tb, r. }
  assert (∀ c' e', c' ≠ P ∨ X ⊆ old →
    edgeClosed db (rowSets st) c' e' → edgeClosed db rs' c' e') as Hkeep.
  { intros c' e' Hc' (X' & HX' & Hsub'). exists X'. split; [|by rewrite <- Hmono].
    replace (rowsOf rs' c') with (rowsOf (rowSets st) c'); [done|].
    unfold rs'. rewrite rowsOf_insert.
    destruct (decide (P = c')) as [<-|]; [|done].
    destruct Hc' as [?|Hsub]; [done|]. rewrite (rowsOf_Some _ _ _ Hold). set_solver. }
  assert (∀ e', e' ∈ done ++ [mkEdge P (ToColumn fk) (FromColumn fk)] →
    edgeClosed db rs' c e') as Hdone'.
  { intros e' [He'|He']%elem_of_app.
    - apply Hkeep; [by left|by apply Hdone].
    - apply list_elem_of_singleton in He' as ->.
      exists X. rewrite Hc. split; [done|]. simpl. rewrite HP. set_solver. }
  assert (∀ t i, seedOf db requestedTables t i → i ∈ rowsOf rs' t) as Hseed'.
  { intros t i Hs. apply Hmono. by apply Hseed. }
  destruct (bool_decide_reflect (¬ X ⊆ old)) as [Hnew|Hsub]; simpl in Hstep.
  - destruct (default false (enqueued st !! P)) eqn:Henq; simpl in Hstep;
      injection Hstep as <-.
    + (* the parent is in the queue already *)
      split; simpl; try done.
      intros c' e' Hc' Hne He'. apply Hkeep; [|by apply Hclosed].
      left. intros ->. apply Hc'. by apply Hmark.
    + (* the parent is appended *)
      assert (P ∉ queue st) as HPq.
      { intros Hq. apply Hmark in Hq. congruence. }
      split; simpl; try done.
      * split.
        -- apply NoDup_app. split_and!; [done| |apply NoDup_singleton].
           intros x Hx ->%list_elem_of_singleton. done.
        -- intros t. simpl. rewrite elem_of_app, list_elem_of_singleton.
           destruct (decide (P = t)) as [<-|Hne].
           ++ rewrite lookup_insert_eq. simpl. naive_solver.
           ++ rewrite lookup_insert_ne by done. rewrite Hmark. naive_solver.
      * rewrite elem_of_app, list_elem_of_singleton. naive_solver.
      * intros c' e' Hc' Hne He'.
        rewrite elem_of_app, list_elem_of_singleton in Hc'.
        apply Hkeep; [left; naive_solver|]. apply Hclosed; naive_solver.
  - apply dec_stable in Hsub.
    injection Hstep as <-.
    split; simpl; try done.
    intros c' e' Hc' Hne He'. apply Hkeep; [by right|by apply Hclosed].
Qed.

Lemma bfsInv_end c st :
  edgeInv db allFks requestedTables c (edgesOf allFks c) st →
  bfsInv db allFks requestedTables st.
Proof.
  intros [Hdom Hcov Hmark Hout Hclosed Hdone Hsound Hseed]. split; try done.
  intros c' e Hc' He. destruct (decide (c' = c)) as [->|Hne]; [by apply Hdone|].
  by apply Hclosed.
Qed.

Lemma bfsInv_skip c st :
  edgeInv db allFks requestedTables c [] st →
  size (rowsOf (rowSets st) c) = 0%nat →
  bfsInv db allFks requestedTables st.
Proof.
  intros [Hdom Hcov Hmark Hout Hclosed Hdone Hsound Hseed] Hz. split; try done.
  intros c' e Hc' He. destruct (decide (c' = c)) as [->|Hne]; [|by apply Hclosed].
  exists ∅. split; [|set_solver].
  unfold fetchReferencedParentIDs. by rewrite bool_decide_eq_true_2.
Qed.

(** When the loop ends, the invariant holds and the queue is empty. *)
Lemma bfs_bfsInv fuel st st' :
  bfsInv db allFks requestedTables st →
  bfs db (buildAdjacency allFks) fuel st = Done st' →
  bfsInv db allFks requestedTables st' ∧ queue st' = [].
Proof.
  apply (bfs_invariant db allFks (bfsInv db allFks requestedTables)
           (edgeInv db allFks requestedTables)).
  - apply edgeInv_dequeue.
  - apply edgeInv_step.
  - apply bfsInv_end.
  - apply bfsInv_skip.
Qed.

(** With an empty queue the row sets are the reachable rows. *)
Lemma bfsInv_reachable st t i :
  bfsInv db allFks requestedTables st → queue st = [] →
  (i ∈ rowsOf (rowSets st) t ↔
   reachable db allFks requestedTables (λ fk, hard fk = true) t i).
Proof.
  intros [Hdom Hcov Hmark Hclosed Hsound Hseed] Hq. split; [apply Hsound|].
  induction 1 as [t i Hs|c i p j Hreach IH (fk & tb & r & Hfk & Hh & Hf & Ht & Htb & Hr & Hid & Hcell)].
  - by apply Hseed.
  - subst p.
    destruct (Hclosed c (mkEdge (ToTable fk) (ToColumn fk) (FromColumn fk)))
      as (X & HX & Hsub).
    + rewrite Hq. apply not_elem_of_nil.
    + apply elem_of_edgesOf. by exists fk.
    + apply Hsub. apply (fetchReferencedParentIDs_Done db _ _ _ _ HX).
      exists tb, r. by rewrite Hid.
Qed.

End bfs_sound_complete.

(** ** Before the loop: the row sets, the seed rows, the queue *)
Section closure_start.
Context (o : Oracle) (db : gmap string Table) (allFks : list ForeignKey)
        (requestedTables : gmap string Z).

Lemma ensure_lookup t rs t' :
  ensure t rs !! t' = if decide (t = t' ∧ rs !! t = None) then Some ∅ else rs !! t'.
Proof.
  unfold ensure. destruct (rs !! t) as [s|] eqn:Ht.
  - rewrite decide_False; [done|]. by intros [_ ?].
  - destruct (decide (t = t')) as [<-|Hne].
    + by rewrite lookup_insert_eq, decide_True.
    + rewrite lookup_insert_ne by done. rewrite decide_False; [done|]. by intros [? _].
Qed.

Lemma ensure_empty t rs :
  (∀ t' s, rs !! t' = Some s → s = ∅) → ∀ t' s, ensure t rs !! t' = Some s → s = ∅.
Proof.
  intros Hrs t' s. rewrite ensure_lookup.
  destruct (decide _); [congruence|apply Hrs].
Qed.

Lemma dom_ensure t rs : dom (ensure t rs) = {[t]} ∪ dom rs.
Proof.
  unfold ensure. destruct (rs !! t) as [s|] eqn:Ht.
  - apply elem_of_dom_2 in Ht. set_solver.
  - apply dom_insert_L.
Qed.

(** Every table of a relationship and every requested table has a row
    set, and the row sets are empty. *)
Lemma initRowSets_eq :
  initRowSets o allFks requestedTables =
  gset_to_gmap ∅ (tableSet allFks requestedTables).
Proof.
  unfold initRowSets.
  set (rs1 := foldl (λ rs fk, ensure (ToTable fk) (ensure (FromTable fk) rs)) ∅ allFks).
  assert (dom rs1 = list_to_set (FromTable <$> allFks) ∪ list_to_set (ToTable <$> allFks)
          ∧ ∀ t s, rs1 !! t = Some s → s = ∅) as [Hd1 He1].
  { unfold rs1. induction allFks as [|fk fks IH] using rev_ind.
    - simpl. split; [set_solver|]. intros t s. by rewrite lookup_empty.
    - rewrite foldl_snoc, !fmap_app, !list_to_set_app_L. simpl.
      destruct IH as [IHd IHe]. split.
      + rewrite !dom_ensure, IHd. set_solver.
      + by do 2 apply ensure_empty. }
  assert (∀ (l : list (string * Z)) rs,
    dom (foldl (λ rs e, ensure e.1 rs) rs l) = list_to_set l.*1 ∪ dom rs ∧
    ((∀ t s, rs !! t = Some s → s = ∅) →
     ∀ t s, foldl (λ rs e, ensure e.1 rs) rs l !! t = Some s → s = ∅)) as Hreq.
  { induction l as [|e l IH] using rev_ind; intros rs.
    - simpl. split; [set_solver|done].
    - rewrite foldl_snoc, fmap_app, list_to_set_app_L. simpl.
      destruct (IH rs) as [IHd IHe]. split.
      + rewrite dom_ensure, IHd. set_solver.
      + intros Hrs. by apply ensure_empty, IHe. }
  destruct (Hreq (range o 0 requestedTables) rs1) as [Hd He].
  apply map_eq. intros t. rewrite lookup_gset_to_gmap.
  destruct (decide (t ∈ tableSet allFks requestedTables)) as [Ht|Ht].
  - rewrite option_guard_True by done.
    assert (t ∈ dom (foldl (λ rs e, ensure e.1 rs) rs1 (range o 0 requestedTables)))
      as [s Hs]%elem_of_dom.
    { rewrite Hd, Hd1. unfold tableSet in Ht.
      assert (∀ t, t ∈ (list_to_set (range o 0 requestedTables).*1 : gset string) ↔
                   t ∈ dom requestedTables) as Hk.
      { intros t'. rewrite elem_of_list_to_set, elem_of_range_keys, elem_of_dom. done. }
      set_solver. }
    rewrite Hs. f_equal. by apply (He He1 t s).
  - rewrite option_guard_False by done.
    apply not_elem_of_dom. rewrite Hd, Hd1. unfold tableSet in Ht.
    assert (∀ t, t ∈ (list_to_set (range o 0 requestedTables).*1 : gset string) ↔
                 t ∈ dom requestedTables) as Hk.
    { intros t'. rewrite elem_of_list_to_set, elem_of_range_keys, elem_of_dom. done. }
    set_solver.
Qed.

Lemma tableSet_covers rs :
  dom rs = tableSet allFks requestedTables → covers allFks rs.
Proof.
  intros Hd fk Hfk. rewrite <- !elem_of_dom, Hd. unfold tableSet.
  split.
  - apply elem_of_union. left. apply elem_of_union. left.
    apply elem_of_list_to_set, list_elem_of_fmap. by exists fk.
  - apply elem_of_union. left. apply elem_of_union. right.
    apply elem_of_list_to_set, list_elem_of_fmap. by exists fk.
Qed.

Lemma addID_pass t ids : ∀ rs s,
  rs !! t = Some s →
  foldlO (addID t) rs ids = Done (<[t := list_to_set ids ∪ s]> rs).
Proof.
  induction ids as [|i ids IH]; intros rs s Hs; simpl.
  - by rewrite union_empty_l_L, insert_id.
  - unfold addID at 1. rewrite Hs. simpl.
    rewrite (IH _ ({[i]} ∪ s)) by apply lookup_insert_eq.
    rewrite insert_insert_eq. do 2 f_equal. set_solver.
Qed.

Lemma seedTable_eq rs t limit s :
  rs !! t = Some s →
  seedTable db rs (t, limit) =
  match fetchSomeIDs db t limit with
  | Done ids => Done (<[t := list_to_set ids ∪ s]> rs)
  | Failed e => Failed (FetchSomeIDsError t e)
  | Panicked => Panicked
  | OutOfFuel => OutOfFuel
  end.
Proof.
  intros Hs. unfold seedTable. simpl.
  destruct (fetchSomeIDs db t limit) as [ids| | |]; simpl; [|done..].
  by apply addID_pass.
Qed.

(** Seeding adds the fetched ids of each visited table. *)
Lemma seed_pass (l : list (string * Z)) : ∀ rs seeded,
  (∀ e, e ∈ l → is_Some (rs !! e.1)) →
  foldlO (seedTable db) rs l = Done seeded →
  dom seeded = dom rs ∧
  ∀ t i, i ∈ rowsOf seeded t ↔
    i ∈ rowsOf rs t ∨
    ∃ limit ids, (t, limit) ∈ l ∧ fetchSomeIDs db t limit = Done ids ∧ i ∈ ids.
Proof.
  induction l as [|[t0 limit] l IH]; intros rs seeded Hin Hfold; simpl in Hfold.
  - injection Hfold as <-. split; [done|]. intros t i. split; [by left|].
    intros [?|(? & ? & Hl & _)]; [done|]. by apply elem_of_nil in Hl.
  - destruct (Hin (t0, limit)) as [s Hs]; [left|]. simpl in Hs.
    rewrite (seedTable_eq rs t0 limit s Hs) in Hfold.
    destruct (fetchSomeIDs db t0 limit) as [ids| | |] eqn:Hfetch; [|done..].
    simpl in Hfold. apply IH in Hfold as [Hd Hmem].
    2:{ intros e He. apply lookup_insert_is_Some'. right. apply Hin. by right. }
    split.
    { rewrite Hd, dom_insert_L. apply elem_of_dom_2 in Hs. set_solver. }
    intros t i. rewrite Hmem, rowsOf_insert. split.
    + intros [Hi|(lim & ids' & Hl & Hf & Hi)].
      * destruct (decide (t0 = t)) as [<-|]; [|by left].
        apply elem_of_union in Hi as [Hi|Hi]; [|left; by rewrite (rowsOf_Some _ _ _ Hs)].
        right. exists limit, ids. split_and!; [left|done|].
        by apply elem_of_list_to_set in Hi.
      * right. exists lim, ids'. split_and!; [by right|done..].
    + intros [Hi|(lim & ids' & [Heq|Hl]%elem_of_cons & Hf & Hi)].
      * left. destruct (decide (t0 = t)) as [<-|]; [|done].
        rewrite (rowsOf_Some _ _ _ Hs) in Hi. set_solver.
      * injection Heq as -> ->. left. rewrite decide_True by done.
        assert (ids' = ids) as -> by congruence.
        apply elem_of_union. left. by apply elem_of_list_to_set.
      * right. by exists lim, ids'.
Qed.

Lemma marks_lookup (l : list string) t :
  default false (foldl (λ m t, <[t := true]> m) (∅ : gmap string bool) l !! t) = true
  ↔ t ∈ l.
Proof.
  induction l as [|x l IH] using rev_ind.
  - simpl. rewrite lookup_empty, elem_of_nil. simpl. naive_solver.
  - rewrite foldl_snoc, elem_of_app, list_elem_of_singleton.
    destruct (decide (x = t)) as [->|Hne].
    + rewrite lookup_insert_eq. simpl. naive_solver.
    + rewrite lookup_insert_ne by done. rewrite IH. naive_solver.
Qed.

(** The state before the first iteration satisfies the invariant. *)
Lemma startBfs_bfsInv seeded :
  foldlO (seedTable db) (initRowSets o allFks requestedTables)
    (range o 1 requestedTables) = Done seeded →
  bfsInv db allFks requestedTables (startBfs o requestedTables seeded) ∧
  ∀ t i, i ∈ rowsOf seeded t ↔ seedOf db requestedTables t i.
Proof.
  intros Hseed. apply seed_pass in Hseed as [Hd Hmem].
  2:{ intros [t limit] He. apply elem_of_range in He. simpl.
      rewrite initRowSets_eq, lookup_gset_to_gmap, option_guard_True; [done|].
      unfold tableSet. apply elem_of_union. right. by apply elem_of_dom_2 in He. }
  rewrite initRowSets_eq, dom_gset_to_gmap in Hd.
  assert (∀ t i, i ∈ rowsOf seeded t ↔ seedOf db requestedTables t i) as Hs.
  { intros t i. rewrite Hmem. unfold seedOf. split.
    - intros [Hi|(lim & ids & Hl & Hf & Hi)].
      + exfalso. revert Hi. unfold rowsOf.
        rewrite initRowSets_eq, lookup_gset_to_gmap.
        destruct (decide (t ∈ tableSet allFks requestedTables)).
        * rewrite option_guard_True by done. simpl. set_solver.
        * rewrite option_guard_False by done. simpl. set_solver.
      + apply elem_of_range in Hl. by exists lim, ids.
    - intros (lim & ids & Hl & Hf & Hi). right. exists lim, ids.
      split; [by apply elem_of_range|done]. }
  split; [|done]. split; simpl.
  - done.
  - by apply tableSet_covers.
  - split; [apply NoDup_range|]. intros t. apply marks_lookup.
  - intros c e Hc He. exists ∅. split; [|set_solver].
    unfold fetchReferencedParentIDs. rewrite bool_decide_eq_true_2; [done|].
    apply size_empty_iff. apply set_equiv. intros i. split; [|set_solver].
    intros (lim & ids & Hl & _)%Hs. exfalso. apply Hc. apply elem_of_range_keys. eauto.
  - intros t i Hi. apply reach_seed. by apply Hs.
  - intros t i. apply Hs.
Qed.

End closure_start.

(** ** The closure computes the reachable rows *)
Section closure_result.
Context (o : Oracle) (db : gmap string Table) (allFks : list ForeignKey)
        (requestedTables : gmap string Z).

Lemma closureRun_Done fuel st :
  closureRun fuel o db allFks requestedTables = Done st →
  bfsInv db allFks requestedTables st ∧ queue st = [].
Proof.
  unfold closureRun. intros Hrun.
  destruct (foldlO (seedTable db) (initRowSets o allFks requestedTables)
              (range o 1 requestedTables)) as [seeded| | |] eqn:Hseed; [|done..].
  simpl in Hrun. apply startBfs_bfsInv in Hseed as [Hinv _].
  by apply (bfs_bfsInv db allFks requestedTables fuel _ st Hinv).
Qed.

Lemma closure_Done fuel rs :
  closure fuel o db allFks requestedTables = Done rs →
  dom rs = tableSet allFks requestedTables ∧
  ∀ t i, i ∈ rowsOf rs t ↔
         reachable db allFks requestedTables (λ fk, hard fk = true) t i.
Proof.
  unfold closure. intros Hc.
  destruct (closureRun fuel o db allFks requestedTables) as [st| | |] eqn:Hrun; [|done..].
  simpl in Hc. injection Hc as <-.
  apply closureRun_Done in Hrun as [Hinv Hq]. split.
  - apply (bi_dom _ _ _ _ Hinv).
  - intros t i. by apply bfsInv_reachable.
Qed.

End closure_result.

(** Two row-set maps over the same tables with the same members are equal. *)
Lemma rowSets_eq (rs1 rs2 : gmap string (gset Z)) :
  dom rs1 = dom rs2 → (∀ t i, i ∈ rowsOf rs1 t ↔ i ∈ rowsOf rs2 t) → rs1 = rs2.
Proof.
  intros Hd Hm. apply map_eq. intros t.
  destruct (rs1 !! t) as [s1|] eqn:H1, (rs2 !! t) as [s2|] eqn:H2.
  - f_equal. apply set_eq. intros i.
    by rewrite <- (rowsOf_Some _ _ _ H1), <- (rowsOf_Some _ _ _ H2).
  - apply elem_of_dom_2 in H1. apply not_elem_of_dom in H2. congruence.
  - apply elem_of_dom_2 in H2. apply not_elem_of_dom in H1. congruence.
  - done.
Qed.



(** ** Termination of the closure loop *)
Section termination.
Context (db : gmap string Table) (allFks : list ForeignKey).

Lemma cell_dbInts c tb r column j :
  db !! c = Some tb → r ∈ rows tb → cell r column = VInt j → j ∈ dbInts db.
Proof.
  intros Htb Hr Hcell. unfold dbInts.
  apply elem_of_list_to_set, list_elem_of_bind. exists tb. split.
  2:{ apply list_elem_of_fmap. exists (c, tb). split; [done|].
      by apply elem_of_map_to_list. }
  apply list_elem_of_bind. exists r. split; [|done].
  unfold rowInts, cell in *. destruct (bool_decide (column = "id")).
  - injection Hcell as <-. left.
  - right. apply list_elem_of_omap. exists (VInt j). split; [|done].
    destruct (row_cells r !! column) as [v|] eqn:Hv; [|done]. simpl in Hcell. subst v.
    apply list_elem_of_fmap. exists (column, VInt j). split; [done|].
    by apply elem_of_map_to_list.
Qed.

Lemma fetchReferencedParentIDs_dbInts c e S X :
  fetchReferencedParentIDs db c e S = Done X → X ⊆ dbInts db.
Proof.
  intros Hf j Hj. apply (fetchReferencedParentIDs_Done db c e S X Hf) in Hj
    as (tb & r & Htb & Hr & _ & Hcell).
  by apply (cell_dbInts c tb r (ChildColumn e)).
Qed.

Lemma fetchSomeIDs_dbInts t limit ids i :
  fetchSomeIDs db t limit = Done ids → i ∈ ids → i ∈ dbInts db.
Proof.
  unfold fetchSomeIDs. destruct (bool_decide _); [done|].
  destruct (db !! t) as [tb|] eqn:Htb; [|done]. intros [= <-] Hi.
  apply subseteq_take in Hi. rewrite merge_sort_Permutation in Hi.
  apply list_elem_of_fmap in Hi as (r & -> & Hr).
  apply (cell_dbInts t tb r "id"); [done..|]. unfold cell.
  by rewrite bool_decide_eq_true_2.
Qed.

(** What an edge does to the state. *)
Lemma processEdge_Done c st e old st' :
  rowSets st !! ParentTable e = Some old →
  processEdge db c st e = Done st' →
  ∃ X, fetchReferencedParentIDs db c e (rowsOf (rowSets st) c) = Done X ∧
    rowSets st' = <[ParentTable e := X ∪ old]> (rowSets st) ∧
    ((queue st' = queue st ∧ appended st' = appended st ∧
      enqueued st' = enqueued st ∧
      (X ⊆ old ∨ default false (enqueued st !! ParentTable e) = true)) ∨
     (queue st' = queue st ++ [ParentTable e] ∧
      appended st' = appended st ++ [ParentTable e] ∧
      enqueued st' = <[ParentTable e := true]> (enqueued st) ∧
      ¬ X ⊆ old ∧ default false (enqueued st !! ParentTable e) = false)).
Proof.
  intros Hold Hstep. rewrite (processEdge_eq db c st e old Hold) in Hstep.
  destruct (fetchReferencedParentIDs db c e (rowsOf (rowSets st) c)) as [X| | |];
    [|done..].
  exists X. split; [done|]. simpl in Hstep.
  destruct (bool_decide_reflect (¬ X ⊆ old)) as [Hnew|Hsub]; simpl in Hstep.
  - destruct (default false (enqueued st !! ParentTable e)) eqn:Henq; simpl in Hstep;
      injection Hstep as <-; simpl; (split; [done|]); [left|right];
      split_and!; try done. by right.
  - apply dec_stable in Hsub. injection Hstep as <-. simpl. split; [done|].
    left. split_and!; try done. by left.
Qed.

Lemma processEdge_no_timeout c st e :
  is_Some (rowSets st !! ParentTable e) → processEdge db c st e ≠ OutOfFuel.
Proof.
  intros [old Hold]. rewrite (processEdge_eq db c st e old Hold).
  destruct (fetchReferencedParentIDs_cases db c e (rowsOf (rowSets st) c))
    as [[X ->]|[err ->]]; [|done]. simpl. by destruct (_ && _).
Qed.

Lemma sum_list_with_le {A} (f g : A → nat) l :
  (∀ x, x ∈ l → (f x ≤ g x)%nat) → (sum_list_with f l ≤ sum_list_with g l)%nat.
Proof.
  induction l as [|x l IH]; intros Hl; simpl; [done|].
  pose proof (Hl x ltac:(left)). 
  assert (sum_list_with f l ≤ sum_list_with g l)%nat.
  { apply IH. intros y Hy. apply Hl. by right. }
  lia.
Qed.

Lemma sum_list_with_lt {A} (f g : A → nat) l x0 :
  x0 ∈ l → (f x0 < g x0)%nat → (∀ x, x ∈ l → (f x ≤ g x)%nat) →
  (sum_list_with f l < sum_list_with g l)%nat.
Proof.
  induction l as [|x l IH]; intros Hx0 Hlt Hl; simpl; [by apply elem_of_nil in Hx0|].
  pose proof (Hl x ltac:(left)).
  assert (sum_list_with f l ≤ sum_list_with g l)%nat.
  { apply sum_list_with_le. intros y Hy. apply Hl. by right. }
  apply elem_of_cons in Hx0 as [->|Hx0]; [lia|].
  assert (sum_list_with f l < sum_list_with g l)%nat; [|lia].
  apply IH; [done..|]. intros y Hy. apply Hl. by right.
Qed.

Lemma slack_insert W rs P old s :
  rs !! P = Some old → old ⊆ s → s ⊆ W →
  (slack W (<[P := s]> rs) ≤ slack W rs)%nat ∧
  (¬ s ⊆ old → (slack W (<[P := s]> rs) < slack W rs)%nat).
Proof.
  intros Hold Hsub HW. unfold slack.
  assert (dom (<[P := s]> rs) = dom rs) as ->.
  { rewrite dom_insert_L. apply elem_of_dom_2 in Hold. set_solver. }
  assert (∀ t, (size (W ∖ rowsOf (<[P := s]> rs) t) ≤ size (W ∖ rowsOf rs t))%nat) as Hle.
  { intros t. apply subseteq_size. rewrite rowsOf_insert.
    destruct (decide (P = t)) as [<-|]; [|done].
    rewrite (rowsOf_Some _ _ _ Hold). set_solver. }
  split.
  - apply sum_list_with_le. intros t _. apply Hle.
  - intros Hnew. apply (sum_list_with_lt _ _ _ P).
    + apply elem_of_elements. by apply elem_of_dom_2 in Hold.
    + apply subset_size. rewrite rowsOf_insert, decide_True by done.
      rewrite (rowsOf_Some _ _ _ Hold).
      destruct (set_choose_L (s ∖ old)) as [x Hx].
      { intros Hempty. apply Hnew. intros y Hy.
        destruct (decide (y ∈ old)) as [|Hn]; [done|].
        assert (y ∈ s ∖ old) as Hy' by set_solver.
        rewrite Hempty in Hy'. set_solver. }
      split; [set_solver|]. intros Hsup.
      assert (x ∈ W ∖ s) by (apply Hsup; set_solver). set_solver.
    + intros t _. apply Hle.
Qed.

Lemma processEdge_measure W c st e st' :
  dbInts db ⊆ W → within W (rowSets st) →
  is_Some (rowSets st !! ParentTable e) →
  processEdge db c st e = Done st' →
  within W (rowSets st') ∧ dom (rowSets st') = dom (rowSets st) ∧
  (slack W (rowSets st') + length (queue st') ≤
   slack W (rowSets st) + length (queue st))%nat.
Proof.
  intros HW Hin [old Hold] Hstep.
  destruct (processEdge_Done c st e old st' Hold Hstep) as (X & Hf & Hrs & Hq).
  pose proof (fetchReferencedParentIDs_dbInts _ _ _ _ Hf) as HX.
  assert (old ⊆ W) as Hold' by (rewrite <- (rowsOf_Some _ _ _ Hold); apply Hin).
  destruct (slack_insert W (rowSets st) (ParentTable e) old (X ∪ old) Hold)
    as [Hle Hlt]; [set_solver..|].
  rewrite Hrs. split_and!.
  - intros t. rewrite rowsOf_insert. destruct (decide _); [set_solver|apply Hin].
  - rewrite dom_insert_L. apply elem_of_dom_2 in Hold. set_solver.
  - destruct Hq as [(-> & _)|(-> & _ & _ & Hnew & _)]; [lia|].
    rewrite length_app. simpl. assert (¬ X ∪ old ⊆ old) as Hn by set_solver.
    specialize (Hlt Hn). lia.
Qed.

Lemma edges_measure W c es : ∀ st,
  dbInts db ⊆ W → within W (rowSets st) → covers allFks (rowSets st) →
  (∀ e, e ∈ es → e ∈ edgesOf allFks c) →
  match foldlO (processEdge db c) st es with
  | Done st' =>
      within W (rowSets st') ∧ covers allFks (rowSets st') ∧
      (slack W (rowSets st') + length (queue st') ≤
       slack W (rowSets st) + length (queue st))%nat
  | OutOfFuel => False
  | _ => True
  end.
Proof.
  induction es as [|e es IH]; intros st HW Hin Hcov Hes; simpl; [done|].
  assert (is_Some (rowSets st !! ParentTable e)) as Hp.
  { pose proof (Hes e ltac:(left)) as He.
    apply elem_of_edgesOf in He as (fk & Hfk & _ & _ & ->). by apply Hcov. }
  pose proof (processEdge_no_timeout c st e Hp) as Hno.
  destruct (processEdge db c st e) as [st1| | |] eqn:Hstep; simpl; [|done..].
  destruct (processEdge_measure W c st e st1 HW Hin Hp Hstep) as (Hin1 & Hd1 & Hm1).
  assert (covers allFks (rowSets st1)) as Hcov1.
  { intros fk Hfk. rewrite <- !elem_of_dom, Hd1, !elem_of_dom. by apply Hcov. }
  specialize (IH st1 HW Hin1 Hcov1).
  destruct (foldlO (processEdge db c) st1 es) as [st2| | |]; try done.
  - destruct IH as (? & ? & ?); [intros e' He'; apply Hes; by right|].
    split_and!; [done..|lia].
  - apply IH. intros e' He'. apply Hes. by right.
Qed.

(** With more fuel than the measure, the loop ends. *)
Lemma bfs_total W fuel : ∀ st,
  dbInts db ⊆ W → within W (rowSets st) → covers allFks (rowSets st) →
  (slack W (rowSets st) + length (queue st) < fuel)%nat →
  bfs db (buildAdjacency allFks) fuel st ≠ OutOfFuel.
Proof.
  induction fuel as [|fuel IH]; intros st HW Hin Hcov Hm; [lia|].
  destruct (queue st) as [|c rest] eqn:Hq; [by rewrite bfs_nil|].
  rewrite (bfs_S _ _ _ _ c rest Hq). simpl in Hm.
  destruct (bool_decide _).
  - apply IH; simpl; [done..|lia].
  - pose proof (edges_measure W c (edgesOf allFks c) (dequeued st c rest) HW Hin Hcov
                  (λ e He, He)) as Hpass.
    destruct (foldlO (processEdge db c) (dequeued st c rest) (edgesOf allFks c))
      as [st2| | |]; simpl; try done.
    destruct Hpass as (Hin2 & Hcov2 & Hm2). simpl in Hm2.
    apply IH; [done..|lia].
Qed.

(** More fuel does not change a result. *)
Lemma bfs_fuel_mono fuel : ∀ st fuel',
  bfs db (buildAdjacency allFks) fuel st ≠ OutOfFuel → (fuel ≤ fuel')%nat →
  bfs db (buildAdjacency allFks) fuel' st = bfs db (buildAdjacency allFks) fuel st.
Proof.
  induction fuel as [|fuel IH]; intros st fuel' Hno Hle.
  - destruct (queue st) as [|c rest] eqn:Hq.
    + by rewrite !bfs_nil.
    + by rewrite (bfs_O _ _ _ c rest) in Hno.
  - destruct fuel' as [|fuel']; [lia|].
    destruct (queue st) as [|c rest] eqn:Hq; [by rewrite !bfs_nil|].
    rewrite (bfs_S _ _ fuel _ c rest Hq) in Hno.
    rewrite (bfs_S _ _ fuel _ c rest Hq), (bfs_S _ _ fuel' _ c rest Hq).
    destruct (bool_decide _).
    + apply IH; [done|lia].
    + destruct (foldlO (processEdge db c) (dequeued st c rest) (edgesOf allFks c))
        as [st2| | |]; simpl in *; try done.
      apply IH; [done|lia].
Qed.

End termination.

(** ** No panic, and the errors of the loop *)
Section no_panic.
Context (db : gmap string Table) (allFks : list ForeignKey).

Lemma processEdge_no_panic c st e :
  is_Some (rowSets st !! ParentTable e) → processEdge db c st e ≠ Panicked.
Proof.
  intros [old Hold]. rewrite (processEdge_eq db c st e old Hold).
  destruct (fetchReferencedParentIDs_cases db c e (rowsOf (rowSets st) c))
    as [[X ->]|[err ->]]; [|done]. simpl. by destruct (_ && _).
Qed.

Lemma edges_covers c es : ∀ st,
  covers allFks (rowSets st) → (∀ e, e ∈ es → e ∈ edgesOf allFks c) →
  match foldlO (processEdge db c) st es with
  | Done st' => covers allFks (rowSets st')
  | Failed _ => True
  | _ => False
  end.
Proof.
  induction es as [|e es IH]; intros st Hcov Hes; simpl; [done|].
  assert (is_Some (rowSets st !! ParentTable e)) as Hp.
  { pose proof (Hes e ltac:(left)) as He.
    apply elem_of_edgesOf in He as (fk & Hfk & _ & _ & ->). by apply Hcov. }
  pose proof (processEdge_no_timeout db c st e Hp) as Hno.
  pose proof (processEdge_no_panic c st e Hp) as Hnp.
  destruct (processEdge db c st e) as [st1| | |] eqn:Hstep; simpl; [|done..].
  apply IH; [|intros e' He'; apply Hes; by right].
  destruct Hp as [old Hold].
  destruct (processEdge_Done db c st e old st1 Hold Hstep) as (X & _ & -> & _).
  intros fk Hfk. destruct (Hcov fk Hfk).
  split; apply lookup_insert_is_Some'; by right.
Qed.

Lemma bfs_no_panic fuel : ∀ st,
  covers allFks (rowSets st) → bfs db (buildAdjacency allFks) fuel st ≠ Panicked.
Proof.
  induction fuel as [|fuel IH]; intros st Hcov.
  - destruct (queue st) as [|c rest] eqn:Hq; [by rewrite bfs_nil|].
    by rewrite (bfs_O _ _ _ c rest).
  - destruct (queue st) as [|c rest] eqn:Hq; [by rewrite bfs_nil|].
    rewrite (bfs_S _ _ _ _ c rest Hq). destruct (bool_decide _); [by apply IH|].
    pose proof (edges_covers c (edgesOf allFks c) (dequeued st c rest) Hcov (λ e He, He)).
    destruct (foldlO (processEdge db c) (dequeued st c rest) (edgesOf allFks c));
      simpl; try done. by apply IH.
Qed.

(** The loop fails with the wrapped error of a fetch, and nothing else. *)
Lemma processEdge_Failed c st e err :
  processEdge db c st e = Failed err →
  ∃ drv, fetchReferencedParentIDs db c e (rowsOf (rowSets st) c) = Failed drv ∧
         err = FetchReferencedParentIDsError drv.
Proof.
  unfold processEdge.
  destruct (fetchReferencedParentIDs db c e (rowsOf (rowSets st) c)) as [X|drv| |];
    simpl; [|intros [= <-]; eauto|done..].
  assert (∀ l a, foldlO (E := SyncError) (addParent (ParentTable e)) a l ≠ Failed err)
    as Hadd.
  { induction l as [|x l IH]; intros a; simpl; [done|].
    unfold addParent at 1. destruct (a.1 !! ParentTable e); simpl; [|done].
    destruct (bool_decide _); apply IH. }
  destruct (foldlO (addParent (ParentTable e)) (rowSets st, false) (elements X)) eqn:Hf;
    simpl; try done.
  - by destruct (_ && _).
  - intros [= ->]. by apply Hadd in Hf.
Qed.

Lemma edges_Failed c es : ∀ st err,
  foldlO (processEdge db c) st es = Failed err →
  ∃ drv, err = FetchReferencedParentIDsError drv.
Proof.
  induction es as [|e es IH]; intros st err; simpl; [done|].
  destruct (processEdge db c st e) as [st1|err'| |] eqn:Hstep; simpl; [apply IH| |done..].
  intros [= <-]. apply processEdge_Failed in Hstep as (drv & _ & ->). eauto.
Qed.

Lemma bfs_Failed fuel : ∀ st err,
  bfs db (buildAdjacency allFks) fuel st = Failed err →
  ∃ drv, err = FetchReferencedParentIDsError drv.
Proof.
  induction fuel as [|fuel IH]; intros st err.
  - destruct (queue st) as [|c rest] eqn:Hq; [by rewrite bfs_nil|].
    by rewrite (bfs_O _ _ _ c rest).
  - destruct (queue st) as [|c rest] eqn:Hq; [by rewrite bfs_nil|].
    rewrite (bfs_S _ _ _ _ c rest Hq). destruct (bool_decide _); [apply IH|].
    destruct (foldlO (processEdge db c) (dequeued st c rest) (edgesOf allFks c))
      as [st2|err'| |] eqn:Hf; simpl; [apply IH| |done..].
    intros [= <-]. by apply edges_Failed in Hf.
Qed.

End no_panic.

(** ** The closure as a whole *)
Section closure_total.
Context (o : Oracle) (db : gmap string Table) (allFks : list ForeignKey)
        (requestedTables : gmap string Z).

Lemma seeding_cases :
  (∃ seeded, foldlO (seedTable db) (initRowSets o allFks requestedTables)
               (range o 1 requestedTables) = Done seeded) ∨
  (∃ t drv, foldlO (seedTable db) (initRowSets o allFks requestedTables)
              (range o 1 requestedTables) = Failed (FetchSomeIDsError t drv) ∧
            ∃ limit, requestedTables !! t = Some limit ∧
                     fetchSomeIDs db t limit = Failed drv).
Proof.
  assert (∀ (l : list (string * Z)) rs,
    (∀ e, e ∈ l → is_Some (rs !! e.1)) →
    (∃ seeded, foldlO (seedTable db) rs l = Done seeded) ∨
    (∃ t drv, foldlO (seedTable db) rs l = Failed (FetchSomeIDsError t drv) ∧
              ∃ limit, (t, limit) ∈ l ∧ fetchSomeIDs db t limit = Failed drv)) as H.
  { induction l as [|[t limit] l IH]; intros rs Hin; simpl; [eauto|].
    destruct (Hin (t, limit)) as [s Hs]; [left|]. simpl in Hs.
    rewrite (seedTable_eq db rs t limit s Hs).
    destruct (fetchSomeIDs_cases db t limit) as [[ids Hf]|[drv Hf]]; rewrite Hf; simpl.
    - destruct (IH (<[t := list_to_set ids ∪ s]> rs)) as [?|(t' & drv & Hfail & lim & Hl & Hf')].
      + intros e He. apply lookup_insert_is_Some'. right. apply Hin. by right.
      + by left.
      + right. exists t', drv. split; [done|]. exists lim. split; [by right|done].
    - right. exists t, drv. split; [done|]. exists limit. split; [left|done]. }
  destruct (H (range o 1 requestedTables) (initRowSets o allFks requestedTables))
    as [?|(t & drv & Hfail & lim & Hl & Hf)].
  - intros [t limit] He. apply elem_of_range in He. simpl.
    rewrite initRowSets_eq, lookup_gset_to_gmap, option_guard_True; [done|].
    unfold tableSet. apply elem_of_union. right. by apply elem_of_dom_2 in He.
  - by left.
  - right. exists t, drv. split; [done|]. exists lim. split; [|done].
    by apply elem_of_range in Hl.
Qed.

Lemma slack_bound W rs : (slack W rs ≤ size (dom rs) * size W)%nat.
Proof.
  unfold slack. change (size (dom rs)) with (length (elements (dom rs))).
  induction (elements (dom rs)) as [|t l IH]; simpl; [lia|].
  assert (size (W ∖ rowsOf rs t) ≤ size W)%nat by (apply subseteq_size; set_solver).
  lia.
Qed.

(** With [closureFuel] iterations the closure ends, in a result or in an
    error. *)
Lemma closureRun_returns fuel :
  (closureFuel db allFks requestedTables ≤ fuel)%nat →
  returns (closureRun fuel o db allFks requestedTables).
Proof.
  intros Hfuel. unfold closureRun.
  destruct seeding_cases as [[seeded Hseed]|(t & drv & -> & _)]; [|done].
  rewrite Hseed. simpl.
  destruct (startBfs_bfsInv o db allFks requestedTables seeded Hseed) as [Hinv Hs].
  assert (within (dbInts db) seeded) as Hin.
  { intros t i Hi. apply Hs in Hi as (lim & ids & _ & Hf & Hi).
    by apply (fetchSomeIDs_dbInts db t lim ids). }
  pose proof (bfs_total db allFks (dbInts db) fuel (startBfs o requestedTables seeded))
    as Htot.
  pose proof (bfs_no_panic db allFks fuel (startBfs o requestedTables seeded)
                (bi_covers _ _ _ _ Hinv)) as Hnp.
  destruct (bfs db (buildAdjacency allFks) fuel (startBfs o requestedTables seeded));
    try done.
  apply Htot; try done.
  - apply (bi_covers _ _ _ _ Hinv).
  - simpl. pose proof (slack_bound (dbInts db) seeded) as Hsl.
    rewrite (bi_dom _ _ _ _ Hinv : dom seeded = _) in Hsl.
    rewrite length_fmap, range_perm, length_map_to_list.
    unfold closureFuel in Hfuel. lia.
Qed.

Lemma closureRun_fuel_mono fuel fuel' :
  closureRun fuel o db allFks requestedTables ≠ OutOfFuel → (fuel ≤ fuel')%nat →
  closureRun fuel' o db allFks requestedTables =
  closureRun fuel o db allFks requestedTables.
Proof.
  unfold closureRun. intros Hno Hle.
  destruct (foldlO (seedTable db) _ _) as [seeded| | |]; simpl in *; try done.
  by apply bfs_fuel_mono.
Qed.

Lemma closureRun_no_panic fuel :
  closureRun fuel o db allFks requestedTables ≠ Panicked.
Proof.
  unfold closureRun.
  destruct seeding_cases as [[seeded Hseed]|(t & drv & -> & _)]; [|done].
  rewrite Hseed. simpl. apply bfs_no_panic.
  apply startBfs_bfsInv in Hseed as [Hinv _]. apply (bi_covers _ _ _ _ Hinv).
Qed.

End closure_total.

(** ** The number of entries into the queue *)
Section chains.
Context (R : relation string).

Lemma chain_flip_tc a l x :
  chain (flip R) (a :: l) → x ∈ l → tc R x a.
Proof.
  revert a. induction l as [|b l IH]; intros a Hch Hx; [by apply elem_of_nil in Hx|].
  inversion Hch as [|a' b' l' Hab Hch']; subst.
  apply elem_of_cons in Hx as [->|Hx].
  - by apply tc_once.
  - eapply tc_r; [by apply IH|done].
Qed.

Lemma chain_flip_NoDup l : acyclic R → chain (flip R) l → NoDup l.
Proof.
  intros Hac. induction l as [|a l IH]; intros Hch; [constructor|].
  apply NoDup_cons. split.
  - intros Ha. apply (Hac a). by apply (chain_flip_tc a l a).
  - destruct l as [|b l]; [constructor|]. apply IH. by inversion Hch.
Qed.
End chains.

Section counting_entries.
Context (db : gmap string Table) (allFks : list ForeignKey)
        (requestedTables : gmap string Z) (q0 : list string).

Lemma depthAt_bound t r :
  acyclic (depends allFks) → depthAt allFks requestedTables t r →
  (r + 1 ≤ size (tableSet allFks requestedTables))%nat.
Proof.
  intros Hac (path & Hch & <- & Hin).
  pose proof (NoDup_length_le_size (t :: path) (tableSet allFks requestedTables)
                (chain_flip_NoDup _ _ Hac Hch) Hin) as Hle.
  simpl in Hle. lia.
Qed.

Lemma weight_ind f g c :
  (∀ t, f t = (g t + ind c t)%nat) →
  weight allFks f = (weight allFks g + length (edgesOf allFks c))%nat.
Proof.
  intros Hfg. unfold weight, edgesOf. rewrite length_fmap.
  induction allFks as [|fk fks IH]; [done|].
  rewrite !filter_cons. destruct (decide (hard fk = true)) as [Hh|Hh].
  - simpl. rewrite IH, Hfg. unfold ind.
    destruct (decide (FromTable fk = c)) as [Hc|Hc].
    + rewrite decide_True by done. simpl. lia.
    + rewrite decide_False by naive_solver. lia.
  - rewrite decide_False by naive_solver. apply IH.
Qed.

Lemma weight_ext f g : (∀ t, f t = g t) → weight allFks f = weight allFks g.
Proof.
  intros Hfg. unfold weight.
  induction (filter (λ fk, hard fk = true) allFks) as [|fk l IH]; simpl; [done|].
  by rewrite IH, Hfg.
Qed.

Lemma weight_le f g :
  (∀ fk, fk ∈ allFks → hard fk = true → (f (FromTable fk) ≤ g)%nat) →
  (weight allFks f ≤ g * length (filter (λ fk, hard fk = true) allFks))%nat.
Proof.
  intros Hf. unfold weight.
  assert (∀ fk, fk ∈ filter (λ fk, hard fk = true) allFks → (f (FromTable fk) ≤ g)%nat)
    as Hf'.
  { intros fk [Hh Hin]%list_elem_of_filter. by apply Hf. }
  induction (filter (λ fk, hard fk = true) allFks) as [|fk l IH]; simpl; [lia|].
  pose proof (Hf' fk ltac:(left)).
  assert (sum_list_with (λ fk, f (FromTable fk)) l ≤ g * length l)%nat.
  { apply IH. intros fk' Hfk'. apply Hf'. by right. }
  lia.
Qed.

Lemma seen_mono st R R' t :
  (R ≤ R')%nat → seen allFks requestedTables q0 st R t →
  seen allFks requestedTables q0 st R' t.
Proof.
  intros Hle [Hz|(r & Hr & He & Hd)]; [by left|]. right. exists r. split; [lia|done].
Qed.

Lemma roundEdgeInv_dequeue st c rest :
  marked st → roundInv allFks requestedTables q0 st → queue st = c :: rest →
  roundEdgeInv allFks requestedTables q0 c [] (dequeued st c rest).
Proof.
  intros [Hnd _] [(R & seg1 & seg2 & (Hq & H1 & H2) & Hseen) Hcount] Hqueue.
  rewrite Hqueue in Hnd. apply NoDup_cons in Hnd as [Hc Hnd].
  assert (∀ t, entries q0 (dequeued st c rest) t = entries q0 st t) as Hent by done.
  assert (∀ t, t ∉ rest → t ≠ c → t ∉ queue st) as Hout.
  { intros t Ht Hne. rewrite Hqueue, elem_of_cons. naive_solver. }
  split.
  - rewrite Hqueue in Hq. destruct seg1 as [|c' seg1].
    + simpl in Hq. subst seg2. exists (S R), rest, []. split_and!.
      * split_and!; simpl.
        -- by rewrite app_nil_r.
        -- intros t Ht. destruct (H2 t) as [He Hd]; [by right|].
           split; [|done]. rewrite Hent. lia.
        -- intros t Ht. by apply elem_of_nil in Ht.
      * intros t Ht Hne. apply (seen_mono st R); [lia|]. by apply Hseen, Hout.
      * destruct (H2 c) as [He _]; [left|]. rewrite Hent. lia.
      * by destruct (H2 c) as [_ Hd]; [left|].
    + simpl in Hq. injection Hq as <- ->. exists R, seg1, seg2. split_and!.
      * split_and!; simpl; [done| |done].
        intros t Ht. apply H1. by right.
      * intros t Ht Hne. by apply Hseen, Hout.
      * by destruct (H1 c) as [He _]; [left|].
      * by destruct (H1 c) as [_ Hd]; [left|].
  - simpl. rewrite Nat.sub_0_r.
    rewrite (weight_ind (waiting st) (waiting (dequeued st c rest)) c) in Hcount.
    + change (weight allFks (entries q0 (dequeued st c rest)))
        with (weight allFks (entries q0 st)). lia.
    + intros t. unfold waiting, ind. simpl. rewrite Hqueue.
      destruct (decide (t = c)) as [->|Hne].
      * rewrite decide_True by left. rewrite decide_False by done. done.
      * destruct (decide (t ∈ rest)).
        -- rewrite decide_True by (by right). done.
        -- rewrite decide_False; [done|]. rewrite elem_of_cons. naive_solver.
Qed.

Lemma roundEdgeInv_step c done e rest st st' :
  covers allFks (rowSets st) → marked st → c ∉ queue st →
  roundEdgeInv allFks requestedTables q0 c done st →
  edgesOf allFks c = done ++ e :: rest →
  processEdge db c st e = Done st' →
  roundEdgeInv allFks requestedTables q0 c (done ++ [e]) st'.
Proof.
  intros Hcov [Hnd Hmark] Hcq [(R & seg1 & seg2 & (Hq & H1 & H2) & Hseen & Hec & Hdc) Hcount]
    Hes Hstep.
  assert (e ∈ edgesOf allFks c) as He.
  { rewrite Hes. apply elem_of_app. right. left. }
  apply elem_of_edgesOf in He as (fk & Hfk & Hhard & Hfrom & ->).
  pose proof Hhard as [Hself _]%hard_spec.
  destruct (Hcov fk Hfk) as [_ [old Hold]].
  destruct (processEdge_Done db c st (mkEdge (ToTable fk) (ToColumn fk) (FromColumn fk))
              old st' Hold Hstep) as (X & _ & _ & Hcase).
  simpl in Hcase.
  assert (length done < length (edgesOf allFks c))%nat as Hlen.
  { rewrite Hes, length_app. simpl. lia. }
  destruct Hcase as [(Hq' & Ha' & _)|(Hq' & Ha' & _ & _ & Henq)].
  - assert (∀ t, entries q0 st' t = entries q0 st t) as Hent.
    { intros t. unfold entries. by rewrite Ha'. }
    assert (∀ t, waiting st' t = waiting st t) as Hw.
    { intros t. unfold waiting. by rewrite Hq'. }
    split.
    + exists R, seg1, seg2. rewrite Hent. split_and!; [|  |done..].
      * unfold rounds. rewrite Hq'. split_and!; [done| |]; intros t Ht; rewrite Hent;
          [by apply H1|by apply H2].
      * intros t Ht Hne. rewrite Hq' in Ht. destruct (Hseen t Ht Hne) as [?|?];
          [left|right]; by rewrite Hent.
    + rewrite length_app, Ha'. simpl.
      rewrite (weight_ext (waiting st') (waiting st) Hw).
      rewrite (weight_ext (entries q0 st') (entries q0 st) Hent). lia.
  - set (P := ToTable fk) in *.
    assert (P ∉ queue st) as HPq.
    { intros Hin. apply Hmark in Hin. congruence. }
    assert (P ≠ c) as HPc by (intros HPc; apply Hself; rewrite Hfrom; done).
    assert (∀ t, entries q0 st' t = (entries q0 st t + ind P t)%nat) as Hent.
    { intros t. unfold entries, ind. rewrite Ha', filter_app, length_app, filter_cons, filter_nil.
      destruct (decide (P = t)) as [<-|Hne]; simpl.
      - destruct (decide (P = P)); [lia|done].
      - destruct (decide (t = P)); [congruence|lia]. }
    assert (∀ t, waiting st' t = (waiting st t + ind P t)%nat) as Hw.
    { intros t. unfold waiting, ind. rewrite Hq'.
      destruct (decide (t = P)) as [->|Hne].
      - rewrite decide_True by (apply elem_of_app; right; left).
        by rewrite decide_False.
      - destruct (decide (t ∈ queue st)).
        + rewrite decide_True; [done|]. apply elem_of_app. by left.
        + rewrite decide_False; [done|].
          rewrite elem_of_app, list_elem_of_singleton. naive_solver. }
    pose proof Hent as Hent'. unfold ind in Hent'.
    split.
    + exists R, seg1, (seg2 ++ [P]). split_and!.
      * unfold rounds. rewrite Hq', Hq, (assoc_L (++)). split_and!; [done| |].
        -- intros t Ht. rewrite Hent'. destruct (H1 t Ht) as [Hle Hd].
           split; [|done]. rewrite decide_False; [lia|].
           intros ->. apply HPq. rewrite Hq. apply elem_of_app. by left.
        -- intros t [Ht|Ht]%elem_of_app.
           ++ rewrite Hent'. destruct (H2 t Ht) as [Hle Hd].
              split; [|done]. rewrite decide_False; [lia|].
              intros ->. apply HPq. rewrite Hq. apply elem_of_app. by right.
           ++ apply list_elem_of_singleton in Ht as ->. rewrite Hent'.
              rewrite decide_True by done. split.
              ** destruct (Hseen P HPq HPc) as [Hz|(r & Hr & Hle & _)]; lia.
              ** destruct Hdc as (path & Hch & Hlen' & Hin).
                 exists (c :: path). split_and!.
                 --- constructor; [|done]. exists fk. by rewrite Hfrom.
                 --- simpl. by rewrite Hlen'.
                 --- intros x [->|Hx]%elem_of_cons; [|by apply Hin].
                     unfold tableSet, P. apply elem_of_union. left.
                     apply elem_of_union. right.
                     apply elem_of_list_to_set, list_elem_of_fmap. by exists fk.
      * intros t Ht Hne. rewrite Hq', elem_of_app, list_elem_of_singleton in Ht.
        assert (t ≠ P) as HtP by naive_solver.
        destruct (Hseen t) as [Hz|(r & Hr & Hle & Hd)]; [naive_solver|done| |].
        -- left. rewrite Hent', Hz. by rewrite decide_False.
        -- right. exists r. rewrite Hent'. rewrite decide_False by done.
           split_and!; [done|lia|done].
      * rewrite Hent'. rewrite decide_False by done. lia.
      * done.
    + rewrite Ha', !length_app. simpl.
      rewrite (weight_ind (waiting st') (waiting st) P Hw).
      rewrite (weight_ind (entries q0 st') (entries q0 st) P Hent). lia.
Qed.

Lemma roundInv_end c st :
  c ∉ queue st →
  roundEdgeInv allFks requestedTables q0 c (edgesOf allFks c) st →
  roundInv allFks requestedTables q0 st.
Proof.
  intros Hcq [(R & seg1 & seg2 & Hr & Hseen & Hec & Hdc) Hcount]. split.
  - exists R, seg1, seg2. split; [done|]. intros t Ht.
    destruct (decide (t = c)) as [->|Hne]; [|by apply Hseen].
    right. exists R. done.
  - lia.
Qed.

Lemma roundInv_skip c st :
  c ∉ queue st →
  roundEdgeInv allFks requestedTables q0 c [] st →
  roundInv allFks requestedTables q0 st.
Proof.
  intros Hcq [(R & seg1 & seg2 & Hr & Hseen & Hec & Hdc) Hcount]. split.
  - exists R, seg1, seg2. split; [done|]. intros t Ht.
    destruct (decide (t = c)) as [->|Hne]; [|by apply Hseen].
    right. exists R. done.
  - lia.
Qed.

Lemma bfs_roundInv fuel st st' :
  bfsInv db allFks requestedTables st → roundInv allFks requestedTables q0 st →
  bfs db (buildAdjacency allFks) fuel st = Done st' →
  roundInv allFks requestedTables q0 st' ∧ queue st' = [].
Proof.
  intros Hinv Hround Hbfs.
  destruct (bfs_invariant db allFks
    (λ st, bfsInv db allFks requestedTables st ∧ roundInv allFks requestedTables q0 st)
    (λ c done st, edgeInv db allFks requestedTables c done st ∧
                  roundEdgeInv allFks requestedTables q0 c done st)) with fuel st st'
    as [[_ ?] ?]; try done.
  - intros s c rest [Hi Hr] Hq. split; [by apply edgeInv_dequeue|].
    apply roundEdgeInv_dequeue; [apply (bi_marked _ _ _ _ Hi)|done..].
  - intros c done e rest s s' [Hi Hr] Hes Hstep. split; [by eapply edgeInv_step|].
    eapply roundEdgeInv_step; try done.
    + apply (ei_covers _ _ _ _ _ _ Hi).
    + apply (ei_marked _ _ _ _ _ _ Hi).
    + apply (ei_out _ _ _ _ _ _ Hi).
  - intros c s [Hi Hr]. split; [by eapply bfsInv_end|].
    eapply roundInv_end; [apply (ei_out _ _ _ _ _ _ Hi)|done].
  - intros c s [Hi Hr] Hz. split; [by eapply bfsInv_skip|].
    eapply roundInv_skip; [apply (ei_out _ _ _ _ _ _ Hi)|done].
Qed.

(** Without cycles, a table enters the queue at most once per table. *)
Lemma roundInv_bound st :
  acyclic (depends allFks) → roundInv allFks requestedTables q0 st → queue st = [] →
  (length (appended st) ≤
   size (tableSet allFks requestedTables) * length (filter (λ fk, hard fk = true) allFks))%nat.
Proof.
  intros Hac [(R & seg1 & seg2 & _ & Hseen) Hcount] Hq.
  etransitivity; [|apply (weight_le (entries q0 st))].
  - lia.
  - intros fk Hfk Hh. destruct (Hseen (FromTable fk)) as [->|(r & _ & Hle & Hd)].
    + rewrite Hq. apply not_elem_of_nil.
    + lia.
    + pose proof (depthAt_bound _ _ Hac Hd). lia.
Qed.

End counting_entries.

Section closure_bound.
Context (o : Oracle) (db : gmap string Table) (allFks : list ForeignKey)
        (requestedTables : gmap string Z).

Lemma startBfs_roundInv seeded :
  roundInv allFks requestedTables (range o 2 requestedTables).*1
    (startBfs o requestedTables seeded).
Proof.
  set (q0 := (range o 2 requestedTables).*1).
  assert (∀ t, entries q0 (startBfs o requestedTables seeded) t =
               waiting (startBfs o requestedTables seeded) t) as Hent.
  { intros t. unfold entries, waiting. simpl. fold q0. destruct (decide (t ∈ q0)); lia. }
  split.
  - exists 0%nat, q0, []. split; [split_and!|].
    + simpl. by rewrite app_nil_r.
    + intros t Ht. rewrite Hent. unfold waiting. simpl. fold q0.
      rewrite decide_True by done. split; [lia|].
      exists []. split_and!; [constructor|done|].
      intros x ->%list_elem_of_singleton. unfold tableSet. apply elem_of_union. right.
      apply elem_of_dom. by apply elem_of_range_keys in Ht.
    + intros t Ht. by apply elem_of_nil in Ht.
    + intros t Ht. left. rewrite Hent. unfold waiting. by rewrite decide_False.
  - simpl. rewrite (weight_ext allFks _ _ Hent). lia.
Qed.

(** Without cycles, the loop appends to the queue at most (tables times
    edges) times. *)
Lemma closureRun_appended fuel st :
  acyclic (depends allFks) →
  closureRun fuel o db allFks requestedTables = Done st →
  (length (appended st) ≤
   size (tableSet allFks requestedTables) * length (filter (λ fk, hard fk = true) allFks))%nat.
Proof.
  intros Hac. unfold closureRun.
  destruct (foldlO (seedTable db) (initRowSets o allFks requestedTables)
              (range o 1 requestedTables)) as [seeded| | |] eqn:Hseed; [|done..].
  simpl. intros Hbfs. apply startBfs_bfsInv in Hseed as [Hinv _].
  destruct (bfs_roundInv db allFks requestedTables _ fuel _ st Hinv
              (startBfs_roundInv seeded) Hbfs) as [Hround Hq].
  by eapply roundInv_bound.
Qed.

End closure_bound.

(** ** Relationships that are not kept do not matter *)
Lemma addEdge_soft m fk : hard fk = false → addEdge m fk = m.
Proof.
  unfold hard, addEdge. destruct (bool_decide (FromTable fk = ToTable fk)); [done|].
  by destruct (IsNullable fk).
Qed.

Lemma addEdge_filter allFks : ∀ m,
  foldl addEdge m (filter (λ fk, hard fk = true) allFks) = foldl addEdge m allFks.
Proof.
  induction allFks as [|fk fks IH]; intros m; [done|].
  rewrite filter_cons. destruct (decide (hard fk = true)) as [Hh|Hh]; simpl; [apply IH|].
  rewrite addEdge_soft by (by destruct (hard fk)). apply IH.
Qed.

Lemma addFk_soft S m fk : hard fk = false → Topo.addFk S m fk = m.
Proof.
  unfold hard, Topo.addFk. destruct (bool_decide (FromTable fk = ToTable fk)); [done|].
  destruct (IsNullable fk); [|done]. simpl. by rewrite andb_false_r.
Qed.

Lemma addFk_filter S allFks : ∀ m,
  foldl (Topo.addFk S) m (filter (λ fk, hard fk = true) allFks) =
  foldl (Topo.addFk S) m allFks.
Proof.
  induction allFks as [|fk fks IH]; intros m; [done|].
  rewrite filter_cons. destruct (decide (hard fk = true)) as [Hh|Hh]; simpl; [apply IH|].
  rewrite addFk_soft by (by destruct (hard fk)). apply IH.
Qed.

Lemma partialTopoSort_filter o allFks neededTables :
  partialTopoSort o (filter (λ fk, hard fk = true) allFks) neededTables =
  partialTopoSort o allFks neededTables.
Proof.
  unfold partialTopoSort, Topo.kahn, Topo.buildDep. by rewrite addFk_filter.
Qed.

(** ** Acyclic relations *)
Lemma acyclic_rank (R : relation string) (rank : string → nat) :
  (∀ a b, R a b → (rank b < rank a)%nat) → acyclic R.
Proof.
  intros Hrank t Htc.
  assert (∀ a b, tc R a b → (rank b < rank a)%nat) as Hlt.
  { induction 1 as [a b Hab|a b c Hab _ IH]; [by apply Hrank|].
    apply Hrank in Hab. lia. }
  apply Hlt in Htc. lia.
Qed.

Lemma Acc_no_cycle (R : relation string) t : Acc (flip R) t → ¬ tc R t t.
Proof.
  induction 1 as [t _ IH]. intros Htc.
  inversion Htc as [a b Hab|a y b Hty Hyt]; subst.
  - apply (IH t Hab). by apply tc_once.
  - apply (IH y Hty). eapply tc_r; [exact Hyt|done].
Qed.

Lemma sortable_Acc allFks tables t :
  sortable allFks tables t → Acc (flip (dependsIn allFks tables)) t.
Proof.
  induction 1 as [t Ht Hnd Hp IH]. constructor. intros p (_ & Hpt & Hdep).
  apply IH. unfold depParents. apply list_elem_of_fmap.
  destruct Hdep as (fk & Hfk & Hh & Hf & Hto). exists fk. split; [done|].
  apply list_elem_of_filter. by rewrite Hto.
Qed.

(** ** The copy *)
Section copy.
Context (prodDB : gmap string Table) (rs : gmap string (gset Z)).

Lemma copyTable_skip reset w t :
  size (rowsOf rs t) = 0%nat → copyTable prodDB reset rs w t = (Done (), w).
Proof. intros Hz. unfold copyTable. by rewrite bool_decide_eq_true_2. Qed.

(** With [resetTables], a copied table holds the fetched rows and
    nothing else. *)
Lemma copyTable_reset_Done w t w' :
  size (rowsOf rs t) ≠ 0%nat →
  copyTable prodDB true rs w t = (Done (), w') →
  ∃ tb, devDB w !! t = Some tb ∧
        devDB w' = <[t := copyResult prodDB rs t tb]> (devDB w) ∧
        logged w' = logged w ++ [(size (rowsOf rs t), t)].
Proof.
  intros Hnz. unfold copyTable, copyResult, copiedRows, truncateTable.
  rewrite bool_decide_eq_false_2 by done. simpl.
  destruct (devDB w !! t) as [tb|] eqn:Htb; simpl; [|done].
  destruct (fetchRowsByIDs prodDB t (rowsOf rs t)) as [data| | |]; simpl; [|done..].
  unfold insertRows.
  destruct (bool_decide_reflect (length data.1 = 0%nat)) as [Hlen|Hlen]; simpl.
  { intros [= <-]. simpl. exists tb. split; [done|]. split; [|done].
    by destruct data.1. }
  destruct (bool_decide (length data.2 = 0%nat)); simpl; [done|].
  rewrite lookup_insert_eq. simpl.
  destruct (list_find _ data.2) as [[? ?]|]; simpl; [done|].
  intros [= <-]. simpl. exists tb. split; [done|]. split; [|done].
  by rewrite insert_insert_eq.
Qed.

Lemma copyAll_reset_Done sorted : ∀ w w',
  (∀ t, t ∈ sorted → size (rowsOf rs t) ≠ 0%nat) →
  copyAll prodDB true rs w sorted = (Done (), w') →
  (∀ t, t ∉ sorted → devDB w' !! t = devDB w !! t) ∧
  (∀ t, t ∈ sorted → ∃ tb, devDB w !! t = Some tb ∧
                           devDB w' !! t = Some (copyResult prodDB rs t tb)) ∧
  logged w' = logged w ++ ((λ t, (size (rowsOf rs t), t)) <$> sorted).
Proof.
  induction sorted as [|t0 sorted IH]; intros w w' Hnz Hcopy; simpl in Hcopy.
  { injection Hcopy as <-. split_and!; [done| |by rewrite app_nil_r].
    intros t Ht. by apply elem_of_nil in Ht. }
  destruct (copyTable prodDB true rs w t0) as [[[]| | |] w1] eqn:Hstep; try done.
  apply copyTable_reset_Done in Hstep as (tb0 & Htb0 & Hdev1 & Hlog1);
    [|apply Hnz; left].
  apply IH in Hcopy as (Hout & Hin & Hlog); [|intros t Ht; apply Hnz; by right].
  split_and!.
  - intros t Ht. apply not_elem_of_cons in Ht as [Hne Ht].
    rewrite (Hout t Ht), Hdev1. by rewrite lookup_insert_ne.
  - intros t Ht. destruct (decide (t ∈ sorted)) as [Hs|Hs].
    + destruct (Hin t Hs) as (tb1 & Htb1 & Hres). rewrite Hdev1 in Htb1.
      destruct (decide (t0 = t)) as [<-|Hne].
      * rewrite lookup_insert_eq in Htb1. injection Htb1 as <-.
        exists tb0. split; [done|]. by rewrite Hres.
      * rewrite lookup_insert_ne in Htb1 by done. by exists tb1.
    + apply elem_of_cons in Ht as [->|Ht]; [|done].
      exists tb0. split; [done|]. rewrite (Hout t0 Hs), Hdev1.
      by rewrite lookup_insert_eq.
  - rewrite Hlog, Hlog1. simpl. by rewrite <- (assoc_L (++)).
Qed.

End copy.

(** ** The tables needing copy *)
Lemma elem_of_tablesNeedingCopy o rs t :
  t ∈ tablesNeedingCopy o rs ↔ size (rowsOf rs t) ≠ 0%nat.
Proof.
  unfold tablesNeedingCopy. rewrite list_elem_of_fmap. split.
  - intros [[t' s] [-> [Hs Hin]%list_elem_of_filter]]. simpl in *.
    apply elem_of_range in Hin. rewrite (rowsOf_Some _ _ _ Hin). lia.
  - intros Hnz. destruct (rs !! t) as [s|] eqn:Hs.
    + rewrite (rowsOf_Some _ _ _ Hs) in Hnz.
      exists (t, s). split; [done|]. apply list_elem_of_filter. simpl.
      split; [lia|]. by apply elem_of_range.
    + exfalso. apply Hnz. unfold rowsOf. rewrite Hs. apply size_empty.
Qed.

Lemma NoDup_tablesNeedingCopy o rs : NoDup (tablesNeedingCopy o rs).
Proof. apply NoDup_filter_fst, NoDup_range. Qed.

(** ** SyncPartialData in three steps *)
Lemma SyncPartialData_Done fuel o prodDB dev allFks requestedTables reset w :
  SyncPartialData fuel o prodDB dev allFks requestedTables reset = (Done (), w) →
  ∃ rs sorted,
    closure fuel o prodDB allFks requestedTables = Done rs ∧
    partialTopoSort (shift 4 o) allFks (tablesNeedingCopy o rs) = Done sorted ∧
    copyAll prodDB reset rs (mkWorld dev []) sorted = (Done (), w).
Proof.
  unfold SyncPartialData.
  destruct (closure fuel o prodDB allFks requestedTables) as [rs| | |]; [|done..].
  destruct (partialTopoSort (shift 4 o) allFks (tablesNeedingCopy o rs)) as [sorted| | |]
    eqn:Ht; simpl; [|done..].
  intros Hcopy. by exists rs, sorted.
Qed.

Lemma SyncPartialData_steps fuel o prodDB dev allFks requestedTables reset rs sorted :
  closure fuel o prodDB allFks requestedTables = Done rs →
  partialTopoSort (shift 4 o) allFks (tablesNeedingCopy o rs) = Done sorted →
  SyncPartialData fuel o prodDB dev allFks requestedTables reset =
  copyAll prodDB reset rs (mkWorld dev []) sorted.
Proof. intros Hc Ht. unfold SyncPartialData. by rewrite Hc, Ht. Qed.

(** An error of the closure ends the run before anything is scheduled or
    copied. *)
Lemma SyncPartialData_closure_Failed fuel o prodDB dev allFks requestedTables reset err :
  closure fuel o prodDB allFks requestedTables = Failed err →
  SyncPartialData fuel o prodDB dev allFks requestedTables reset =
  (Failed err, mkWorld dev []).
Proof. intros Hc. unfold SyncPartialData. by rewrite Hc. Qed.

(** ** One requested table: the order of visits does not matter *)
Lemma range_singleton {V} o k (t : string) (v : V) :
  range o k ({[ t := v ]} : gmap string V) = [(t, v)].
Proof.
  pose proof (range_perm o k ({[ t := v ]} : gmap string V)) as Hperm.
  rewrite map_to_list_singleton in Hperm. by apply Permutation_singleton_r in Hperm.
Qed.

Lemma closureRun_single fuel o db allFks t limit :
  closureRun fuel o db allFks {[ t := limit ]} =
  closureRun fuel in_order db allFks {[ t := limit ]}.
Proof.
  unfold closureRun, startBfs. by rewrite !initRowSets_eq, !range_singleton.
Qed.

Lemma closure_single fuel o db allFks t limit :
  closure fuel o db allFks {[ t := limit ]} =
  closure fuel in_order db allFks {[ t := limit ]}.
Proof. unfold closure. by rewrite closureRun_single. Qed.

Lemma closure_fuel_mono fuel fuel' o db allFks requestedTables :
  closure fuel o db allFks requestedTables ≠ OutOfFuel → (fuel ≤ fuel')%nat →
  closure fuel' o db allFks requestedTables = closure fuel o db allFks requestedTables.
Proof.
  unfold closure. intros Hno Hle. rewrite (closureRun_fuel_mono o db allFks _ fuel fuel');
    [done| |done].
  by destruct (closureRun fuel o db allFks requestedTables).
Qed.

Lemma closure_returns fuel o db allFks requestedTables :
  (closureFuel db allFks requestedTables ≤ fuel)%nat →
  returns (closure fuel o db allFks requestedTables).
Proof.
  intros Hfuel. unfold closure.
  pose proof (closureRun_returns o db allFks requestedTables fuel Hfuel) as Hr.
  by destruct (closureRun fuel o db allFks requestedTables).
Qed.

(** ** The closure does not depend on the order of visits *)
Section failure.
Context (db : gmap string Table) (allFks : list ForeignKey).

(** A failing loop fails at an edge of a state the invariant describes. *)
Lemma bfs_invariant_Failed (I : Bfs → Prop) (J : string → list FkEdge → Bfs → Prop) :
  (∀ st c rest, I st → queue st = c :: rest → J c [] (dequeued st c rest)) →
  (∀ c done e rest st st', J c done st → edgesOf allFks c = done ++ e :: rest →
     processEdge db c st e = Done st' → J c (done ++ [e]) st') →
  (∀ c st, J c (edgesOf allFks c) st → I st) →
  (∀ c st, J c [] st → size (rowsOf (rowSets st) c) = 0%nat → I st) →
  ∀ fuel st err, I st → bfs db (buildAdjacency allFks) fuel st = Failed err →
    ∃ c done e st1, J c done st1 ∧ e ∈ edgesOf allFks c ∧
                    processEdge db c st1 e = Failed err.
Proof.
  intros Hdeq Hedge Hend Hskip.
  assert (∀ c es done st, J c done st → edgesOf allFks c = done ++ es →
    match foldlO (processEdge db c) st es with
    | Done st' => J c (edgesOf allFks c) st'
    | Failed err => ∃ done' e st1, J c done' st1 ∧ e ∈ edgesOf allFks c ∧
                                  processEdge db c st1 e = Failed err
    | _ => True
    end) as Hpass.
  { intros c es. induction es as [|e es IH]; intros done st HJ Hes; simpl.
    - by rewrite Hes, app_nil_r.
    - destruct (processEdge db c st e) as [st1|err| |] eqn:He; simpl; [| |done..].
      + apply (IH (done ++ [e]) st1); [|by rewrite <- (assoc_L (++))].
        by apply (Hedge c done e es st st1).
      + exists done, e, st. split_and!; [done| |done].
        rewrite Hes. apply elem_of_app. right. left. }
  induction fuel as [|fuel IH]; intros st err HI Hbfs.
  - destruct (queue st) as [|c rest] eqn:Hq.
    + by rewrite bfs_nil in Hbfs.
    + by rewrite (bfs_O _ _ _ c rest) in Hbfs.
  - destruct (queue st) as [|c rest] eqn:Hq; [by rewrite bfs_nil in Hbfs|].
    rewrite (bfs_S _ _ _ _ c rest Hq) in Hbfs.
    pose proof (Hdeq st c rest HI Hq) as HJ.
    destruct (bool_decide_reflect (size (rowsOf (rowSets st) c) = 0%nat)) as [Hz|Hz].
    + apply (IH _ _ (Hskip c _ HJ Hz) Hbfs).
    + pose proof (Hpass c (edgesOf allFks c) [] (dequeued st c rest) HJ eq_refl) as Hp.
      destruct (foldlO (processEdge db c) (dequeued st c rest) (edgesOf allFks c))
        as [st2|err'| |] eqn:Hfold; simpl in Hbfs; [| |done..].
      * apply (IH st2 err); [|done]. by apply (Hend c).
      * injection Hbfs as ->. destruct Hp as (done' & e & st1 & ? & ? & ?).
        by exists c, done', e, st1.
Qed.

Lemma scanIDs_Forall column vals : ∀ acc,
  (∃ X, scanIDs column vals acc = Done X) ↔ Forall (λ v, is_Some (intOf v)) vals.
Proof.
  induction vals as [|v vals IH]; intros acc; simpl.
  - split; [constructor|eauto].
  - destruct v as [|z|]; simpl.
    + split; [by intros [? ?]|]. intros [[? ?] _]%Forall_cons. done.
    + rewrite IH, Forall_cons. simpl. split; [eauto|by intros [_ ?]].
    + split; [by intros [? ?]|]. intros [[? ?] _]%Forall_cons. done.
Qed.

(** A fetch that works for a row set works for every smaller one. *)
Lemma fetchReferencedParentIDs_mono c e S S' X' :
  fetchReferencedParentIDs db c e S' = Done X' → S ⊆ S' →
  ∃ X, fetchReferencedParentIDs db c e S = Done X.
Proof.
  unfold fetchReferencedParentIDs. intros Hf Hsub.
  destruct (bool_decide_reflect (size S = 0%nat)) as [Hz|Hz]; [eauto|].
  destruct (bool_decide_reflect (size S' = 0%nat)) as [Hz'|Hz'].
  { exfalso. apply Hz. apply size_empty_iff in Hz'. apply size_empty_iff. set_solver. }
  destruct (db !! c) as [tb|]; [|done].
  destruct (has_column tb (ChildColumn e)); [|done].
  apply scanIDs_Forall. assert (∃ X, scanIDs (ChildColumn e)
    (filter (λ v, v ≠ VNull) ((λ r, cell r (ChildColumn e)) <$>
       filter (λ r, row_id r ∈ S') (rows tb))) ∅ = Done X) as Hall by eauto.
  apply scanIDs_Forall in Hall. rewrite Forall_forall in *.
  intros v [Hv Hin]%list_elem_of_filter. apply Hall.
  apply list_elem_of_filter. split; [done|].
  apply list_elem_of_fmap in Hin as (r & -> & [Hid Hr]%list_elem_of_filter).
  apply list_elem_of_fmap. exists r. split; [done|].
  apply list_elem_of_filter. split; [by apply Hsub|done].
Qed.

Lemma seed_pass_fetched (l : list (string * Z)) : ∀ rs seeded,
  (∀ e, e ∈ l → is_Some (rs !! e.1)) →
  foldlO (seedTable db) rs l = Done seeded →
  ∀ t limit, (t, limit) ∈ l → ∃ ids, fetchSomeIDs db t limit = Done ids.
Proof.
  induction l as [|[t0 limit0] l IH]; intros rs seeded Hin Hfold t limit Hl.
  { by apply elem_of_nil in Hl. }
  simpl in Hfold. destruct (Hin (t0, limit0)) as [s Hs]; [left|]. simpl in Hs.
  rewrite (seedTable_eq db rs t0 limit0 s Hs) in Hfold.
  destruct (fetchSomeIDs db t0 limit0) as [ids| | |] eqn:Hfetch; [|done..].
  simpl in Hfold. apply elem_of_cons in Hl as [[= -> ->]|Hl]; [eauto|].
  apply (IH _ _ ltac:(intros e He; apply lookup_insert_is_Some'; right; apply Hin;
                       by right) Hfold t limit Hl).
Qed.

End failure.

Section order_independent.
Context (db : gmap string Table) (allFks : list ForeignKey)
        (requestedTables : gmap string Z).

(** A closure that succeeds for one order of visits succeeds for every
    order, with the same row sets. *)
Lemma closure_any_order o1 o2 f1 f2 rs :
  closure f1 o1 db allFks requestedTables = Done rs →
  (closureFuel db allFks requestedTables ≤ f2)%nat →
  closure f2 o2 db allFks requestedTables = Done rs.
Proof.
  intros H1 Hfuel.
  pose proof (closure_Done o1 db allFks requestedTables f1 rs H1) as [Hd1 Hm1].
  pose proof (closure_returns f2 o2 db allFks requestedTables Hfuel) as Hret.
  destruct (closure f2 o2 db allFks requestedTables) as [rs2|err| |] eqn:H2; [| |done..].
  { f_equal. apply (closure_Done o2) in H2 as [Hd2 Hm2]. apply rowSets_eq; [congruence|].
    intros t i. by rewrite Hm1, Hm2. }
  exfalso. unfold closure in H1, H2.
  destruct (closureRun f1 o1 db allFks requestedTables) as [st1| | |] eqn:Hr1; [|done..].
  simpl in H1. injection H1 as <-.
  apply closureRun_Done in Hr1 as Hfin. destruct Hfin as [Hinv1 Hq1].
  destruct (closureRun f2 o2 db allFks requestedTables) as [|err'| |] eqn:Hr2; try done.
  simpl in H2. injection H2 as ->.
  unfold closureRun in Hr1, Hr2.
  destruct (seeding_cases o2 db allFks requestedTables)
    as [[seeded2 Hs2]|(t & drv & Hs2 & lim & Hreq & Hfail)].
  - rewrite Hs2 in Hr2. simpl in Hr2.
    apply startBfs_bfsInv in Hs2 as [Hinv2 _].
    destruct (bfs_invariant_Failed db allFks (bfsInv db allFks requestedTables)
                (edgeInv db allFks requestedTables)
                (edgeInv_dequeue db allFks requestedTables)
                (edgeInv_step db allFks requestedTables)
                (bfsInv_end db allFks requestedTables)
                (bfsInv_skip db allFks requestedTables)
                f2 _ err Hinv2 Hr2) as (c & done & e & st & HJ & He & Hfailed).
    apply processEdge_Failed in Hfailed as (drv & Hfetch & _).
    destruct (bi_closed _ _ _ _ Hinv1 c e) as (X & HX & _); [|done|].
    { rewrite Hq1. apply not_elem_of_nil. }
    destruct (fetchReferencedParentIDs_mono db c e (rowsOf (rowSets st) c) _ X HX)
      as [X' HX']; [|congruence].
    intros i Hi. apply Hm1. by apply (ei_sound _ _ _ _ _ _ HJ).
  - destruct (foldlO (seedTable db) (initRowSets o1 allFks requestedTables)
                (range o1 1 requestedTables)) as [seeded1| | |] eqn:Hs1; [|done..].
    assert (∀ e, e ∈ range o1 1 requestedTables →
                 is_Some (initRowSets o1 allFks requestedTables !! e.1)) as Hkeys.
    { intros [t' l'] He. apply elem_of_range in He. simpl.
      rewrite initRowSets_eq, lookup_gset_to_gmap, option_guard_True; [done|].
      unfold tableSet. apply elem_of_union. right. by apply elem_of_dom_2 in He. }
    assert ((t, lim) ∈ range o1 1 requestedTables) as Hin by (by apply elem_of_range).
    destruct (seed_pass_fetched db _ _ seeded1 Hkeys Hs1 t lim Hin) as [ids Hids].
    congruence.
Qed.

End order_independent.

(** ** Copying twice *)
Lemma depParents_ext allFks l1 l2 t :
  (∀ x, x ∈ l1 ↔ x ∈ l2) → depParents allFks l1 t = depParents allFks l2 t.
Proof.
  intros Hl. unfold depParents. f_equal. apply filter_ext_in. intros fk _.
  by rewrite Hl.
Qed.

Lemma sortable_ext allFks l1 l2 t :
  (∀ x, x ∈ l1 ↔ x ∈ l2) → sortable allFks l1 t → sortable allFks l2 t.
Proof.
  intros Hl. induction 1 as [t Ht Hnd Hp IH]. constructor.
  - by apply Hl.
  - by rewrite <- (depParents_ext allFks l1 l2 t Hl).
  - intros p Hp'. apply IH. by rewrite (depParents_ext allFks l1 l2 t Hl).
Qed.

Section copy_again.
Context (prodDB : gmap string Table) (rs : gmap string (gset Z)).

(** Whether a table can be copied depends on its columns only. *)
Lemma copyTable_reset_again w0 w0' w t tb0 tb :
  size (rowsOf rs t) ≠ 0%nat →
  devDB w0 !! t = Some tb0 →
  copyTable prodDB true rs w0 t = (Done (), w0') →
  devDB w !! t = Some tb → dev_columns tb = dev_columns tb0 →
  copyTable prodDB true rs w t =
  (Done (), mkWorld (<[t := copyResult prodDB rs t tb]> (devDB w))
              (logged w ++ [(size (rowsOf rs t), t)])).
Proof.
  intros Hnz Htb0 Hcopy Htb Hcols. revert Hcopy.
  unfold copyTable, copyResult, copiedRows, truncateTable.
  rewrite bool_decide_eq_false_2 by done. simpl. rewrite Htb0, Htb. simpl.
  destruct (fetchRowsByIDs prodDB t (rowsOf rs t)) as [data| | |]; simpl; [|done..].
  unfold insertRows.
  destruct (bool_decide_reflect (length data.1 = 0%nat)) as [Hlen|Hlen]; simpl.
  { intros _. by destruct data.1. }
  destruct (bool_decide (length data.2 = 0%nat)); simpl; [done|].
  rewrite !lookup_insert_eq. simpl. rewrite Hcols.
  destruct (list_find _ data.2) as [[? ?]|]; simpl; [done|].
  intros _. by rewrite insert_insert_eq.
Qed.

Lemma copyAll_reset_steps sorted : ∀ w w',
  (∀ t, t ∈ sorted → size (rowsOf rs t) ≠ 0%nat) →
  copyAll prodDB true rs w sorted = (Done (), w') →
  ∀ t, t ∈ sorted →
    ∃ w0 w0' tb0, devDB w0 !! t = Some tb0 ∧
                  copyTable prodDB true rs w0 t = (Done (), w0') ∧
                  devDB w' !! t = Some (copyResult prodDB rs t tb0).
Proof.
  induction sorted as [|t0 sorted IH]; intros w w' Hnz Hcopy t Ht.
  { by apply elem_of_nil in Ht. }
  simpl in Hcopy.
  destruct (copyTable prodDB true rs w t0) as [[[]| | |] w1] eqn:Hstep; try done.
  destruct (decide (t ∈ sorted)) as [Hs|Hs].
  { apply (IH w1 w'); [|done..]. intros t' Ht'. apply Hnz. by right. }
  apply elem_of_cons in Ht as [->|Ht]; [|done].
  pose proof Hstep as Hstep'.
  apply copyTable_reset_Done in Hstep' as (tb0 & Htb0 & Hdev1 & _); [|apply Hnz; left].
  apply copyAll_reset_Done in Hcopy as (Hout & _); [|intros t' Ht'; apply Hnz; by right].
  exists w, w1, tb0. split_and!; [done..|].
  rewrite (Hout t0 Hs), Hdev1. by rewrite lookup_insert_eq.
Qed.

Lemma copyAll_reset_again sorted : ∀ w,
  (∀ t, t ∈ sorted → size (rowsOf rs t) ≠ 0%nat ∧
     ∃ w0 w0' tb0, devDB w0 !! t = Some tb0 ∧
                   copyTable prodDB true rs w0 t = (Done (), w0') ∧
                   devDB w !! t = Some (copyResult prodDB rs t tb0)) →
  ∃ w', copyAll prodDB true rs w sorted = (Done (), w') ∧ devDB w' = devDB w.
Proof.
  induction sorted as [|t0 sorted IH]; intros w Hall; simpl; [eauto|].
  destruct (Hall t0) as (Hnz & w0 & w0' & tb0 & Htb0 & Hc0 & Hw); [left|].
  rewrite (copyTable_reset_again w0 w0' w t0 tb0 _ Hnz Htb0 Hc0 Hw eq_refl).
  assert (<[t0 := copyResult prodDB rs t0 (copyResult prodDB rs t0 tb0)]> (devDB w)
          = devDB w) as Hsame by (by apply insert_id).
  destruct (IH (mkWorld (<[t0 := copyResult prodDB rs t0 (copyResult prodDB rs t0 tb0)]>
                           (devDB w)) (logged w ++ [(size (rowsOf rs t0), t0)])))
    as (w' & Hcopy & Hdev).
  { intros t Ht. simpl. rewrite Hsame. apply Hall. by right. }
  exists w'. split; [done|]. simpl in Hdev. by rewrite Hdev, Hsame.
Qed.

End copy_again.

(** A second run with [resetTables] leaves the destination as the first
    run left it. *)
Lemma SyncPartialData_again f1 f2 o1 o2 prodDB dev allFks requestedTables w1 :
  SyncPartialData f1 o1 prodDB dev allFks requestedTables true = (Done (), w1) →
  (closureFuel prodDB allFks requestedTables ≤ f2)%nat →
  ∃ w2, SyncPartialData f2 o2 prodDB (devDB w1) allFks requestedTables true = (Done (), w2) ∧
        devDB w2 = devDB w1.
Proof.
  intros Hrun1 Hfuel.
  apply SyncPartialData_Done in Hrun1 as (rs & sorted1 & Hc1 & Ht1 & Hcopy1).
  pose proof (closure_any_order prodDB allFks requestedTables o1 o2 f1 f2 rs Hc1 Hfuel)
    as Hc2.
  destruct (partialTopoSort_Done _ _ _ _ Ht1) as (_ & Hperm1 & _ & Hsort1).
  assert (∀ x, x ∈ tablesNeedingCopy o1 rs ↔ x ∈ tablesNeedingCopy o2 rs) as Hsame.
  { intros x. by rewrite !elem_of_tablesNeedingCopy. }
  destruct (partialTopoSort_succeeds (shift 4 o2) allFks (tablesNeedingCopy o2 rs))
    as [sorted2 Ht2].
  { apply NoDup_tablesNeedingCopy. }
  { intros t Ht. apply (sortable_ext allFks (tablesNeedingCopy o1 rs)); [done|].
    apply Hsort1. by apply Hsame. }
  destruct (partialTopoSort_Done _ _ _ _ Ht2) as (_ & Hperm2 & _).
  assert (∀ t, t ∈ sorted1 → size (rowsOf rs t) ≠ 0%nat) as Hnz1.
  { intros t Ht. apply (elem_of_tablesNeedingCopy o1). by rewrite <- Hperm1. }
  destruct (copyAll_reset_again prodDB rs sorted2 (mkWorld (devDB w1) []))
    as (w2 & Hcopy2 & Hdev2).
  { intros t Ht. rewrite Hperm2 in Ht. apply Hsame in Ht as Ht1'.
    split; [by apply (elem_of_tablesNeedingCopy o2)|].
    rewrite <- Hperm1 in Ht1'.
    apply (copyAll_reset_steps prodDB rs sorted1 _ w1 Hnz1 Hcopy1 t Ht1'). }
  exists w2. split; [|done].
  by rewrite (SyncPartialData_steps f2 o2 prodDB _ allFks requestedTables true rs sorted2).
Qed.

(** ** When partialTopoSort succeeds *)
Section chains_forward.
Context (R : relation string).

Lemma chain_tc a l x : chain R (a :: l) → x ∈ l → tc R a x.
Proof.
  revert a. induction l as [|b l IH]; intros a Hch Hx; [by apply elem_of_nil in Hx|].
  inversion Hch as [|a' b' l' Hab Hch']; subst.
  apply elem_of_cons in Hx as [->|Hx].
  - by apply tc_once.
  - eapply tc_l; [done|by apply IH].
Qed.

Lemma chain_NoDup l : acyclic R → chain R l → NoDup l.
Proof.
  intros Hac. induction l as [|a l IH]; intros Hch; [constructor|].
  apply NoDup_cons. split.
  - intros Ha. apply (Hac a). by apply (chain_tc a l a).
  - destruct l as [|b l]; [constructor|]. apply IH. by inversion Hch.
Qed.
End chains_forward.

Section topo_complete.
Context (o : Oracle) (allFks : list ForeignKey) (neededTables : list string).

(** A returned order rules out cycles and repeated parents. *)
Lemma partialTopoSort_Done_acyclic sorted :
  partialTopoSort o allFks neededTables = Done sorted →
  NoDup neededTables ∧ acyclic (dependsIn allFks neededTables) ∧
  ∀ t, t ∈ neededTables → NoDup (depParents allFks neededTables t).
Proof.
  intros Hdone. destruct (partialTopoSort_Done _ _ _ _ Hdone) as (Hnd & Hperm & _ & Hsort).
  split_and!.
  - by rewrite <- Hperm.
  - intros t Htc. apply (Acc_no_cycle (dependsIn allFks neededTables) t); [|done].
    apply sortable_Acc, Hsort.
    inversion Htc as [a b Hab|a b c Hab _]; subst; by destruct Hab as (? & _).
  - intros t Ht. by destruct (Hsort t Ht).
Qed.

(** Without cycles and repeated parents every table is placed. *)
Lemma acyclic_sortable :
  acyclic (dependsIn allFks neededTables) →
  (∀ t, t ∈ neededTables → NoDup (depParents allFks neededTables t)) →
  ∀ t, t ∈ neededTables → sortable allFks neededTables t.
Proof.
  intros Hac Hnd t0 Ht0.
  destruct (kahn_result o allFks neededTables) as (final & Hk & _ & _ & Hmem & _).
  destruct (decide (t0 ∈ final)) as [Hin|Hout]; [by apply (final_sortable o _ _ final Hk)|].
  exfalso.
  assert (∀ n u, u ∈ neededTables → u ∉ final →
    ∃ path, chain (dependsIn allFks neededTables) (u :: path) ∧ length path = n ∧
            ∀ x, x ∈ u :: path → x ∈ neededTables) as Hpath.
  { induction n as [|n IH]; intros u Hu Hun.
    - exists []. split_and!; [constructor|done|].
      by intros x ->%list_elem_of_singleton.
    - assert (Exists (λ p, p ∉ final) (depParents allFks neededTables u)) as Hex.
      { apply not_Forall_Exists; [apply _|]. intros Hall. apply Hun, (Hmem u Hu).
        split; [by apply Hnd|]. by apply Forall_forall. }
      apply Exists_exists in Hex as (p & Hp & Hpn).
      apply elem_of_depParents in Hp as [Hpin Hdep].
      destruct (IH p Hpin Hpn) as (path & Hch & Hlen & Hall).
      exists (p :: path). split_and!.
      + by constructor.
      + simpl. by rewrite Hlen.
      + intros x [->|Hx]%elem_of_cons; [done|by apply Hall]. }
  destruct (Hpath (length neededTables) t0 Ht0 Hout) as (path & Hch & Hlen & Hall).
  pose proof (chain_NoDup _ _ Hac Hch) as Hnodup.
  pose proof (NoDup_length_le_size (t0 :: path) (list_to_set neededTables) Hnodup) as Hle.
  pose proof (size_list_to_set_le neededTables). simpl in Hle.
  assert (∀ x, x ∈ t0 :: path → x ∈ (list_to_set neededTables : gset string)) as Hsub.
  { intros x Hx. apply elem_of_list_to_set. by apply Hall. }
  specialize (Hle Hsub). lia.
Qed.

Lemma partialTopoSort_acyclic_Done :
  NoDup neededTables → acyclic (dependsIn allFks neededTables) →
  (∀ t, t ∈ neededTables → NoDup (depParents allFks neededTables t)) →
  ∃ sorted, partialTopoSort o allFks neededTables = Done sorted.
Proof.
  intros Hnd Hac Hpar. apply partialTopoSort_succeeds; [done|].
  by apply acyclic_sortable.
Qed.

End topo_complete.

(** ** Growth of the row sets *)
Section growth.
Context (db : gmap string Table) (allFks : list ForeignKey).

(** An edge only adds ids, and it appends the parent to the queue only
    when the parent's row set gained an id. *)
Lemma processEdge_grows c st e st' :
  processEdge db c st e = Done st' →
  (∀ t, rowsOf (rowSets st) t ⊆ rowsOf (rowSets st') t) ∧
  ((queue st' = queue st ∧ appended st' = appended st) ∨
   (queue st' = queue st ++ [ParentTable e] ∧
    appended st' = appended st ++ [ParentTable e] ∧
    rowsOf (rowSets st) (ParentTable e) ⊂ rowsOf (rowSets st') (ParentTable e))).
Proof.
  intros Hstep. destruct (rowSets st !! ParentTable e) as [old|] eqn:Hold.
  - destruct (processEdge_Done db c st e old st' Hold Hstep) as (X & _ & Hrs & Hq).
    assert (∀ t, rowsOf (rowSets st) t ⊆ rowsOf (rowSets st') t) as Hmono.
    { intros t. rewrite Hrs, rowsOf_insert. destruct (decide _) as [<-|]; [|done].
      rewrite (rowsOf_Some _ _ _ Hold). set_solver. }
    split; [done|].
    destruct Hq as [(? & ? & _)|(? & ? & _ & Hnew & _)]; [by left|right].
    split_and!; [done..|]. split; [apply Hmono|].
    rewrite Hrs, rowsOf_insert, decide_True by done.
    rewrite (rowsOf_Some _ _ _ Hold). set_solver.
  - revert Hstep. unfold processEdge.
    destruct (fetchReferencedParentIDs db c e (rowsOf (rowSets st) c)) as [X| | |];
      simpl; [|done..].
    destruct (elements X) as [|x l]; simpl.
    + intros [= <-]. simpl. split; [done|by left].
    + unfold addParent at 1. simpl. by rewrite Hold.
Qed.

Lemma bfs_grows fuel st st' :
  bfs db (buildAdjacency allFks) fuel st = Done st' →
  ∀ t, rowsOf (rowSets st) t ⊆ rowsOf (rowSets st') t.
Proof.
  intros Hbfs.
  destruct (bfs_invariant db allFks
    (λ s, ∀ t, rowsOf (rowSets st) t ⊆ rowsOf (rowSets s) t)
    (λ _ _ s, ∀ t, rowsOf (rowSets st) t ⊆ rowsOf (rowSets s) t)) with fuel st st'
    as [? _]; try done.
  intros c done e rest s s' Hs _ Hstep t.
  apply processEdge_grows in Hstep as [Hmono _]. by rewrite <- Hmono.
Qed.

End growth.

(** ** The size of the graph *)
Lemma edgeCount_insert m c es es' :
  m !! c = es → 
  edgeCount (<[c := es']> m) =
  (edgeCount m + length es' - length (default [] es))%nat.
Proof.
  unfold edgeCount. intros Hc.
  assert (∀ (z1 z2 : list FkEdge) (y : nat),
    (length z1 + (length z2 + y))%nat = (length z2 + (length z1 + y))%nat) as Hcomm.
  { intros. lia. }
  destruct es as [es|]; simpl.
  - rewrite <- (insert_delete_eq m c es').
    rewrite map_fold_insert_L; [|intros; apply Hcomm|apply lookup_delete_eq].
    rewrite (map_fold_delete_L _ _ c es m); [lia|intros; apply Hcomm|done].
  - rewrite map_fold_insert_L; [lia|intros; apply Hcomm|done].
Qed.

Lemma edgeCount_buildAdjacency allFks :
  edgeCount (buildAdjacency allFks) = length (filter (λ fk, hard fk = true) allFks).
Proof.
  unfold buildAdjacency. induction allFks as [|fk fks IH] using rev_ind; [done|].
  rewrite foldl_snoc, filter_app, length_app, filter_cons, filter_nil.
  destruct (decide (hard fk = true)) as [Hh|Hh].
  - pose proof Hh as [Hself Hnull]%hard_spec. unfold addEdge at 1.
    rewrite bool_decide_eq_false_2, Hnull by done.
    rewrite (edgeCount_insert _ _ _ _ eq_refl), length_app, IH. simpl. lia.
  - rewrite addEdge_soft by (by destruct (hard fk)). rewrite IH. simpl. lia.
Qed.

Lemma size_initRowSets o allFks requestedTables :
  size (initRowSets o allFks requestedTables) = size (tableSet allFks requestedTables).
Proof. by rewrite initRowSets_eq, <- size_dom, dom_gset_to_gmap. Qed.

(** * The claims *)

Lemma Shop_acyclic : acyclic (references Shop.allFks).
Proof.
  apply (acyclic_rank _ Shop.rank). intros a b (fk & Hfk & _ & <- & <-).
  unfold Shop.allFks in Hfk. rewrite !elem_of_cons, elem_of_nil in Hfk.
  destruct Hfk as [->|[->|[]]]; vm_compute; lia.
Qed.

Lemma depends_references allFks a b : depends allFks a b → references allFks a b.
Proof.
  intros (fk & Hfk & Hh & Hf & Ht). apply hard_spec in Hh as [_ Hn]. by exists fk.
Qed.

Lemma acyclic_sub (R1 R2 : relation string) :
  (∀ a b, R1 a b → R2 a b) → acyclic R2 → acyclic R1.
Proof.
  intros Hsub Hac t Htc. apply (Hac t).
  assert (∀ a b, tc R1 a b → tc R2 a b) as Htc2.
  { induction 1 as [a b Hab|a b c Hab _ IH]; [by apply tc_once, Hsub|].
    eapply tc_l; [by apply Hsub|done]. }
  by apply Htc2.
Qed.









(** C2. In the order [partialTopoSort] returns, for every relationship
    that is neither nullable nor self-referencing and whose two tables are
    in the order, the parent table stands at a smaller index than the child
    table. *)
Theorem partialTopoSort_parents_first o allFks neededTables sorted fk i j :
  partialTopoSort o allFks neededTables = Done sorted →
  fk ∈ allFks → IsNullable fk = false → FromTable fk ≠ ToTable fk →
  sorted !! i = Some (ToTable fk) → sorted !! j = Some (FromTable fk) →
  (i < j)%nat.
Proof.
  intros Hdone Hfk Hnull Hself Hi Hj.
  apply (partialTopoSort_index o allFks neededTables sorted (FromTable fk) (ToTable fk));
    [done| |done..].
  exists fk. split; [done|]. split; [by apply hard_spec|done].
Qed.

Lemma partialTopoSort_parents_first_witness :
  partialTopoSort in_order Shop.allFks ["order_items"; "orders"; "customers"]
    = Done ["customers"; "orders"; "order_items"] ∧ (0 < 1)%nat.
Proof.
  assert (partialTopoSort in_order Shop.allFks ["order_items"; "orders"; "customers"]
          = Done ["customers"; "orders"; "order_items"]) as Hs by (vm_compute; reflexivity).
  split; [exact Hs|].
  apply (partialTopoSort_parents_first in_order Shop.allFks
           ["order_items"; "orders"; "customers"] ["customers"; "orders"; "order_items"]
           (mkFK "orders" "customer_id" "customers" "id" false) 0 1 Hs).
  - left.
  - reflexivity.
  - vm_compute. discriminate.
  - reflexivity.
  - reflexivity.
Defined.

(** C3, at an input where the code departs from it: two relationships
    from messages to users, both tables in the set.  There is no cycle,
    and [partialTopoSort] returns its error for every order of visits. *)
Theorem partialTopoSort_repeated_parent o :
  NoDup Messages.tables ∧
  acyclic (dependsIn Messages.allFks Messages.tables) ∧
  partialTopoSort o Messages.allFks Messages.tables = Failed CycleOrMissing.
Proof.
  split_and!.
  - unfold Messages.tables. apply NoDup_cons. split; [|apply NoDup_singleton].
    rewrite list_elem_of_singleton. discriminate.
  - apply (acyclic_rank _ Messages.rank). intros a b (_ & _ & fk & Hfk & _ & <- & <-).
    unfold Messages.allFks in Hfk. rewrite !elem_of_cons, elem_of_nil in Hfk.
    destruct Hfk as [->|[->|[]]]; vm_compute; lia.
  - destruct (partialTopoSort_cases o Messages.allFks Messages.tables) as [?|[sorted Hs]];
      [done|].
    apply partialTopoSort_Done_acyclic in Hs as (_ & _ & Hnd).
    specialize (Hnd "messages" ltac:(left)). vm_compute in Hnd.
    apply NoDup_cons in Hnd as [Hin _]. exfalso. apply Hin. left.
Qed.

Lemma length_range {V} o k (m : gmap string V) : length (range o k m) = size m.
Proof. by rewrite (Permutation_length (range_perm o k m)), length_map_to_list. Qed.

(** C4, amended. The closure loop ends, in a result or in an error; a
    row set only grows while it runs; an edge appends its parent to the
    queue only when the parent's row set gained an id; and without cycles
    the loop appends to the queue at most (number of tables) times (number
    of edges) times, so that, with the requested tables put in the queue
    before the loop, a table is put in the queue at most (number of
    requested tables) + (number of tables) times (number of edges)
    times. *)
Theorem closure_loop_terminates o db allFks requestedTables :
  (∀ fuel, (closureFuel db allFks requestedTables ≤ fuel)%nat →
     returns (closureRun fuel o db allFks requestedTables)) ∧
  (∀ fuel st st', bfs db (buildAdjacency allFks) fuel st = Done st' →
     ∀ t, rowsOf (rowSets st) t ⊆ rowsOf (rowSets st') t) ∧
  (∀ c st e st', processEdge db c st e = Done st' →
     (queue st' = queue st ∧ appended st' = appended st) ∨
     (queue st' = queue st ++ [ParentTable e] ∧
      appended st' = appended st ++ [ParentTable e] ∧
      rowsOf (rowSets st) (ParentTable e) ⊂ rowsOf (rowSets st') (ParentTable e))) ∧
  (acyclic (depends allFks) →
   ∀ fuel st, closureRun fuel o db allFks requestedTables = Done st →
     (length (appended st) ≤
      size (initRowSets o allFks requestedTables) * edgeCount (buildAdjacency allFks))%nat ∧
     (enqueueCount o requestedTables st ≤
      size requestedTables +
      size (initRowSets o allFks requestedTables) * edgeCount (buildAdjacency allFks))%nat).
Proof.
  split_and!.
  - intros fuel. apply closureRun_returns.
  - intros fuel st st'. apply bfs_grows.
  - intros c st e st' Hstep. by apply processEdge_grows in Hstep as [_ ?].
  - intros Hac fuel st Hrun.
    assert (length (appended st) ≤
            size (initRowSets o allFks requestedTables) *
            edgeCount (buildAdjacency allFks))%nat as Hbound.
    { rewrite size_initRowSets, edgeCount_buildAdjacency.
      by apply (closureRun_appended o db allFks requestedTables fuel). }
    split; [done|]. unfold enqueueCount. rewrite length_range. lia.
Qed.

Lemma closure_loop_terminates_witness :
  acyclic (depends Shop.allFks) ∧
  returns (closureRun 17 in_order Shop.prodDB Shop.allFks Shop.requested) ∧
  ∃ st, closureRun 17 in_order Shop.prodDB Shop.allFks Shop.requested = Done st ∧
        (length (appended st) ≤
         size (initRowSets in_order Shop.allFks Shop.requested) *
         edgeCount (buildAdjacency Shop.allFks))%nat ∧
        (enqueueCount in_order Shop.requested st ≤
         size Shop.requested +
         size (initRowSets in_order Shop.allFks Shop.requested) *
         edgeCount (buildAdjacency Shop.allFks))%nat.
Proof.
  assert (acyclic (depends Shop.allFks)) as Hac.
  { apply (acyclic_sub _ _ (depends_references Shop.allFks)), Shop_acyclic. }
  destruct (closure_loop_terminates in_order Shop.prodDB Shop.allFks Shop.requested)
    as (Hends & _ & _ & Hbound).
  split; [exact Hac|]. split.
  - apply Hends. vm_compute. lia.
  - eexists. split; [vm_compute; reflexivity|].
    apply (Hbound Hac 17%nat). vm_compute. reflexivity.
Defined.

(** C4, as stated, fails: the requested tables are put in the queue
    before the loop, and they count.  With one relationship from a to b
    and both tables requested, b is taken from the queue first, a then
    adds a row to b, and b is put in the queue again: three times in all,
    against two tables times one edge. *)
Theorem enqueue_events_exceed_bound :
  acyclic (depends Pair.allFks) ∧
  ∃ st, closureRun 4 backwards Pair.prodDB Pair.allFks Pair.requested = Done st ∧
        enqueueCount backwards Pair.requested st = 3%nat ∧
        (size (initRowSets backwards Pair.allFks Pair.requested) *
         edgeCount (buildAdjacency Pair.allFks))%nat = 2%nat.
Proof.
  split.
  - apply (acyclic_rank _ Pair.rank). intros a b (fk & Hfk & _ & <- & <-).
    unfold Pair.allFks in Hfk. apply list_elem_of_singleton in Hfk as ->.
    vm_compute. lia.
  - eexists. split; [vm_compute; reflexivity|]. split; vm_compute; reflexivity.
Qed.

(** C5. No edge of the dependency graph of [SyncPartialData], and no edge
    used by [partialTopoSort], comes from a self-referencing or from a
    nullable relationship: such relationships can be dropped from the list
    without changing either graph or the order; the closure computes the
    same row sets without them; and a table that is referred to through
    such relationships only holds no rows but its seed rows. *)
Theorem soft_relationships_make_no_edge allFks :
  (∀ c e, e ∈ default [] (buildAdjacency allFks !! c) →
     ∃ fk, fk ∈ allFks ∧ FromTable fk = c ∧ ToTable fk = ParentTable e ∧
           FromTable fk ≠ ToTable fk ∧ IsNullable fk = false) ∧
  (∀ neededTables c p, p ∈ default [] (Topo.buildDep allFks neededTables !! c) →
     ∃ fk, fk ∈ allFks ∧ FromTable fk = c ∧ ToTable fk = p ∧
           FromTable fk ≠ ToTable fk ∧ IsNullable fk = false) ∧
  buildAdjacency (filter (λ fk, hard fk = true) allFks) = buildAdjacency allFks ∧
  (∀ neededTables,
     Topo.buildDep (filter (λ fk, hard fk = true) allFks) neededTables =
     Topo.buildDep allFks neededTables) ∧
  (∀ o neededTables,
     partialTopoSort o (filter (λ fk, hard fk = true) allFks) neededTables =
     partialTopoSort o allFks neededTables) ∧
  (∀ f1 f2 o1 o2 db requestedTables rs rs',
     closure f1 o1 db allFks requestedTables = Done rs →
     closure f2 o2 db (filter (λ fk, hard fk = true) allFks) requestedTables = Done rs' →
     ∀ t, rowsOf rs t = rowsOf rs' t) ∧
  (∀ fuel o db requestedTables rs p,
     (∀ fk, fk ∈ allFks → ToTable fk = p → IsNullable fk = true ∨ FromTable fk = p) →
     closure fuel o db allFks requestedTables = Done rs →
     (∀ j, j ∈ rowsOf rs p → seedOf db requestedTables p j) ∧
     (requestedTables !! p = None → p ∉ tablesNeedingCopy o rs)).
Proof.
  split_and!.
  - intros c e. rewrite buildAdjacency_lookup, elem_of_edgesOf.
    intros (fk & Hfk & [Hself Hnull]%hard_spec & Hc & ->). by exists fk.
  - intros neededTables c p. rewrite buildDep_lookup.
    destruct (decide (c ∈ neededTables)); simpl; [|by intros ?%elem_of_nil].
    intros [_ (fk & Hfk & [Hself Hnull]%hard_spec & Hc & Hp)]%elem_of_depParents.
    by exists fk.
  - apply addEdge_filter.
  - intros neededTables. apply addFk_filter.
  - intros o neededTables. apply partialTopoSort_filter.
  - intros f1 f2 o1 o2 db requestedTables rs rs' H1 H2 t.
    apply closure_Done in H1 as [_ Hm1]. apply closure_Done in H2 as [_ Hm2].
    apply set_eq. intros i. rewrite Hm1, Hm2. split.
    + induction 1 as [t i Hs|c i p j _ IH (fk & tb & r & Hfk & Hkeep & Hrest)];
        [by apply reach_seed|].
      apply (reach_step _ _ _ _ c i); [done|]. exists fk, tb, r.
      split; [by apply list_elem_of_filter|done].
    + induction 1 as [t i Hs|c i p j _ IH (fk & tb & r & Hfk & Hkeep & Hrest)];
        [by apply reach_seed|].
      apply (reach_step _ _ _ _ c i); [done|]. exists fk, tb, r.
      apply list_elem_of_filter in Hfk as [_ Hfk]. done.
  - intros fuel o db requestedTables rs p Hsoft Hc.
    apply closure_Done in Hc as [_ Hm].
    assert (∀ j, j ∈ rowsOf rs p → seedOf db requestedTables p j) as Hseeds.
    { intros j Hj. apply Hm in Hj.
      destruct Hj as [t i Hs|c i p j _ (fk & tb & r & Hfk & [Hself Hnull]%hard_spec & Hf & Ht & _)];
        [done|].
      destruct (Hsoft fk Hfk Ht) as [?|?]; congruence. }
    split; [done|]. intros Hreq Hin. apply elem_of_tablesNeedingCopy in Hin.
    apply Hin, size_empty_iff, set_equiv. intros j. split; [|set_solver].
    intros (lim & ids & Hl & _)%Hseeds. congruence.
Qed.

Lemma soft_relationships_make_no_edge_witness :
  ∃ rs, closure 2 in_order Coupons.prodDB Coupons.allFks Coupons.requested = Done rs ∧
        (∀ j, j ∈ rowsOf rs "coupons" →
              seedOf Coupons.prodDB Coupons.requested "coupons" j) ∧
        "coupons" ∉ tablesNeedingCopy in_order rs.
Proof.
  eexists. split; [vm_compute; reflexivity|].
  destruct (soft_relationships_make_no_edge Coupons.allFks) as (_ & _ & _ & _ & _ & _ & H).
  edestruct (H 2%nat in_order Coupons.prodDB Coupons.requested) as [Hs Hn].
  - intros fk Hfk _. unfold Coupons.allFks in Hfk.
    apply list_elem_of_singleton in Hfk as ->. by left.
  - vm_compute. reflexivity.
  - split; [exact Hs|]. apply Hn. reflexivity.
Defined.

(** C6. Before the closure loop begins, every table named as child or
    parent by a relationship and every requested table has a row set,
    possibly empty; seeding keeps the entries; while the loop runs, the
    parent of an edge has a row set, so that no insertion panics. *)
Theorem rowSets_cover_every_table o db allFks requestedTables :
  (∀ fk, fk ∈ allFks →
     is_Some (initRowSets o allFks requestedTables !! FromTable fk) ∧
     is_Some (initRowSets o allFks requestedTables !! ToTable fk)) ∧
  (∀ t, is_Some (requestedTables !! t) →
        is_Some (initRowSets o allFks requestedTables !! t)) ∧
  (∀ seeded, foldlO (seedTable db) (initRowSets o allFks requestedTables)
               (range o 1 requestedTables) = Done seeded →
     dom seeded = dom (initRowSets o allFks requestedTables)) ∧
  (∀ c e st, covers allFks (rowSets st) → e ∈ default [] (buildAdjacency allFks !! c) →
     is_Some (rowSets st !! ParentTable e) ∧
     processEdge db c st e ≠ Panicked ∧
     ∀ st', processEdge db c st e = Done st' → covers allFks (rowSets st')) ∧
  (∀ fuel, closureRun fuel o db allFks requestedTables ≠ Panicked).
Proof.
  assert (covers allFks (initRowSets o allFks requestedTables)) as Hcov.
  { apply (tableSet_covers allFks requestedTables).
    by rewrite initRowSets_eq, dom_gset_to_gmap. }
  split_and!.
  - exact Hcov.
  - intros t Ht. rewrite initRowSets_eq, lookup_gset_to_gmap, option_guard_True; [done|].
    unfold tableSet. apply elem_of_union. right. by apply elem_of_dom.
  - intros seeded Hseed. apply startBfs_bfsInv in Hseed as [Hinv _].
    rewrite initRowSets_eq, dom_gset_to_gmap. apply (bi_dom _ _ _ _ Hinv).
  - intros c e st Hc He. rewrite buildAdjacency_lookup in He.
    assert (is_Some (rowSets st !! ParentTable e)) as Hp.
    { apply elem_of_edgesOf in He as (fk & Hfk & _ & _ & ->). by apply Hc. }
    split; [done|]. split; [by apply processEdge_no_panic|].
    intros st' Hstep. destruct Hp as [old Hold].
    destruct (processEdge_Done db c st e old st' Hold Hstep) as (X & _ & -> & _).
    intros fk Hfk. destruct (Hc fk Hfk).
    split; apply lookup_insert_is_Some'; by right.
  - intros fuel. apply closureRun_no_panic.
Qed.

Lemma rowSets_cover_every_table_witness :
  is_Some (initRowSets in_order Shop.allFks Shop.requested !! "customers") ∧
  is_Some (initRowSets in_order Shop.allFks Shop.requested !! "order_items").
Proof.
  destruct (rowSets_cover_every_table in_order Shop.prodDB Shop.allFks
              Shop.requested) as (Hfk & Hreq & _).
  split.
  - apply (Hfk (mkFK "orders" "customer_id" "customers" "id" false)). left.
  - apply Hreq. vm_compute. eauto.
Defined.

(** C7, at two inputs where the code departs from it: the owner column
    of cats and of dogs holds text, and the fetch of the parent ids fails
    for the one table or for the other.  The run ends at once, nothing is
    scheduled or copied, and the error returned is the same in the two
    runs: it names neither the table nor the edge. *)
Theorem fetch_error_names_no_table o fuel reset :
  SyncPartialData (S fuel) o Pets.prodDB Pets.dev Pets.allFks Pets.cats reset =
    (Failed (FetchReferencedParentIDsError (ScanError "owner_id")), mkWorld Pets.dev []) ∧
  SyncPartialData (S fuel) o Pets.prodDB Pets.dev Pets.allFks Pets.dogs reset =
    (Failed (FetchReferencedParentIDsError (ScanError "owner_id")), mkWorld Pets.dev []).
Proof.
  split; apply SyncPartialData_closure_Failed.
  - unfold Pets.cats. rewrite closure_single.
    rewrite (closure_fuel_mono 1 (S fuel)); [by vm_compute|by vm_compute|lia].
  - unfold Pets.dogs. rewrite closure_single.
    rewrite (closure_fuel_mono 1 (S fuel)); [by vm_compute|by vm_compute|lia].
Qed.

(** C8. When a run with [resetTables] ends without error, a second run
    with the same requested tables and limits on the unchanged source,
    for any order of visits, ends without error too and leaves the
    destination as the first run left it. *)
Theorem reset_run_twice f1 f2 o1 o2 prodDB dev allFks requestedTables w1 :
  SyncPartialData f1 o1 prodDB dev allFks requestedTables true = (Done (), w1) →
  (closureFuel prodDB allFks requestedTables ≤ f2)%nat →
  ∃ w2, SyncPartialData f2 o2 prodDB (devDB w1) allFks requestedTables true = (Done (), w2) ∧
        devDB w2 = devDB w1.
Proof. apply SyncPartialData_again. Qed.

Lemma reset_run_twice_witness :
  ∃ w1, SyncPartialData 17 in_order Shop.prodDB Shop.dev Shop.allFks
          Shop.requested true = (Done (), w1) ∧
    ∃ w2, SyncPartialData 17 backwards Shop.prodDB (devDB w1) Shop.allFks
            Shop.requested true = (Done (), w2) ∧
          devDB w2 = devDB w1.
Proof.
  assert (∃ w1, SyncPartialData 17 in_order Shop.prodDB Shop.dev Shop.allFks
                  Shop.requested true = (Done (), w1)) as [w1 H1].
  { eexists. vm_compute. reflexivity. }
  exists w1. split; [exact H1|].
  apply (reset_run_twice 17 17 in_order backwards Shop.prodDB Shop.dev
           Shop.allFks Shop.requested w1 H1).
  vm_compute. lia.
Defined.

Lemma expected_tables o t :
  t ∈ tablesNeedingCopy o expectedRowSets ↔ t ∈ Shop.tables.
Proof.
  rewrite elem_of_tablesNeedingCopy. unfold Shop.tables.
  rewrite !elem_of_cons, elem_of_nil. split.
  - intros Hnz.
    destruct (decide (t = "order_items")) as [->|H1]; [tauto|].
    destruct (decide (t = "orders")) as [->|H2]; [tauto|].
    destruct (decide (t = "customers")) as [->|H3]; [tauto|].
    exfalso. apply Hnz. unfold rowsOf, expectedRowSets.
    rewrite !lookup_insert_ne by done. rewrite lookup_singleton_ne by done.
    apply size_empty.
  - intros [->|[->|[->|[]]]]; vm_compute; lia.
Qed.

Lemma Shop_sortable t : t ∈ Shop.tables → sortable Shop.allFks Shop.tables t.
Proof.
  assert (sortable Shop.allFks Shop.tables "customers") as Hc.
  { constructor; [left|vm_compute; constructor|].
    intros p Hp. vm_compute in Hp. by apply elem_of_nil in Hp. }
  assert (sortable Shop.allFks Shop.tables "orders") as Ho.
  { constructor; [right; left|vm_compute; apply NoDup_singleton|].
    intros p Hp. vm_compute in Hp. by apply list_elem_of_singleton in Hp as ->. }
  assert (sortable Shop.allFks Shop.tables "order_items") as Hi.
  { constructor; [right; right; left|vm_compute; apply NoDup_singleton|].
    intros p Hp. vm_compute in Hp. by apply list_elem_of_singleton in Hp as ->. }
  unfold Shop.tables. rewrite !elem_of_cons, elem_of_nil.
  by intros [->|[->|[->|[]]]].
Qed.

Lemma Shop_order o :
  partialTopoSort (shift 4 o) Shop.allFks (tablesNeedingCopy o expectedRowSets)
  = Done Shop.tables.
Proof.
  destruct (partialTopoSort_succeeds (shift 4 o) Shop.allFks
              (tablesNeedingCopy o expectedRowSets)) as [sorted Hs].
  { apply NoDup_tablesNeedingCopy. }
  { intros t Ht. apply (sortable_ext Shop.allFks Shop.tables).
    - intros x. by rewrite expected_tables.
    - apply Shop_sortable. by apply (expected_tables o). }
  rewrite Hs. f_equal.
  destruct (partialTopoSort_Done _ _ _ _ Hs) as (Hnd & Hperm & _).
  assert (∀ t, t ∈ Shop.tables → t ∈ sorted) as Hin.
  { intros t Ht. rewrite Hperm. by apply (expected_tables o). }
  assert (length sorted = 3%nat) as Hlen.
  { rewrite Hperm. change 3%nat with (length Shop.tables).
    apply Permutation_length, NoDup_Permutation.
    - apply NoDup_tablesNeedingCopy.
    - unfold Shop.tables. repeat (apply NoDup_cons; split;
        [rewrite ?elem_of_cons, elem_of_nil; intros H; repeat destruct H as [H|H]; done|]).
      constructor.
    - intros t. apply (expected_tables o). }
  destruct (list_elem_of_lookup_1 sorted "customers") as [i Hi]; [apply Hin; left|].
  destruct (list_elem_of_lookup_1 sorted "orders") as [j Hj]; [apply Hin; right; left|].
  destruct (list_elem_of_lookup_1 sorted "order_items") as [k Hk];
    [apply Hin; right; right; left|].
  assert (i < j)%nat as Hij.
  { apply (partialTopoSort_index _ _ _ sorted "orders" "customers" i j Hs); [|done..].
    exists (mkFK "orders" "customer_id" "customers" "id" false).
    split; [left|]. by vm_compute. }
  assert (j < k)%nat as Hjk.
  { apply (partialTopoSort_index _ _ _ sorted "order_items" "orders" j k Hs); [|done..].
    exists (mkFK "order_items" "order_id" "orders" "id" false).
    split; [right; left|]. by vm_compute. }
  pose proof (lookup_lt_Some _ _ _ Hk) as Hk3.
  assert (i = 0 ∧ j = 1 ∧ k = 2)%nat as (-> & -> & ->) by lia.
  destruct sorted as [|x [|y [|z [|]]]]; try done.
  injection Hi as ->. injection Hj as ->. injection Hk as ->. done.
Qed.

(** C9. The example of the specification: two relationships, both not
    null, from orders to customers and from order_items to orders; two
    rows requested from order_items; rows 10 and 11 refer to orders 100
    and 101, which both refer to customer 5.  For every order of visits
    the row sets are order_items = {10, 11}, orders = {100, 101},
    customers = {5}, and the tables are copied in the order customers,
    orders, order_items. *)
Theorem example_end_to_end o fuel reset :
  closure (3 + fuel) o Shop.prodDB Shop.allFks Shop.requested
    = Done expectedRowSets ∧
  ∃ w, SyncPartialData (3 + fuel) o Shop.prodDB Shop.dev Shop.allFks
         Shop.requested reset = (Done (), w) ∧
       logged w = [(1%nat, "customers"); (2%nat, "orders"); (2%nat, "order_items")].
Proof.
  assert (closure (3 + fuel) o Shop.prodDB Shop.allFks Shop.requested
          = Done expectedRowSets) as Hc.
  { unfold Shop.requested. rewrite closure_single.
    rewrite (closure_fuel_mono 3 (3 + fuel)); [by vm_compute|by vm_compute|lia]. }
  split; [exact Hc|].
  rewrite (SyncPartialData_steps _ _ _ _ _ _ _ _ _ Hc (Shop_order o)).
  destruct reset; eexists; split; vm_compute; reflexivity.
Qed.

(** C10. For a source database, a list of relationships and a request,
    a closure that returns row sets for one order of visits and dequeues
    returns the same row sets for every other order, and the tables
    needing copy are the same tables. *)
Theorem closure_same_for_every_order o1 o2 f1 f2 db allFks requestedTables rs :
  closure f1 o1 db allFks requestedTables = Done rs →
  (closureFuel db allFks requestedTables ≤ f2)%nat →
  closure f2 o2 db allFks requestedTables = Done rs ∧
  tablesNeedingCopy o2 rs ≡ₚ tablesNeedingCopy o1 rs.
Proof.
  intros Hc Hfuel. split; [by apply (closure_any_order db allFks requestedTables o1 o2 f1)|].
  apply NoDup_Permutation; [apply NoDup_tablesNeedingCopy..|].
  intros t. by rewrite !elem_of_tablesNeedingCopy.
Qed.

Lemma closure_same_for_every_order_witness :
  closure 3 in_order Shop.prodDB Shop.allFks Shop.requested = Done expectedRowSets ∧
  closure 17 backwards Shop.prodDB Shop.allFks Shop.requested = Done expectedRowSets ∧
  tablesNeedingCopy backwards expectedRowSets ≡ₚ tablesNeedingCopy in_order expectedRowSets.
Proof.
  assert (closure 3 in_order Shop.prodDB Shop.allFks Shop.requested
          = Done expectedRowSets) as Hc by (vm_compute; reflexivity).
  split; [exact Hc|].
  apply (closure_same_for_every_order in_order backwards 3 17 Shop.prodDB
           Shop.allFks Shop.requested expectedRowSets Hc).
  vm_compute. lia.
Defined.

(** * Further properties of the run *)

(** ** The copy step, for every outcome *)
Section copy_frame.
Context (prodDB : gmap string Table) (rs : gmap string (gset Z)).

Lemma fetchRowsByIDs_cases t ids :
  (∃ ptb, prodDB !! t = Some ptb ∧ ids ≠ ∅ ∧
          fetchRowsByIDs prodDB t ids =
          Done ((λ r, cell r <$> "id" :: columns ptb) <$>
                  filter (λ r, row_id r ∈ ids) (rows ptb), "id" :: columns ptb)) ∨
  (ids = ∅ ∧ fetchRowsByIDs prodDB t ids = Done ([], [])) ∨
  (prodDB !! t = None ∧ ids ≠ ∅ ∧ fetchRowsByIDs prodDB t ids = Failed (NoSuchTable t)).
Proof.
  unfold fetchRowsByIDs.
  destruct (bool_decide_reflect (size ids = 0%nat)) as [Hz|Hnz].
  { right. left. split; [|done]. by apply size_empty_iff, leibniz_equiv in Hz. }
  assert (ids ≠ ∅) as Hne by (intros ->; by rewrite size_empty in Hnz).
  destruct (prodDB !! t) as [ptb|]; [left; by exists ptb|right; right; done].
Qed.

Lemma insertRows_cases dev t cols data :
  insertRows dev t cols data = Done dev ∧ data = [] ∨
  insertRows dev t cols data = Panicked ∧ cols = [] ∧ data ≠ [] ∨
  (∃ e, insertRows dev t cols data = Failed e) ∨
  (∃ tb, dev !! t = Some tb ∧ data ≠ [] ∧
         insertRows dev t cols data =
         Done (<[t := mkDevTable (dev_columns tb)
                     (dev_rows tb ++ ((λ vals, list_to_map (zip cols vals)) <$> data))]> dev)).
Proof.
  unfold insertRows.
  destruct (bool_decide_reflect (length data = 0%nat)) as [Hz|Hnz].
  { left. split; [done|]. by destruct data. }
  assert (data ≠ []) as Hne by (by intros ->).
  destruct (bool_decide_reflect (length cols = 0%nat)) as [Hc|Hc].
  { right. left. split; [done|]. split; [by destruct cols|done]. }
  destruct (dev !! t) as [tb|]; [|right; right; left; eauto].
  destruct (list_find _ cols) as [[? c]|]; [right; right; left; eauto|].
  right. right. right. by exists tb.
Qed.

Lemma copyTable_frame reset w t r w' :
  copyTable prodDB reset rs w t = (r, w') →
  returns r ∧
  dom (devDB w') = dom (devDB w) ∧
  (∀ t', t' ≠ t → devDB w' !! t' = devDB w !! t') ∧
  (∀ tb, devDB w !! t = Some tb →
     ∃ tb', devDB w' !! t = Some tb' ∧ dev_columns tb' = dev_columns tb ∧
            (reset = false → dev_rows tb `prefix_of` dev_rows tb')).
Proof.
  unfold copyTable.
  destruct (bool_decide_reflect (size (rowsOf rs t) = 0%nat)) as [Hz|Hnz].
  { intros [= <- <-]. split_and!; [done..|]. intros tb Htb. by exists tb. }
  assert (rowsOf rs t ≠ ∅) as Hne by (intros Heq; by rewrite Heq, size_empty in Hnz).
  simpl.
  assert ((∃ dev2, (if reset then wrap (TruncateError t) (truncateTable (devDB w) t)
                   else Done (devDB w)) = Done dev2 ∧
            dom dev2 = dom (devDB w) ∧
            (∀ t', t' ≠ t → dev2 !! t' = devDB w !! t') ∧
            (∀ tb, devDB w !! t = Some tb →
               ∃ tb', dev2 !! t = Some tb' ∧ dev_columns tb' = dev_columns tb ∧
                      (reset = false → tb' = tb))) ∨
          ∃ e, (if reset then wrap (TruncateError t) (truncateTable (devDB w) t)
                else Done (devDB w)) = Failed e) as [(dev2 & -> & Hd2 & Ho2 & Ht2)|[e ->]].
  { destruct reset.
    - unfold truncateTable. destruct (devDB w !! t) as [tb|] eqn:Htb; simpl; [|eauto].
      left. eexists. split; [done|]. split_and!.
      + rewrite dom_insert_L. apply elem_of_dom_2 in Htb. set_solver.
      + intros t' Hne'. by rewrite lookup_insert_ne.
      + intros tb0 [= <-]. rewrite lookup_insert_eq. eexists. by split_and!.
    - left. exists (devDB w). split_and!; [done..|]. intros tb Htb. by exists tb. }
  2:{ intros [= <- <-]. simpl. split_and!; [done..|]. intros tb Htb. by exists tb. }
  destruct (fetchRowsByIDs_cases t (rowsOf rs t))
    as [(ptb & Hp & _ & ->)|[[? _]|(_ & _ & ->)]]; [|done|]; simpl.
  2:{ intros [= <- <-]. simpl. split_and!; [done..|].
      intros tb Htb. destruct (Ht2 tb Htb) as (tb' & ? & ? & Hr). exists tb'.
      split_and!; [done..|]. intros Hreset. by rewrite (Hr Hreset). }
  set (cols := "id" :: columns ptb). set (data := _ <$> filter _ _).
  destruct (insertRows_cases dev2 t cols data)
    as [[-> _]|[(_ & Hc & _)|[[e ->]|(tb2 & Htb2 & _ & ->)]]]; simpl; [|done| |].
  - intros [= <- <-]. simpl. split_and!; [done..|].
    intros tb Htb. destruct (Ht2 tb Htb) as (tb' & ? & ? & Hr). exists tb'.
    split_and!; [done..|]. intros Hreset. by rewrite (Hr Hreset).
  - intros [= <- <-]. simpl. split_and!; [done..|].
    intros tb Htb. destruct (Ht2 tb Htb) as (tb' & ? & ? & Hr). exists tb'.
    split_and!; [done..|]. intros Hreset. by rewrite (Hr Hreset).
  - intros [= <- <-]. simpl. split_and!; [done| | |].
    + rewrite dom_insert_L, Hd2. apply elem_of_dom_2 in Htb2. rewrite <- Hd2. set_solver.
    + intros t' Hne'. rewrite lookup_insert_ne by done. by apply Ho2.
    + intros tb Htb. destruct (Ht2 tb Htb) as (tb' & Htb' & Hcols & Hr).
      rewrite Htb2 in Htb'. injection Htb' as ->. rewrite lookup_insert_eq.
      eexists. split_and!; [done..|]. intros Hreset. simpl. rewrite (Hr Hreset).
      by apply prefix_app_r.
Qed.

Lemma copyAll_frame reset sorted : ∀ w r w',
  copyAll prodDB reset rs w sorted = (r, w') →
  returns r ∧
  dom (devDB w') = dom (devDB w) ∧
  (∀ t', t' ∉ sorted → devDB w' !! t' = devDB w !! t') ∧
  (∀ t', size (rowsOf rs t') = 0%nat → devDB w' !! t' = devDB w !! t') ∧
  (∀ t tb, devDB w !! t = Some tb →
     ∃ tb', devDB w' !! t = Some tb' ∧ dev_columns tb' = dev_columns tb ∧
            (reset = false → dev_rows tb `prefix_of` dev_rows tb')).
Proof.
  induction sorted as [|t0 sorted IH]; intros w r w' Hcopy; simpl in Hcopy.
  { injection Hcopy as <- <-. split_and!; [done..|]. intros t tb Htb. by exists tb. }
  destruct (copyTable prodDB reset rs w t0) as [r1 w1] eqn:Hstep.
  pose proof (copyTable_frame _ _ _ _ _ Hstep) as (Hr1 & Hd1 & Ho1 & Ht1).
  assert (∀ t', size (rowsOf rs t') = 0%nat → devDB w1 !! t' = devDB w !! t') as Hz1.
  { intros t' Hz. destruct (decide (t' = t0)) as [->|Hne]; [|by apply Ho1].
    rewrite (copyTable_skip prodDB rs reset w t0 Hz) in Hstep. by injection Hstep as _ <-. }
  assert (∀ t tb, devDB w !! t = Some tb →
     ∃ tb', devDB w1 !! t = Some tb' ∧ dev_columns tb' = dev_columns tb ∧
            (reset = false → dev_rows tb `prefix_of` dev_rows tb')) as Hk1.
  { intros t tb Htb. destruct (decide (t = t0)) as [->|Hne]; [by apply Ht1|].
    exists tb. by rewrite (Ho1 t Hne). }
  destruct r1 as [[]| | |].
  - apply IH in Hcopy as (Hr & Hd & Ho & Hz & Hk). split_and!; [done|congruence| | |].
    + intros t' [Hne Hnot]%not_elem_of_cons. rewrite (Ho t' Hnot). by apply Ho1.
    + intros t' Hzero. rewrite (Hz t' Hzero). by apply Hz1.
    + intros t tb Htb. destruct (Hk1 t tb Htb) as (tb1 & Htb1 & Hc1 & Hp1).
      destruct (Hk t tb1 Htb1) as (tb' & Htb' & Hc' & Hp').
      exists tb'. split_and!; [done|congruence|].
      intros Hreset. etrans; [by apply Hp1|by apply Hp'].
  - injection Hcopy as <- <-. split_and!; [done..| | |done].
    + intros t' [Hne _]%not_elem_of_cons. by apply Ho1.
    + done.
  - injection Hcopy as <- <-. split_and!; [done..| | |done].
    + intros t' [Hne _]%not_elem_of_cons. by apply Ho1.
    + done.
  - injection Hcopy as <- <-. split_and!; [done..| | |done].
    + intros t' [Hne _]%not_elem_of_cons. by apply Ho1.
    + done.
Qed.

End copy_frame.

(** ** The run, case by case *)
Lemma closure_no_panic fuel o db allFks requestedTables :
  closure fuel o db allFks requestedTables ≠ Panicked.
Proof.
  unfold closure.
  pose proof (closureRun_no_panic o db allFks requestedTables fuel) as Hp.
  by destruct (closureRun fuel o db allFks requestedTables).
Qed.

Lemma SyncPartialData_cases fuel o prodDB dev allFks requestedTables reset :
  (∃ rs sorted,
     closure fuel o prodDB allFks requestedTables = Done rs ∧
     partialTopoSort (shift 4 o) allFks (tablesNeedingCopy o rs) = Done sorted ∧
     SyncPartialData fuel o prodDB dev allFks requestedTables reset =
     copyAll prodDB reset rs (mkWorld dev []) sorted) ∨
  (∃ rs,
     closure fuel o prodDB allFks requestedTables = Done rs ∧
     partialTopoSort (shift 4 o) allFks (tablesNeedingCopy o rs) = Failed CycleOrMissing ∧
     SyncPartialData fuel o prodDB dev allFks requestedTables reset =
     (Failed (TopoSortError CycleOrMissing), mkWorld dev [])) ∨
  (∃ e,
     closure fuel o prodDB allFks requestedTables = Failed e ∧
     SyncPartialData fuel o prodDB dev allFks requestedTables reset =
     (Failed e, mkWorld dev [])) ∨
  (closure fuel o prodDB allFks requestedTables = OutOfFuel ∧
   SyncPartialData fuel o prodDB dev allFks requestedTables reset =
   (OutOfFuel, mkWorld dev [])).
Proof.
  unfold SyncPartialData.
  pose proof (closure_no_panic fuel o prodDB allFks requestedTables) as Hp.
  destruct (closure fuel o prodDB allFks requestedTables) as [rs|e| |]; [| |done|].
  - destruct (partialTopoSort_cases (shift 4 o) allFks (tablesNeedingCopy o rs))
      as [Hf|[sorted Hs]].
    + right. left. exists rs. by rewrite Hf.
    + left. exists rs, sorted. by rewrite Hs.
  - right. right. left. by exists e.
  - right. right. right. done.
Qed.

Lemma sorted_needing_copy o allFks rs sorted :
  partialTopoSort (shift 4 o) allFks (tablesNeedingCopy o rs) = Done sorted →
  NoDup sorted ∧ ∀ t, t ∈ sorted ↔ size (rowsOf rs t) ≠ 0%nat.
Proof.
  intros Hs. apply partialTopoSort_Done in Hs as (Hnd & Hperm & _).
  split; [done|]. intros t. by rewrite Hperm, elem_of_tablesNeedingCopy.
Qed.

(** X1. However [SyncPartialData] ends, the destination holds the same
    tables as before and every table keeps its columns; a table whose
    content differs from before is a table for which the closure holds
    rows. *)
Theorem other_tables_untouched fuel o prodDB dev allFks requestedTables reset r w :
  SyncPartialData fuel o prodDB dev allFks requestedTables reset = (r, w) →
  dom (devDB w) = dom dev ∧
  (∀ t tb, dev !! t = Some tb →
     ∃ tb', devDB w !! t = Some tb' ∧ dev_columns tb' = dev_columns tb) ∧
  (∀ t, devDB w !! t ≠ dev !! t →
     ∃ rs, closure fuel o prodDB allFks requestedTables = Done rs ∧ rowsOf rs t ≠ ∅).
Proof.
  intros Hrun.
  destruct (SyncPartialData_cases fuel o prodDB dev allFks requestedTables reset)
    as [(rs & sorted & Hc & Hs & Heq)|[(rs & _ & _ & Heq)|[(e & _ & Heq)|[_ Heq]]]];
    rewrite Heq in Hrun.
  2,3,4: injection Hrun as <- <-; simpl; split_and!; [done| |done];
         intros t tb Htb; by exists tb.
  apply copyAll_frame in Hrun as (_ & Hd & _ & Hz & Hk). simpl in *.
  split_and!; [done| |].
  - intros t tb Htb. destruct (Hk t tb Htb) as (tb' & ? & ? & _). by exists tb'.
  - intros t Hne. exists rs. split; [done|]. intros Hempty. apply Hne, Hz.
    by rewrite Hempty, size_empty.
Qed.

(** X2. Without [resetTables] no row of the destination is removed:
    however the run ends, a table of the destination is still there with
    its columns, and the rows it held are the first of the rows it holds. *)
Theorem rows_kept_without_reset fuel o prodDB dev allFks requestedTables r w t tb :
  SyncPartialData fuel o prodDB dev allFks requestedTables false = (r, w) →
  dev !! t = Some tb →
  ∃ tb', devDB w !! t = Some tb' ∧ dev_columns tb' = dev_columns tb ∧
         dev_rows tb `prefix_of` dev_rows tb'.
Proof.
  intros Hrun Htb.
  destruct (SyncPartialData_cases fuel o prodDB dev allFks requestedTables false)
    as [(rs & sorted & Hc & Hs & Heq)|[(rs & _ & _ & Heq)|[(e & _ & Heq)|[_ Heq]]]];
    rewrite Heq in Hrun.
  2,3,4: injection Hrun as <- <-; simpl; by exists tb.
  apply copyAll_frame in Hrun as (_ & _ & _ & _ & Hk). simpl in *.
  destruct (Hk t tb Htb) as (tb' & ? & ? & Hp). exists tb'. split_and!; [done..|].
  by apply Hp.
Qed.

(** X3. [SyncPartialData] never panics (no assignment to a nil row set,
    no negative count for [strings.Repeat]), and it ends, with a result or
    with an error, as soon as the closure loop is given [closureFuel]
    iterations. *)
Theorem run_always_returns o prodDB dev allFks requestedTables reset :
  (∀ fuel, (SyncPartialData fuel o prodDB dev allFks requestedTables reset).1 ≠ Panicked) ∧
  (∀ fuel, (closureFuel prodDB allFks requestedTables ≤ fuel)%nat →
     returns (SyncPartialData fuel o prodDB dev allFks requestedTables reset).1).
Proof.
  assert (∀ fuel,
    (SyncPartialData fuel o prodDB dev allFks requestedTables reset).1 = OutOfFuel ∧
    closure fuel o prodDB allFks requestedTables = OutOfFuel ∨
    returns (SyncPartialData fuel o prodDB dev allFks requestedTables reset).1) as Hcases.
  { intros fuel.
    destruct (SyncPartialData_cases fuel o prodDB dev allFks requestedTables reset)
      as [(rs & sorted & Hc & Hs & Heq)|[(rs & _ & _ & Heq)|[(e & _ & Heq)|[Hc Heq]]]];
      rewrite Heq; [|by right..|by left].
    right. destruct (copyAll prodDB reset rs (mkWorld dev []) sorted) as [r w] eqn:Hcopy.
    by apply copyAll_frame in Hcopy as [? _]. }
  split; intros fuel.
  - destruct (Hcases fuel) as [[-> _]|Hr]; [done|].
    by destruct (SyncPartialData fuel o prodDB dev allFks requestedTables reset).1.
  - intros Hfuel. destruct (Hcases fuel) as [[_ Hc]|Hr]; [|done].
    pose proof (closure_returns fuel o prodDB allFks requestedTables Hfuel) as Hret.
    by rewrite Hc in Hret.
Qed.

Lemma run_always_returns_witness :
  (closureFuel Shop.prodDB Shop.allFks Shop.requested ≤ 17)%nat ∧
  returns (SyncPartialData 17 backwards Shop.prodDB Shop.dev Shop.allFks
             Shop.requested false).1.
Proof.
  assert (closureFuel Shop.prodDB Shop.allFks Shop.requested ≤ 17)%nat as Hfuel
    by (vm_compute; lia).
  split; [exact Hfuel|].
  exact (proj2 (run_always_returns backwards Shop.prodDB Shop.dev Shop.allFks
                  Shop.requested false) 17%nat Hfuel).
Defined.

(** ** A request for no rows *)
Section no_rows.
Context (db : gmap string Table) (allFks : list ForeignKey).



End no_rows.




(** ** A seed query that fails *)



(** ** What the run logs *)
Section copy_log.
Context (prodDB : gmap string Table) (rs : gmap string (gset Z)).

Lemma copyTable_logged reset w t r w' :
  copyTable prodDB reset rs w t = (r, w') →
  logged w' = logged w ++
    (if bool_decide (size (rowsOf rs t) = 0%nat) then [] else [(size (rowsOf rs t), t)]).
Proof.
  unfold copyTable.
  destruct (bool_decide (size (rowsOf rs t) = 0%nat)).
  { intros [= <- <-]. by rewrite app_nil_r. }
  simpl. destruct (if reset then _ else _) as [dev2|e| |]; simpl.
  2,3,4: by intros [= <- <-].
  destruct (fetchRowsByIDs prodDB t (rowsOf rs t)) as [data|e| |]; simpl.
  2,3,4: by intros [= <- <-].
  destruct (insertRows dev2 t data.2 data.1) as [dev3|e| |]; simpl; by intros [= <- <-].
Qed.

Lemma copyAll_logged reset sorted : ∀ w w',
  (∀ t, t ∈ sorted → size (rowsOf rs t) ≠ 0%nat) →
  copyAll prodDB reset rs w sorted = (Done (), w') →
  logged w' = logged w ++ ((λ t, (size (rowsOf rs t), t)) <$> sorted).
Proof.
  induction sorted as [|t0 sorted IH]; intros w w' Hnz Hcopy; simpl in Hcopy.
  { injection Hcopy as <-. by rewrite app_nil_r. }
  destruct (copyTable prodDB reset rs w t0) as [[[]| | |] w1] eqn:Hstep; try done.
  apply copyTable_logged in Hstep.
  rewrite bool_decide_eq_false_2 in Hstep by (apply Hnz; left).
  apply IH in Hcopy; [|intros t Ht; apply Hnz; by right].
  rewrite Hcopy, Hstep. simpl. by rewrite <- (assoc_L (++)).
Qed.

End copy_log.

(** X6. After a successful run the log holds one line for every table
    with a non-empty row set and no other line, no table twice; a line
    gives the number of ids of the row set; and the parent of a
    relationship that is neither nullable nor self-referencing is logged,
    so copied, before the child. *)
Theorem log_lists_copied_tables fuel o prodDB dev allFks requestedTables reset w :
  SyncPartialData fuel o prodDB dev allFks requestedTables reset = (Done (), w) →
  ∃ rs, closure fuel o prodDB allFks requestedTables = Done rs ∧
    NoDup (logged w).*2 ∧
    (∀ t, t ∈ (logged w).*2 ↔ rowsOf rs t ≠ ∅) ∧
    (∀ n t, (n, t) ∈ logged w → n = size (rowsOf rs t)) ∧
    (∀ fk i j, fk ∈ allFks → IsNullable fk = false → FromTable fk ≠ ToTable fk →
       (logged w).*2 !! i = Some (ToTable fk) → (logged w).*2 !! j = Some (FromTable fk) →
       (i < j)%nat).
Proof.
  intros Hrun. apply SyncPartialData_Done in Hrun as (rs & sorted & Hc & Hs & Hcopy).
  exists rs. split; [done|].
  destruct (sorted_needing_copy o allFks rs sorted Hs) as [Hnd Hin].
  apply copyAll_logged in Hcopy; [|intros t Ht; by apply Hin].
  simpl in Hcopy.
  assert ((logged w).*2 = sorted) as Hnames.
  { rewrite Hcopy, <- list_fmap_compose. apply list_fmap_id. }
  rewrite Hnames. split_and!; [done| | |].
  - intros t. rewrite Hin. split.
    + intros Hnz Heq. by rewrite Heq, size_empty in Hnz.
    + intros Hne Hz. by apply Hne, leibniz_equiv, size_empty_iff.
  - intros n t. rewrite Hcopy. intros (t' & [= -> ->] & _)%list_elem_of_fmap. done.
  - intros fk i j Hfk Hnull Hself Hi Hj.
    apply (partialTopoSort_index (shift 4 o) allFks (tablesNeedingCopy o rs) sorted
             (FromTable fk) (ToTable fk)); [done| |done..].
    exists fk. split; [done|]. split; [by apply hard_spec|done].
Qed.

Lemma log_lists_copied_tables_witness :
  ∃ w rs,
    SyncPartialData 17 backwards Shop.prodDB Shop.dev Shop.allFks Shop.requested false
      = (Done (), w) ∧
    closure 17 backwards Shop.prodDB Shop.allFks Shop.requested = Done rs ∧
    NoDup (logged w).*2 ∧
    ∀ n t, (n, t) ∈ logged w → n = size (rowsOf rs t).
Proof.
  assert (∃ w, SyncPartialData 17 backwards Shop.prodDB Shop.dev Shop.allFks
                 Shop.requested false = (Done (), w)) as [w Hw].
  { eexists. vm_compute. reflexivity. }
  destruct (log_lists_copied_tables 17 backwards Shop.prodDB Shop.dev Shop.allFks
              Shop.requested false w Hw) as (rs & Hc & Hnd & _ & Hn & _).
  exists w, rs. split; [exact Hw|]. split; [exact Hc|]. split; [exact Hnd|exact Hn].
Defined.

(** ** The rows a run with [resetTables] leaves in the destination *)

Lemma storedRow_lookup cols r c :
  storedRow cols r !! c = if decide (c ∈ cols) then Some (cell r c) else None.
Proof.
  unfold storedRow. induction cols as [|a cols IH]; csimpl.
  { rewrite lookup_empty. destruct (decide (c ∈ [])) as [Hin|]; [|done].
    by apply elem_of_nil in Hin. }
  destruct (decide (a = c)) as [->|Hne].
  - rewrite lookup_insert_eq. rewrite decide_True; [done|left].
  - rewrite lookup_insert_ne by done. rewrite IH.
    destruct (decide (c ∈ cols)) as [Hin|Hin].
    + rewrite decide_True; [done|by right].
    + rewrite decide_False; [done|]. intros [?|?]%elem_of_cons; [congruence|done].
Qed.

Lemma copiedRows_eq prodDB rs t ptb :
  prodDB !! t = Some ptb → rowsOf rs t ≠ ∅ →
  copiedRows prodDB rs t =
  storedRow ("id" :: columns ptb) <$> filter (λ r, row_id r ∈ rowsOf rs t) (rows ptb).
Proof.
  intros Hp Hne. unfold copiedRows.
  destruct (fetchRowsByIDs_cases prodDB t (rowsOf rs t))
    as [(ptb' & Hp' & _ & ->)|[[? _]|(Hnone & _)]]; [|done|congruence].
  rewrite Hp in Hp'. injection Hp' as <-. simpl.
  by rewrite <- list_fmap_compose.
Qed.

Lemma copyTable_Done_source prodDB reset rs w t w' :
  rowsOf rs t ≠ ∅ → copyTable prodDB reset rs w t = (Done (), w') →
  is_Some (prodDB !! t).
Proof.
  intros Hne. unfold copyTable.
  rewrite bool_decide_eq_false_2.
  2:{ intros Hz. by apply Hne, leibniz_equiv, size_empty_iff. }
  simpl. destruct (if reset then _ else _) as [dev2|e| |]; simpl; [|done..].
  destruct (fetchRowsByIDs_cases prodDB t (rowsOf rs t))
    as [(ptb & Hp & _ & _)|[[? _]|(_ & _ & ->)]]; [by rewrite Hp|done|done].
Qed.

Lemma reset_run_contents fuel o prodDB dev allFks requestedTables w :
  SyncPartialData fuel o prodDB dev allFks requestedTables true = (Done (), w) →
  ∃ rs, closure fuel o prodDB allFks requestedTables = Done rs ∧
    (∀ t, t ∈ (logged w).*2 ↔ rowsOf rs t ≠ ∅) ∧
    (∀ t, rowsOf rs t ≠ ∅ →
       ∃ ptb tb, prodDB !! t = Some ptb ∧ devDB w !! t = Some tb ∧
         dev_rows tb =
         storedRow ("id" :: columns ptb) <$>
           filter (λ r, row_id r ∈ rowsOf rs t) (rows ptb)).
Proof.
  intros Hrun. apply SyncPartialData_Done in Hrun as (rs & sorted & Hc & Hs & Hcopy).
  exists rs. split; [done|].
  destruct (sorted_needing_copy o allFks rs sorted Hs) as [Hnd Hin].
  assert (∀ t, t ∈ sorted ↔ rowsOf rs t ≠ ∅) as Hin'.
  { intros t. rewrite Hin. split.
    - intros Hnz Heq. by rewrite Heq, size_empty in Hnz.
    - intros Hne Hz. by apply Hne, leibniz_equiv, size_empty_iff. }
  assert (∀ t, t ∈ sorted → size (rowsOf rs t) ≠ 0%nat) as Hnz by (intros t; apply Hin).
  split.
  - pose proof (copyAll_logged prodDB rs true sorted _ _ Hnz Hcopy) as Hlog.
    simpl in Hlog. intros t. rewrite <- Hin'.
    assert ((logged w).*2 = sorted) as ->; [|done].
    rewrite Hlog, <- list_fmap_compose. apply list_fmap_id.
  - intros t Hne.
    destruct (copyAll_reset_steps prodDB rs sorted _ _ Hnz Hcopy t)
      as (w0 & w0' & tb0 & _ & Hstep & Hres); [by apply Hin'|].
    destruct (copyTable_Done_source _ _ _ _ _ _ Hne Hstep) as [ptb Hp].
    exists ptb, (copyResult prodDB rs t tb0). split_and!; [done..|].
    simpl. by apply copiedRows_eq.
Qed.

(** X7. With [resetTables], after a successful run a table with a
    non-empty row set holds exactly the source rows whose id is in the row
    set, in the order of the source, and a stored row gives for every
    column of the source table, id included, the cell of the source row. *)
Theorem copied_rows_exact fuel o prodDB dev allFks requestedTables w :
  SyncPartialData fuel o prodDB dev allFks requestedTables true = (Done (), w) →
  ∃ rs, closure fuel o prodDB allFks requestedTables = Done rs ∧
    ∀ t, rowsOf rs t ≠ ∅ →
      ∃ ptb tb, prodDB !! t = Some ptb ∧ devDB w !! t = Some tb ∧
        dev_rows tb =
        storedRow ("id" :: columns ptb) <$>
          filter (λ r, row_id r ∈ rowsOf rs t) (rows ptb) ∧
        ∀ r c, storedRow ("id" :: columns ptb) r !! c =
               if decide (c = "id" ∨ c ∈ columns ptb) then Some (cell r c) else None.
Proof.
  intros Hrun. apply reset_run_contents in Hrun as (rs & Hc & _ & Hrows).
  exists rs. split; [done|]. intros t Hne.
  destruct (Hrows t Hne) as (ptb & tb & Hp & Htb & Heq).
  exists ptb, tb. split_and!; [done..|].
  intros r c. rewrite storedRow_lookup.
  destruct (decide (c ∈ "id" :: columns ptb)) as [Hin|Hin].
  - rewrite decide_True; [done|]. by apply elem_of_cons in Hin.
  - rewrite decide_False; [done|]. intros Hor. by apply Hin, elem_of_cons.
Qed.

Lemma copied_rows_exact_witness :
  ∃ w rs,
    SyncPartialData 17 in_order Shop.prodDB Shop.dev Shop.allFks Shop.requested true
      = (Done (), w) ∧
    closure 17 in_order Shop.prodDB Shop.allFks Shop.requested = Done rs ∧
    ∀ t, rowsOf rs t ≠ ∅ →
      ∃ ptb tb, Shop.prodDB !! t = Some ptb ∧ devDB w !! t = Some tb ∧
        dev_rows tb =
        storedRow ("id" :: columns ptb) <$>
          filter (λ r, row_id r ∈ rowsOf rs t) (rows ptb).
Proof.
  assert (∃ w, SyncPartialData 17 in_order Shop.prodDB Shop.dev Shop.allFks
                 Shop.requested true = (Done (), w)) as [w Hw].
  { eexists. vm_compute. reflexivity. }
  destruct (copied_rows_exact 17 in_order Shop.prodDB Shop.dev Shop.allFks
              Shop.requested w Hw) as (rs & Hc & Hrows).
  exists w, rs. split; [exact Hw|]. split; [exact Hc|].
  intros t Hne. destruct (Hrows t Hne) as (ptb & tb & Hp & Htb & Heq & _).
  exists ptb, tb. split; [exact Hp|]. split; [exact Htb|exact Heq].
Defined.

(** X8. With [resetTables], after a successful run: when a row of a
    copied child table holds the id [j] in the column of a relationship
    that is neither nullable nor self-referencing, and the source has a
    row [j] in the parent table, then the destination has a row with id
    [j] in the parent table. *)
Theorem copy_is_referentially_closed fuel o prodDB dev allFks requestedTables w
    fk ctb m j :
  SyncPartialData fuel o prodDB dev allFks requestedTables true = (Done (), w) →
  fk ∈ allFks → IsNullable fk = false → FromTable fk ≠ ToTable fk →
  FromTable fk ∈ (logged w).*2 →
  devDB w !! FromTable fk = Some ctb → m ∈ dev_rows ctb →
  m !! FromColumn fk = Some (VInt j) →
  (∃ ptb r, prodDB !! ToTable fk = Some ptb ∧ r ∈ rows ptb ∧ row_id r = j) →
  ∃ ptb' m', devDB w !! ToTable fk = Some ptb' ∧ m' ∈ dev_rows ptb' ∧
             m' !! "id" = Some (VInt j).
Proof.
  intros Hrun Hfk Hnull Hself Hlogged Hctb Hm Hcell (ptb & r' & Hp & Hr' & Hid).
  apply reset_run_contents in Hrun as (rs & Hc & Hlog & Hrows).
  apply Hlog in Hlogged.
  destruct (Hrows _ Hlogged) as (cptb & ctb' & Hcp & Hctb' & Hcrows).
  rewrite Hctb in Hctb'. injection Hctb' as <-.
  rewrite Hcrows in Hm. apply list_elem_of_fmap in Hm as (r & -> & Hr).
  apply list_elem_of_filter in Hr as [Hrid Hr].
  rewrite storedRow_lookup in Hcell.
  destruct (decide (FromColumn fk ∈ "id" :: columns cptb)); [|done].
  injection Hcell as Hcell.
  apply closure_Done in Hc as [_ Hreach].
  assert (j ∈ rowsOf rs (ToTable fk)) as Hj.
  { apply Hreach. apply (reach_step _ _ _ _ (FromTable fk) (row_id r)); [by apply Hreach|].
    exists fk, cptb, r. split_and!; [done| |done..]. by apply hard_spec. }
  destruct (Hrows (ToTable fk)) as (ptb0 & ptb' & Hp0 & Hptb' & Hprows); [set_solver|].
  rewrite Hp in Hp0. injection Hp0 as <-.
  exists ptb', (storedRow ("id" :: columns ptb) r'). split_and!; [done| |].
  - rewrite Hprows. apply list_elem_of_fmap. exists r'. split; [done|].
    apply list_elem_of_filter. split; [by rewrite Hid|done].
  - rewrite storedRow_lookup. rewrite decide_True by left.
    unfold cell. rewrite bool_decide_eq_true_2 by done. by rewrite Hid.
Qed.

Lemma copy_is_referentially_closed_witness :
  ∃ ptb' m',
    devDB (SyncPartialData 17 in_order Shop.prodDB Shop.dev Shop.allFks
             Shop.requested true).2 !! "customers" = Some ptb' ∧
    m' ∈ dev_rows ptb' ∧ m' !! "id" = Some (VInt 5).
Proof.
  apply (copy_is_referentially_closed 17 in_order Shop.prodDB Shop.dev Shop.allFks
           Shop.requested _ (mkFK "orders" "customer_id" "customers" "id" false)
           (mkDevTable ["id"; "customer_id"]
              [storedRow ["id"; "customer_id"] (mkRow 100 {[ "customer_id" := VInt 5 ]});
               storedRow ["id"; "customer_id"] (mkRow 101 {[ "customer_id" := VInt 5 ]})])
           (storedRow ["id"; "customer_id"] (mkRow 100 {[ "customer_id" := VInt 5 ]})) 5).
  - vm_compute. reflexivity.
  - left.
  - reflexivity.
  - vm_compute. discriminate.
  - vm_compute. right. left.
  - vm_compute. reflexivity.
  - left.
  - vm_compute. reflexivity.
  - exists (mkTable ["name"] [ mkRow 5 {[ "name" := VOther ]} ]),
      (mkRow 5 {[ "name" := VOther ]}).
    split; [vm_compute; reflexivity|]. split; [left|reflexivity].
Defined.

(** ** The order of the copy *)
Section copy_order.
Context (prodDB : gmap string Table) (rs : gmap string (gset Z)).

Lemma copyAll_reset_from sorted : ∀ w,
  NoDup sorted →
  (∀ t, t ∈ sorted → size (rowsOf rs t) ≠ 0%nat ∧
     ∃ w0 w0' tb0 tb, devDB w0 !! t = Some tb0 ∧
                      copyTable prodDB true rs w0 t = (Done (), w0') ∧
                      devDB w !! t = Some tb ∧ dev_columns tb = dev_columns tb0) →
  ∃ w', copyAll prodDB true rs w sorted = (Done (), w') ∧
        ∀ t, devDB w' !! t =
             if decide (t ∈ sorted) then copyResult prodDB rs t <$> devDB w !! t
             else devDB w !! t.
Proof.
  induction sorted as [|t0 sorted IH]; intros w Hnd Hok; simpl.
  { exists w. by split. }
  apply NoDup_cons in Hnd as [Hnot Hnd].
  destruct (Hok t0) as (Hnz & w0 & w0' & tb0 & tb & Htb0 & Hstep0 & Htb & Hcols); [left|].
  rewrite (copyTable_reset_again prodDB rs w0 w0' w t0 tb0 tb Hnz Htb0 Hstep0 Htb Hcols).
  destruct (IH (mkWorld (<[t0 := copyResult prodDB rs t0 tb]> (devDB w))
                  (logged w ++ [(size (rowsOf rs t0), t0)])) Hnd) as (w' & Hcopy & Hdev).
  { intros t Ht. destruct (Hok t) as (Hnz' & w1 & w1' & tb1 & tb' & ? & ? & Htb' & ?);
      [by right|].
    split; [done|]. exists w1, w1', tb1, tb'. split_and!; [done..| |done].
    simpl. rewrite lookup_insert_ne; [done|]. intros ->. done. }
  exists w'. split; [done|]. intros t. rewrite Hdev. simpl.
  destruct (decide (t = t0)) as [->|Hne].
  - rewrite decide_False by done. rewrite decide_True by left.
    by rewrite lookup_insert_eq, Htb.
  - rewrite lookup_insert_ne by done.
    destruct (decide (t ∈ sorted)) as [Hin|Hin].
    + by rewrite decide_True by (by right).
    + rewrite decide_False; [done|]. by intros [?|?]%elem_of_cons.
Qed.

End copy_order.

(** X9. With [resetTables], when a run succeeds for one order of visits
    of the Go maps, the run succeeds for every other order and leaves the
    same destination. *)
Theorem run_same_for_every_order f1 f2 o1 o2 prodDB dev allFks requestedTables w1 :
  SyncPartialData f1 o1 prodDB dev allFks requestedTables true = (Done (), w1) →
  (closureFuel prodDB allFks requestedTables ≤ f2)%nat →
  ∃ w2, SyncPartialData f2 o2 prodDB dev allFks requestedTables true = (Done (), w2) ∧
        devDB w2 = devDB w1.
Proof.
  intros Hrun1 Hfuel.
  apply SyncPartialData_Done in Hrun1 as (rs & sorted1 & Hc1 & Ht1 & Hcopy1).
  pose proof (closure_any_order prodDB allFks requestedTables o1 o2 f1 f2 rs Hc1 Hfuel)
    as Hc2.
  destruct (partialTopoSort_Done _ _ _ _ Ht1) as (Hnd1 & Hperm1 & _ & Hsort1).
  assert (∀ x, x ∈ tablesNeedingCopy o1 rs ↔ x ∈ tablesNeedingCopy o2 rs) as Hsame.
  { intros x. by rewrite !elem_of_tablesNeedingCopy. }
  destruct (partialTopoSort_succeeds (shift 4 o2) allFks (tablesNeedingCopy o2 rs))
    as [sorted2 Ht2].
  { apply NoDup_tablesNeedingCopy. }
  { intros t Ht. apply (sortable_ext allFks (tablesNeedingCopy o1 rs)); [done|].
    apply Hsort1. by apply Hsame. }
  destruct (partialTopoSort_Done _ _ _ _ Ht2) as (Hnd2 & Hperm2 & _).
  assert (∀ t, t ∈ sorted1 → size (rowsOf rs t) ≠ 0%nat) as Hnz1.
  { intros t Ht. apply (elem_of_tablesNeedingCopy o1). by rewrite <- Hperm1. }
  assert (∀ t, t ∈ sorted2 ↔ t ∈ sorted1) as Hsorted.
  { intros t. by rewrite Hperm1, Hperm2. }
  pose proof (copyAll_reset_Done prodDB rs sorted1 _ _ Hnz1 Hcopy1) as (Hout1 & Hin1 & _).
  simpl in Hout1, Hin1.
  destruct (copyAll_reset_from prodDB rs sorted2 (mkWorld dev []) Hnd2)
    as (w2 & Hcopy2 & Hdev2).
  { intros t Ht. apply Hsorted in Ht. split; [by apply Hnz1|].
    destruct (copyAll_reset_steps prodDB rs sorted1 _ w1 Hnz1 Hcopy1 t Ht)
      as (w0 & w0' & tb0 & Htb0 & Hstep0 & Hres0).
    destruct (Hin1 t Ht) as (tb & Htb & Hres). rewrite Hres in Hres0.
    exists w0, w0', tb0, tb. split_and!; [done..|]. by injection Hres0. }
  exists w2. split.
  { by rewrite (SyncPartialData_steps f2 o2 prodDB dev allFks requestedTables true
                  rs sorted2). }
  apply map_eq. intros t. rewrite Hdev2. simpl.
  destruct (decide (t ∈ sorted2)) as [Hin|Hin].
  - apply Hsorted in Hin. destruct (Hin1 t Hin) as (tb & -> & ->). done.
  - rewrite Hout1; [done|]. by rewrite <- Hsorted.
Qed.

Lemma run_same_for_every_order_witness :
  ∃ w1 w2,
    SyncPartialData 17 in_order Shop.prodDB Shop.dev Shop.allFks Shop.requested true
      = (Done (), w1) ∧
    SyncPartialData 17 backwards Shop.prodDB Shop.dev Shop.allFks Shop.requested true
      = (Done (), w2) ∧
    devDB w2 = devDB w1.
Proof.
  assert (∃ w1, SyncPartialData 17 in_order Shop.prodDB Shop.dev Shop.allFks
                  Shop.requested true = (Done (), w1)) as [w1 H1].
  { eexists. vm_compute. reflexivity. }
  destruct (run_same_for_every_order 17 17 in_order backwards Shop.prodDB Shop.dev
              Shop.allFks Shop.requested w1 H1) as (w2 & H2 & Hdev).
  { vm_compute. lia. }
  exists w1, w2. split; [exact H1|]. split; [exact H2|exact Hdev].
Defined.

(** ** The number of rows a log line announces *)

Lemma length_filter_ids (ids : gset Z) (l : list Row) :
  NoDup (row_id <$> l) →
  length (filter (λ r, row_id r ∈ ids) l) = size (ids ∩ list_to_set (row_id <$> l)).
Proof.
  induction l as [|r l IH]; csimpl; intros Hnd.
  { by rewrite (right_absorb_L ∅ (∩)), size_empty. }
  apply NoDup_cons in Hnd as [Hnot Hnd].
  destruct (decide (row_id r ∈ ids)) as [Hin|Hin].
  - rewrite filter_cons_True by done. simpl. rewrite IH by done.
    assert (ids ∩ ({[row_id r]} ∪ list_to_set (row_id <$> l)) =
            {[row_id r]} ∪ ids ∩ list_to_set (row_id <$> l)) as -> by set_solver.
    rewrite (size_union (H6 := gset_fin_set)), size_singleton; [done|].
    apply disjoint_singleton_l. rewrite elem_of_intersection, elem_of_list_to_set. tauto.
  - rewrite filter_cons_False by done. rewrite IH by done. f_equal. set_solver.
Qed.

Lemma log_entries_sized fuel o prodDB dev allFks requestedTables reset w rs :
  SyncPartialData fuel o prodDB dev allFks requestedTables reset = (Done (), w) →
  closure fuel o prodDB allFks requestedTables = Done rs →
  ∀ n t, (n, t) ∈ logged w → n = size (rowsOf rs t).
Proof.
  intros Hrun Hc. apply SyncPartialData_Done in Hrun as (rs' & sorted & Hc' & Hs & Hcopy).
  rewrite Hc in Hc'. injection Hc' as <-.
  destruct (sorted_needing_copy o allFks rs sorted Hs) as [_ Hin].
  apply copyAll_logged in Hcopy; [|intros t Ht; by apply Hin]. simpl in Hcopy.
  intros n t. rewrite Hcopy. by intros (t' & [= -> ->] & _)%list_elem_of_fmap.
Qed.

(** X24. With [resetTables], after a successful run, for a copied table
    whose source rows have distinct ids: the number announced by the log
    line, the number of ids of the row set, is at least the number of rows
    the table holds, and it is that number exactly when every id of the
    row set is the id of a source row. *)
Theorem log_counts_ids fuel o prodDB dev allFks requestedTables w rs t n ptb tb :
  SyncPartialData fuel o prodDB dev allFks requestedTables true = (Done (), w) →
  closure fuel o prodDB allFks requestedTables = Done rs →
  (n, t) ∈ logged w → prodDB !! t = Some ptb → NoDup (row_id <$> rows ptb) →
  devDB w !! t = Some tb →
  (length (dev_rows tb) ≤ n)%nat ∧
  (length (dev_rows tb) = n ↔
   ∀ i, i ∈ rowsOf rs t → ∃ r, r ∈ rows ptb ∧ row_id r = i).
Proof.
  intros Hrun Hc Hlogged Hp Hnd Htb.
  pose proof (log_entries_sized fuel o prodDB dev allFks requestedTables true w rs Hrun Hc)
    as Hsized.
  apply reset_run_contents in Hrun as (rs' & Hc' & Hlog & Hrows).
  rewrite Hc in Hc'. injection Hc' as <-.
  assert (n = size (rowsOf rs t)) as -> by (by apply Hsized).
  destruct (Hrows t) as (ptb' & tb' & Hp' & Htb' & Heq).
  { apply Hlog. apply list_elem_of_fmap. by exists (size (rowsOf rs t), t). }
  rewrite Hp in Hp'. injection Hp' as <-. rewrite Htb in Htb'. injection Htb' as <-.
  rewrite Heq, length_fmap, length_filter_ids by done.
  set (ids := rowsOf rs t). set (L := list_to_set (row_id <$> rows ptb) : gset Z).
  assert (ids ∩ L ⊆ ids) as Hsub by set_solver.
  split; [by apply (subseteq_size (H6 := gset_fin_set))|]. split.
  - intros Hsize i Hi.
    assert (ids ∩ L = ids) as Hsame.
    { apply (set_subseteq_size_eq (H6 := gset_fin_set)); [done|]. by rewrite Hsize. }
    assert (i ∈ L) as HiL by set_solver.
    unfold L in HiL. rewrite elem_of_list_to_set in HiL.
    apply list_elem_of_fmap in HiL as (r & -> & Hr). by exists r.
  - intros Hall. f_equal. apply leibniz_equiv. apply set_equiv. intros i.
    rewrite elem_of_intersection. split; [tauto|]. intros Hi. split; [done|].
    destruct (Hall i Hi) as (r & Hr & <-). unfold L.
    rewrite elem_of_list_to_set. by apply list_elem_of_fmap_2.
Qed.

Lemma log_counts_ids_witness :
  (2%nat, "orders") ∈
    logged (SyncPartialData 17 in_order Shop.prodDB Shop.dev Shop.allFks
              Shop.requested true).2 ∧
  (length [storedRow ["id"; "customer_id"] (mkRow 100 {[ "customer_id" := VInt 5 ]});
           storedRow ["id"; "customer_id"] (mkRow 101 {[ "customer_id" := VInt 5 ]})]
   ≤ 2)%nat.
Proof.
  assert ((2%nat, "orders") ∈
    logged (SyncPartialData 17 in_order Shop.prodDB Shop.dev Shop.allFks
              Shop.requested true).2) as Hlogged.
  { vm_compute. right. left. }
  split; [exact Hlogged|].
  apply (log_counts_ids 17 in_order Shop.prodDB Shop.dev Shop.allFks Shop.requested
           (SyncPartialData 17 in_order Shop.prodDB Shop.dev Shop.allFks
              Shop.requested true).2
           expectedRowSets "orders" 2
           (mkTable ["customer_id"]
              [ mkRow 100 {[ "customer_id" := VInt 5 ]};
                mkRow 101 {[ "customer_id" := VInt 5 ]} ])
           (mkDevTable ["id"; "customer_id"]
              [storedRow ["id"; "customer_id"] (mkRow 100 {[ "customer_id" := VInt 5 ]});
               storedRow ["id"; "customer_id"] (mkRow 101 {[ "customer_id" := VInt 5 ]})])).
  - vm_compute. reflexivity.
  - vm_compute. reflexivity.
  - exact Hlogged.
  - vm_compute. reflexivity.
  - apply (bool_decide_unpack _). vm_compute. exact I.
  - vm_compute. reflexivity.
Defined.

(** ** The queries *)







(** ** When the run succeeds *)



Section success.
Context (prodDB : gmap string Table) (allFks : list ForeignKey)
        (requestedTables : gmap string Z).
Hypothesis source_tables : ∀ t,
  t ∈ FromTable <$> allFks ∨ t ∈ ToTable <$> allFks ∨ is_Some (requestedTables !! t) →
  is_Some (prodDB !! t).
Hypothesis limits : ∀ t limit, requestedTables !! t = Some limit → 0 ≤ limit.
Hypothesis columns_hold_ids : ∀ fk tb r,
  fk ∈ allFks → IsNullable fk = false → FromTable fk ≠ ToTable fk →
  prodDB !! FromTable fk = Some tb →
  has_column tb (FromColumn fk) = true ∧
  (r ∈ rows tb → cell r (FromColumn fk) ≠ VOther).


End success.
(** ** The errors of the copy phase *)
Section copy_errors.
Context (prodDB : gmap string Table) (rs : gmap string (gset Z)).

Lemma copyTable_Failed reset w t e w' :
  copyTable prodDB reset rs w t = (Failed e, w') →
  rowsOf rs t ≠ ∅ ∧
  ((reset = true ∧ ∃ drv, e = TruncateError t drv ∧
                          truncateTable (devDB w) t = Failed drv) ∨
   (∃ drv, e = FetchRowsByIDsError drv ∧
           fetchRowsByIDs prodDB t (rowsOf rs t) = Failed drv) ∨
   (∃ drv, e = InsertRowsError drv)).
Proof.
  unfold copyTable.
  destruct (bool_decide_reflect (size (rowsOf rs t) = 0%nat)) as [Hz|Hnz]; [done|].
  assert (rowsOf rs t ≠ ∅) as Hne by (intros Heq; by rewrite Heq, size_empty in Hnz).
  intros Hrun. split; [done|]. revert Hrun. cbn [devDB logged].
  destruct (if reset then wrap (TruncateError t) (truncateTable (devDB w) t)
            else Done (devDB w)) as [dev2|e2| |] eqn:Htr; try done.
  - destruct (fetchRowsByIDs prodDB t (rowsOf rs t)) as [data|drv| |]; cbn [wrap]; try done.
    + destruct (insertRows dev2 t data.2 data.1) as [dev3|drv| |]; cbn [wrap]; try done.
      intros [= <- <-]. right. right. by exists drv.
    + intros [= <- <-]. right. left. by exists drv.
  - intros [= <- <-]. left. destruct reset; [|done]. split; [done|].
    destruct (truncateTable (devDB w) t) as [?|drv| |]; cbn [wrap] in Htr; try done.
    injection Htr as <-. by exists drv.
Qed.

Lemma copyAll_Failed reset sorted : ∀ w e w',
  copyAll prodDB reset rs w sorted = (Failed e, w') →
  ∃ t w0, t ∈ sorted ∧ copyTable prodDB reset rs w0 t = (Failed e, w').
Proof.
  induction sorted as [|t0 sorted IH]; intros w e w' Hcopy; simpl in Hcopy; [done|].
  destruct (copyTable prodDB reset rs w t0) as [[[]|e0| |] w1] eqn:Hstep; try done.
  - apply IH in Hcopy as (t & w0 & Ht & Hfail).
    exists t, w0. split; [by right|done].
  - injection Hcopy as <- <-. exists t0, w. split; [left|done].
Qed.

End copy_errors.




(** ** A larger request *)

Lemma fetchSomeIDs_more db t l1 l2 ids1 i :
  fetchSomeIDs db t l1 = Done ids1 → l1 ≤ l2 → i ∈ ids1 →
  ∃ ids2, fetchSomeIDs db t l2 = Done ids2 ∧ i ∈ ids2.
Proof.
  unfold fetchSomeIDs.
  destruct (bool_decide_reflect (l1 < 0)) as [|Hpos]; [done|].
  destruct (db !! t) as [tb|]; [|done]. intros [= <-] Hle Hi.
  rewrite bool_decide_eq_false_2 by lia. eexists. split; [done|].
  rewrite <- (Nat.min_l (Z.to_nat l1) (Z.to_nat l2)) in Hi by lia.
  rewrite <- take_take in Hi. by apply subseteq_take in Hi.
Qed.

(** X11. A request that names more tables or larger limits gives larger
    row sets: when both closures return, every row set of the smaller
    request is included in the row set of the larger request. *)
Theorem larger_request_larger_closure f1 f2 o1 o2 db allFks req1 req2 rs1 rs2 :
  (∀ t l1, req1 !! t = Some l1 → ∃ l2, req2 !! t = Some l2 ∧ l1 ≤ l2) →
  closure f1 o1 db allFks req1 = Done rs1 →
  closure f2 o2 db allFks req2 = Done rs2 →
  ∀ t, rowsOf rs1 t ⊆ rowsOf rs2 t.
Proof.
  intros Hreq H1 H2 t i. apply closure_Done in H1 as [_ Hm1].
  apply closure_Done in H2 as [_ Hm2]. rewrite Hm1, Hm2.
  induction 1 as [t i (l1 & ids1 & Hl1 & Hf1 & Hi)|c i p j _ IH Href].
  - apply reach_seed. destruct (Hreq t l1 Hl1) as (l2 & Hl2 & Hle).
    destruct (fetchSomeIDs_more db t l1 l2 ids1 i Hf1 Hle Hi) as (ids2 & Hf2 & Hi2).
    by exists l2, ids2.
  - by apply (reach_step _ _ _ _ c i).
Qed.

Lemma larger_request_larger_closure_witness :
  ∃ rs1 rs2,
    closure 17 in_order Shop.prodDB Shop.allFks {[ "order_items" := 1 ]} = Done rs1 ∧
    closure 17 backwards Shop.prodDB Shop.allFks {[ "order_items" := 2 ]} = Done rs2 ∧
    ∀ t, rowsOf rs1 t ⊆ rowsOf rs2 t.
Proof.
  assert (∃ rs1, closure 17 in_order Shop.prodDB Shop.allFks {[ "order_items" := 1 ]}
                 = Done rs1) as [rs1 H1] by (eexists; vm_compute; reflexivity).
  assert (∃ rs2, closure 17 backwards Shop.prodDB Shop.allFks {[ "order_items" := 2 ]}
                 = Done rs2) as [rs2 H2] by (eexists; vm_compute; reflexivity).
  exists rs1, rs2. split; [exact H1|]. split; [exact H2|].
  apply (larger_request_larger_closure 17 17 in_order backwards Shop.prodDB Shop.allFks
           {[ "order_items" := 1 ]} {[ "order_items" := 2 ]} rs1 rs2); [|exact H1|exact H2].
  intros t l1 Hl. apply lookup_singleton_Some in Hl as [<- <-].
  exists 2. split; [reflexivity|lia].
Defined.

Lemma other_tables_untouched_witness :
  ∃ w, SyncPartialData 17 in_order Shop.prodDB Shop.dev Shop.allFks
         {[ "customers" := 1 ]} true = (Done (), w) ∧
       dom (devDB w) = dom Shop.dev.
Proof.
  assert (∃ w, SyncPartialData 17 in_order Shop.prodDB Shop.dev Shop.allFks
                 {[ "customers" := 1 ]} true = (Done (), w)) as [w Hw].
  { eexists. vm_compute. reflexivity. }
  exists w. split; [exact Hw|].
  exact (proj1 (other_tables_untouched 17 in_order Shop.prodDB Shop.dev Shop.allFks
                  {[ "customers" := 1 ]} true (Done ()) w Hw)).
Defined.

Lemma rows_kept_without_reset_witness :
  ∃ r w tb', SyncPartialData 17 in_order Shop.prodDB Shop.dev Shop.allFks
               Shop.requested false = (r, w) ∧
             devDB w !! "orders" = Some tb' ∧
             dev_columns tb' = ["id"; "customer_id"] ∧ [] `prefix_of` dev_rows tb'.
Proof.
  assert (∃ r w, SyncPartialData 17 in_order Shop.prodDB Shop.dev Shop.allFks
                   Shop.requested false = (r, w)) as (r & w & Hw).
  { eexists _, _. vm_compute. reflexivity. }
  destruct (rows_kept_without_reset 17 in_order Shop.prodDB Shop.dev Shop.allFks
              Shop.requested r w "orders" (mkDevTable ["id"; "customer_id"] []) Hw)
    as (tb' & Htb' & Hcols & Hrows).
  { vm_compute. reflexivity. }
  exists r, w, tb'. split; [exact Hw|]. split; [exact Htb'|]. split; [exact Hcols|exact Hrows].
Defined.
(** ** The errors of the run *)
(** X23. Every error of the run comes from one of four places.  A seed
    query failed for a requested table; the query for the parent ids
    failed for an edge and a non-empty set of child ids;
    [partialTopoSort] failed on the tables with rows; or the closure and
    the sort succeeded and the copy of a table with rows failed, in
    [truncateTable] (with [resetTables] only), in [fetchRowsByIDs] or in
    [insertRows], whatever made that call fail.  In the first three cases
    the destination is untouched. *)
Theorem every_error_has_a_cause fuel o prodDB dev allFks requestedTables reset e w :
  SyncPartialData fuel o prodDB dev allFks requestedTables reset = (Failed e, w) →
  (∃ t limit drv, e = FetchSomeIDsError t drv ∧ requestedTables !! t = Some limit ∧
                  fetchSomeIDs prodDB t limit = Failed drv ∧ w = mkWorld dev []) ∨
  (∃ fk S drv, e = FetchReferencedParentIDsError drv ∧ fk ∈ allFks ∧
               IsNullable fk = false ∧ FromTable fk ≠ ToTable fk ∧ S ≠ ∅ ∧
               fetchReferencedParentIDs prodDB (FromTable fk)
                 (mkEdge (ToTable fk) (ToColumn fk) (FromColumn fk)) S = Failed drv ∧
               w = mkWorld dev []) ∨
  (∃ rs, e = TopoSortError CycleOrMissing ∧
         closure fuel o prodDB allFks requestedTables = Done rs ∧
         partialTopoSort (shift 4 o) allFks (tablesNeedingCopy o rs) = Failed CycleOrMissing ∧
         w = mkWorld dev []) ∨
  (∃ rs sorted t,
     closure fuel o prodDB allFks requestedTables = Done rs ∧
     partialTopoSort (shift 4 o) allFks (tablesNeedingCopy o rs) = Done sorted ∧
     t ∈ sorted ∧ rowsOf rs t ≠ ∅ ∧
     ((reset = true ∧ ∃ drv, e = TruncateError t drv) ∨
      (∃ drv, e = FetchRowsByIDsError drv ∧
              fetchRowsByIDs prodDB t (rowsOf rs t) = Failed drv) ∨
      (∃ drv, e = InsertRowsError drv))).
Proof.
  intros Hrun.
  destruct (SyncPartialData_cases fuel o prodDB dev allFks requestedTables reset)
    as [(rs & sorted & Hc & Hs & Heq)|[(rs & Hc & Hs & Heq)|[(e' & Hc & Heq)|[_ Heq]]]];
    rewrite Heq in Hrun.
  - right. right. right.
    apply copyAll_Failed in Hrun as (t & w0 & Ht & Hfail).
    apply copyTable_Failed in Hfail as [Hne Hcause].
    exists rs, sorted, t. split_and!; [done..|].
    destruct Hcause as [(Hreset & drv & -> & _)|[(drv & -> & Hfetch)|[drv ->]]].
    + left. eauto.
    + right. left. eauto.
    + right. right. eauto.
  - injection Hrun as <- <-. right. right. left. by exists rs.
  - injection Hrun as <- <-. unfold closure, closureRun in Hc.
    destruct (seeding_cases o prodDB allFks requestedTables)
      as [[seeded Hseed]|(t & drv & Hfail & limit & Hl & Hf)].
    + right. left. rewrite Hseed in Hc. simpl in Hc.
      destruct (bfs prodDB (buildAdjacency allFks) fuel (startBfs o requestedTables seeded))
        as [st|err'| |] eqn:Hbfs; simpl in Hc; try done. injection Hc as ->.
      apply (bfs_invariant_Failed prodDB allFks (λ _, True) (λ _ _ _, True)) in Hbfs
        as (c & dn & edge & st1 & _ & He & Hstep); [|done..].
      apply processEdge_Failed in Hstep as (drv & Hfetch & ->).
      apply elem_of_edgesOf in He as (fk & Hfk & [Hself Hnull]%hard_spec & <- & ->).
      exists fk, (rowsOf (rowSets st1) (FromTable fk)), drv. split_and!; [done..| |done|done].
      intros Hempty. unfold fetchReferencedParentIDs in Hfetch. rewrite Hempty in Hfetch.
      by rewrite bool_decide_eq_true_2 in Hfetch by apply size_empty.
    + left. rewrite Hfail in Hc. simpl in Hc. injection Hc as <-.
      by exists t, limit, drv.
  - done.
Qed.

Lemma every_error_has_a_cause_witness :
  ∃ fk S drv,
    FetchReferencedParentIDsError (ScanError "owner_id") = FetchReferencedParentIDsError drv ∧
    fk ∈ Pets.allFks ∧ S ≠ ∅ ∧
    fetchReferencedParentIDs Pets.prodDB (FromTable fk)
      (mkEdge (ToTable fk) (ToColumn fk) (FromColumn fk)) S = Failed drv.
Proof.
  destruct (every_error_has_a_cause 17 in_order Pets.prodDB Pets.dev Pets.allFks Pets.cats
              true (FetchReferencedParentIDsError (ScanError "owner_id"))
              (mkWorld Pets.dev []))
    as [(t & limit & drv & He & _)|[(fk & S & drv & He & Hfk & _ & _ & HS & Hf & _)|
        [(rs & He & _)|(rs & sorted & t & _ & _ & _ & _ &
           [(_ & drv & He)|[(drv & He & _)|(drv & He)]])]]].
  - vm_compute. reflexivity.
  - discriminate He.
  - exists fk, S, drv. split; [exact He|]. split; [exact Hfk|]. split; [exact HS|exact Hf].
  - discriminate He.
  - discriminate He.
  - discriminate He.
  - discriminate He.
Defined.

(** ** Two relationships between the same two tables *)

Lemma depParents_repeated l1 fk1 l2 fk2 l3 tables :
  hard fk1 = true → hard fk2 = true →
  FromTable fk2 = FromTable fk1 → ToTable fk2 = ToTable fk1 → ToTable fk1 ∈ tables →
  ¬ NoDup (depParents (l1 ++ fk1 :: l2 ++ fk2 :: l3) tables (FromTable fk1)).
Proof.
  intros H1 H2 Hf Ht Hin Hnd. unfold depParents in Hnd.
  rewrite filter_app, filter_cons_True in Hnd by done.
  rewrite filter_app, filter_cons_True in Hnd by (by rewrite Hf, Ht).
  rewrite fmap_app, fmap_cons, fmap_app, fmap_cons in Hnd.
  apply NoDup_app in Hnd as (_ & _ & Hnd). apply NoDup_cons in Hnd as [Hnot _].
  apply Hnot. rewrite Ht. apply elem_of_app. right. left.
Qed.

(** X12. When two entries of [allFks], neither nullable nor
    self-referencing, join the same child to the same parent, and the
    closure holds rows for both tables, the run fails with the error of
    [partialTopoSort] and copies nothing. *)
Theorem repeated_relationship_fails fuel o prodDB dev l1 fk1 l2 fk2 l3
    requestedTables reset rs :
  IsNullable fk1 = false → IsNullable fk2 = false → FromTable fk1 ≠ ToTable fk1 →
  FromTable fk2 = FromTable fk1 → ToTable fk2 = ToTable fk1 →
  closure fuel o prodDB (l1 ++ fk1 :: l2 ++ fk2 :: l3) requestedTables = Done rs →
  rowsOf rs (FromTable fk1) ≠ ∅ → rowsOf rs (ToTable fk1) ≠ ∅ →
  SyncPartialData fuel o prodDB dev (l1 ++ fk1 :: l2 ++ fk2 :: l3) requestedTables reset =
  (Failed (TopoSortError CycleOrMissing), mkWorld dev []).
Proof.
  intros Hn1 Hn2 Hself Hf Ht Hc Hchild Hparent.
  destruct (SyncPartialData_cases fuel o prodDB dev (l1 ++ fk1 :: l2 ++ fk2 :: l3)
              requestedTables reset)
    as [(rs' & sorted & Hc' & Hs & _)|[(rs' & _ & _ & Heq)|[(e & Hc' & _)|[Hc' _]]]];
    [|done|congruence..].
  rewrite Hc in Hc'. injection Hc' as <-.
  apply partialTopoSort_Done_acyclic in Hs as (_ & _ & Hnd).
  assert (∀ t, rowsOf rs t ≠ ∅ → t ∈ tablesNeedingCopy o rs) as Hin.
  { intros t Hne. apply elem_of_tablesNeedingCopy. intros Hz.
    by apply Hne, leibniz_equiv, size_empty_iff. }
  exfalso. apply (depParents_repeated l1 fk1 l2 fk2 l3 (tablesNeedingCopy o rs)).
  - by apply hard_spec.
  - apply hard_spec. by rewrite Hf, Ht.
  - done.
  - done.
  - by apply Hin.
  - apply Hnd. by apply Hin.
Qed.

Lemma repeated_relationship_fails_witness :
  SyncPartialData 17 in_order Chat.prodDB Chat.dev Messages.allFks Chat.requested true =
  (Failed (TopoSortError CycleOrMissing), mkWorld Chat.dev []).
Proof.
  apply (repeated_relationship_fails 17 in_order Chat.prodDB Chat.dev []
           (mkFK "messages" "sender_id" "users" "id" false) []
           (mkFK "messages" "recipient_id" "users" "id" false) []
           Chat.requested true
           {[ "messages" := {[ 7 ]}; "users" := {[ 1; 2 ]} ]}).
  - reflexivity.
  - reflexivity.
  - vm_compute. discriminate.
  - reflexivity.
  - reflexivity.
  - vm_compute. reflexivity.
  - vm_compute. discriminate.
  - vm_compute. discriminate.
Defined.

(** ** What partialTopoSort returns *)

(** X13. An order returned by [partialTopoSort] holds every needed table
    exactly once and no other table. *)
Theorem partialTopoSort_permutation o allFks neededTables sorted :
  partialTopoSort o allFks neededTables = Done sorted →
  NoDup sorted ∧ sorted ≡ₚ neededTables.
Proof.
  intros Hs. apply partialTopoSort_Done in Hs as (Hnd & Hperm & _). done.
Qed.

Lemma partialTopoSort_permutation_witness :
  partialTopoSort backwards Shop.allFks ["orders"; "order_items"; "customers"]
    = Done ["customers"; "orders"; "order_items"] ∧
  NoDup ["customers"; "orders"; "order_items"] ∧
  ["customers"; "orders"; "order_items"] ≡ₚ ["orders"; "order_items"; "customers"].
Proof.
  assert (partialTopoSort backwards Shop.allFks ["orders"; "order_items"; "customers"]
          = Done ["customers"; "orders"; "order_items"]) as Hs by (vm_compute; reflexivity).
  split; [exact Hs|].
  exact (partialTopoSort_permutation backwards Shop.allFks
           ["orders"; "order_items"; "customers"] ["customers"; "orders"; "order_items"] Hs).
Defined.

(** X14. [partialTopoSort] returns an order exactly when the needed
    tables are pairwise distinct, the kept relationships between needed
    tables form no cycle, and no needed table records the same parent
    twice; in every other case it returns its error.  It always returns:
    its loop takes one iteration per needed table at most. *)
Theorem partialTopoSort_criterion o allFks neededTables :
  ((∃ sorted, partialTopoSort o allFks neededTables = Done sorted) ↔
   NoDup neededTables ∧ acyclic (dependsIn allFks neededTables) ∧
   ∀ t, t ∈ neededTables → NoDup (depParents allFks neededTables t)) ∧
  (partialTopoSort o allFks neededTables = Failed CycleOrMissing ↔
   ¬ (NoDup neededTables ∧ acyclic (dependsIn allFks neededTables) ∧
      ∀ t, t ∈ neededTables → NoDup (depParents allFks neededTables t))) ∧
  returns (partialTopoSort o allFks neededTables).
Proof.
  assert ((∃ sorted, partialTopoSort o allFks neededTables = Done sorted) ↔
          NoDup neededTables ∧ acyclic (dependsIn allFks neededTables) ∧
          ∀ t, t ∈ neededTables → NoDup (depParents allFks neededTables t)) as Hiff.
  { split.
    - intros [sorted Hs]. by apply partialTopoSort_Done_acyclic in Hs.
    - intros (Hnd & Hac & Hp). by apply partialTopoSort_acyclic_Done. }
  split; [done|]. split; [split|].
  - intros Hf HC. apply Hiff in HC as [sorted Hs]. congruence.
  - intros HnC. destruct (partialTopoSort_cases o allFks neededTables) as [?|Hs]; [done|].
    by apply Hiff in Hs.
  - by destruct (partialTopoSort_cases o allFks neededTables) as [->|[sorted ->]].
Qed.

(** * The text functions *)

(** ** Strings as lists of bytes *)

Arguments bytes : simpl never.

Lemma bytes_app a b : bytes (a +:+ b) = bytes a ++ bytes b.
Proof. unfold bytes. induction a as [|x a IH]; simpl; [done|by rewrite IH]. Qed.

Lemma bytes_String x s : bytes (String x s) = x :: bytes s.
Proof. done. Qed.

Lemma bytes_inj a b : bytes a = bytes b → a = b.
Proof.
  unfold bytes. intros Heq.
  rewrite <- (String.string_of_list_ascii_of_string a),
          <- (String.string_of_list_ascii_of_string b).
  by rewrite Heq.
Qed.

Lemma append_assoc a b c : (a +:+ b) +:+ c = a +:+ b +:+ c.
Proof. apply bytes_inj. by rewrite !bytes_app, (assoc_L (++)). Qed.

Lemma append_nil_r a : a +:+ EmptyString = a.
Proof. apply bytes_inj. by rewrite bytes_app, app_nil_r. Qed.

Lemma countByte_app c a b : countByte c (a +:+ b) = (countByte c a + countByte c b)%nat.
Proof. unfold countByte. by rewrite bytes_app, filter_app, length_app. Qed.

(** ** backtickJoin *)

Lemma backtickJoin_from b cols : ∀ k,
  foldl backtickStep b (imap (λ i c, (S k + i, c)%nat) cols) =
  b +:+ foldr (λ c s, "," +:+ "`" +:+ c +:+ "`" +:+ s) EmptyString cols.
Proof.
  revert b. induction cols as [|c cols IH]; intros b k; simpl.
  { by rewrite append_nil_r. }
  rewrite (imap_ext _ (λ i c, (S (S k) + i, c)%nat)) by (intros; simpl; f_equal; lia).
  rewrite IH. unfold backtickStep. simpl.
  by rewrite !append_assoc.
Qed.

Lemma backtickJoin_cons c cols :
  backtickJoin (c :: cols) =
  "`" +:+ c +:+ "`" +:+ foldr (λ c s, "," +:+ "`" +:+ c +:+ "`" +:+ s) EmptyString cols.
Proof.
  unfold backtickJoin. simpl.
  rewrite (imap_ext _ (λ i c, (1 + i, c)%nat)) by done.
  rewrite backtickJoin_from. unfold backtickStep. simpl.
  by rewrite !append_assoc.
Qed.

Lemma stringsJoin_cons e rest sep :
  stringsJoin (e :: rest) sep =
  e +:+ foldr (λ x s, sep +:+ x +:+ s) EmptyString rest.
Proof.
  revert e. induction rest as [|e' rest IH]; intros e.
  { simpl. by rewrite append_nil_r. }
  change (stringsJoin (e :: e' :: rest) sep) with (e +:+ sep +:+ stringsJoin (e' :: rest) sep).
  by rewrite IH.
Qed.

(** X17. [backtickJoin] returns the column names, each between two
    backticks, joined by commas. *)
Theorem backtickJoin_joins cols :
  backtickJoin cols = stringsJoin ((λ c, "`" +:+ c +:+ "`") <$> cols) ",".
Proof.
  destruct cols as [|c cols]; [done|].
  rewrite backtickJoin_cons, fmap_cons, stringsJoin_cons.
  assert (foldr (λ c s, "," +:+ "`" +:+ c +:+ "`" +:+ s) EmptyString cols =
          foldr (λ x s, "," +:+ x +:+ s) EmptyString
            ((λ c, "`" +:+ c +:+ "`") <$> cols)) as ->.
  { induction cols as [|c' cols IH]; [done|].
    csimpl. rewrite IH. by rewrite !append_assoc. }
  by rewrite !append_assoc.
Qed.

Lemma app_first_occurrence {A} (x : A) l1 l2 r1 r2 :
  x ∉ l1 → x ∉ l2 → l1 ++ x :: r1 = l2 ++ x :: r2 → l1 = l2 ∧ r1 = r2.
Proof.
  revert l2. induction l1 as [|a l1 IH]; intros [|b l2] H1 H2 Heq; simpl in *.
  - by injection Heq as ->.
  - injection Heq as <- _. exfalso. apply H2. left.
  - injection Heq as -> _. exfalso. apply H1. left.
  - injection Heq as -> Heq. apply not_elem_of_cons in H1 as [_ H1].
    apply not_elem_of_cons in H2 as [_ H2].
    destruct (IH l2 H1 H2 Heq) as [-> ->]. done.
Qed.

Lemma bytes_backtickJoin c cols :
  bytes (backtickJoin (c :: cols)) =
  "`"%char :: bytes c ++ "`"%char ::
    match cols with
    | [] => []
    | c' :: cols' => ","%char :: bytes (backtickJoin (c' :: cols'))
    end.
Proof.
  rewrite backtickJoin_cons. rewrite !bytes_app. simpl. f_equal. f_equal. f_equal.
  destruct cols as [|c' cols']; [done|].
  rewrite backtickJoin_cons. simpl. by rewrite !bytes_app.
Qed.

(** X18. [backtickJoin] maps different lists of column names to
    different texts as long as no name holds a backtick; a name that holds
    a backtick is not escaped, and the name a`,`b gives the text of the two
    names a and b. *)
Theorem backtickJoin_injective :
  (∀ cols1 cols2,
     Forall (λ c, ("`"%char ∉ bytes c)) cols1 → Forall (λ c, ("`"%char ∉ bytes c)) cols2 →
     backtickJoin cols1 = backtickJoin cols2 → cols1 = cols2) ∧
  (∀ a b cols, backtickJoin ((a +:+ "`,`" +:+ b) :: cols) = backtickJoin (a :: b :: cols)).
Proof.
  split.
  - intros cols1 cols2 H1. revert cols2.
    induction H1 as [|c1 cols1 Hc1 H1 IH]; intros cols2 H2 Heq.
    { destruct cols2 as [|c2 cols2]; [done|].
      apply (f_equal bytes) in Heq. by rewrite bytes_backtickJoin in Heq. }
    destruct H2 as [|c2 cols2 Hc2 H2].
    { apply (f_equal bytes) in Heq. by rewrite bytes_backtickJoin in Heq. }
    apply (f_equal bytes) in Heq. rewrite !bytes_backtickJoin in Heq.
    injection Heq as Heq.
    apply app_first_occurrence in Heq as [Hc Hrest]; [|done..].
    apply bytes_inj in Hc as ->. f_equal.
    destruct cols1 as [|c1' cols1], cols2 as [|c2' cols2]; try done.
    injection Hrest as Hrest. apply IH; [done|]. by apply bytes_inj.
  - intros a b cols. rewrite !backtickJoin_cons. simpl. rewrite !append_assoc. simpl. done.
Qed.

Lemma backtickJoin_injective_witness :
  Forall (λ c, ("`"%char ∉ bytes c)) ["id"; "name"] ∧ ["id"; "name"] = ["id"; "name"].
Proof.
  assert (Forall (λ c, ("`"%char ∉ bytes c)) ["id"; "name"]) as Hcols.
  { repeat constructor; vm_compute; intros Hin;
      repeat (apply elem_of_cons in Hin as [Hin|Hin]; [discriminate Hin|]);
      by apply elem_of_nil in Hin. }
  split; [exact Hcols|].
  exact (proj1 backtickJoin_injective ["id"; "name"] ["id"; "name"] Hcols Hcols eq_refl).
Defined.

(** ** The INSERT statement *)

Lemma countByte_stringsJoin c l sep :
  countByte c sep = 0%nat →
  countByte c (stringsJoin l sep) = sum_list (countByte c <$> l).
Proof.
  intros Hsep. destruct l as [|e rest]; [done|].
  rewrite stringsJoin_cons, countByte_app. csimpl. f_equal.
  induction rest as [|e' rest IH]; [done|].
  csimpl. by rewrite !countByte_app, Hsep, IH.
Qed.

Lemma countByte_repeatString c s n :
  countByte c (repeatString s n) = (n * countByte c s)%nat.
Proof.
  induction n as [|n IH]; simpl; [done|]. by rewrite countByte_app, IH.
Qed.

Lemma addRow_fold placeholders rowsData : ∀ acc,
  foldl (addRow placeholders) acc rowsData =
  (acc.1 ++ replicate (length rowsData) placeholders, acc.2 ++ concat rowsData).
Proof.
  induction rowsData as [|row rowsData IH]; intros [bl ar]; simpl.
  { by rewrite !app_nil_r. }
  rewrite IH. simpl. by rewrite <- !(assoc_L (++)).
Qed.

Lemma length_concat_uniform {A} (ls : list (list A)) n :
  Forall (λ l, length l = n) ls → length (concat ls) = (length ls * n)%nat.
Proof.
  induction 1 as [|l ls Hl _ IH]; simpl; [done|]. rewrite length_app, IH. lia.
Qed.

(** X19. The statement of [insertRows]: for an empty list of rows no
    statement is built; building it panics exactly when [insertRows]
    panics, that is for rows without columns; for rows that have one value
    per column the VALUES clause holds as many placeholders as the
    statement has arguments, one per value; and the rows [fetchRowsByIDs]
    returns have one value per column. *)
Theorem insertStatement_placeholders table cols rowsData :
  (rowsData = [] → insertStatement table cols rowsData = Done None) ∧
  (∀ dev, insertStatement table cols rowsData = Panicked ↔
          insertRows dev table cols rowsData = Panicked) ∧
  (rowsData ≠ [] → cols ≠ [] → Forall (λ row, length row = length cols) rowsData →
   ∃ st, insertStatement table cols rowsData = Done (Some st) ∧
         countByte "?"%char (st_values st) = length (st_args st) ∧
         length (st_args st) = (length rowsData * length cols)%nat ∧
         st_text st =
         "INSERT INTO `" +:+ table +:+ "` (" +:+ backtickJoin cols +:+ ") VALUES "
           +:+ st_values st) ∧
  (∀ db ids data cols', fetchRowsByIDs db table ids = Done (data, cols') →
     Forall (λ row, length row = length cols') data ∧ (data ≠ [] → cols' ≠ [])).
Proof.
  split_and!.
  - intros ->. done.
  - intros dev. unfold insertStatement, insertRows, stringsRepeat.
    destruct (bool_decide (length rowsData = 0%nat)); [done|].
    destruct (bool_decide_reflect (length cols = 0%nat)) as [Hz|Hnz].
    + rewrite bool_decide_eq_true_2 by lia. done.
    + rewrite bool_decide_eq_false_2 by lia. simpl. split; [done|].
      destruct (dev !! table) as [tb|]; [|done].
      by destruct (list_find _ cols) as [[? ?]|].
  - intros Hrows Hcols Hall. unfold insertStatement, stringsRepeat.
    rewrite bool_decide_eq_false_2 by (by destruct rowsData).
    rewrite bool_decide_eq_false_2 by (destruct cols; simpl; [done|lia]).
    simpl. eexists. split; [done|]. simpl.
    rewrite !addRow_fold. simpl. split_and!; [|by apply length_concat_uniform|done].
    rewrite countByte_stringsJoin by done.
    rewrite (length_concat_uniform _ _ Hall).
    rewrite fmap_replicate, !countByte_app, countByte_repeatString.
    change (countByte "?"%char "(") with 0%nat. change (countByte "?"%char "?,") with 1%nat.
    change (countByte "?"%char "?)") with 1%nat.
    assert (∀ n k, sum_list (replicate n k) = (n * k)%nat) as ->.
    { induction n as [|n IH]; intros k; simpl; [done|]. by rewrite IH. }
    f_equal. destruct cols; simpl in *; [done|lia].
  - intros db ids data cols'. unfold fetchRowsByIDs.
    destruct (bool_decide (size ids = 0%nat)); [by intros [= <- <-]|].
    destruct (db !! table) as [tb|]; [|done]. intros [= <- <-]. split; [|done].
    apply Forall_forall. intros row (r & -> & _)%list_elem_of_fmap.
    simpl. f_equal. apply length_fmap.
Qed.

Lemma insertStatement_placeholders_witness :
  ∃ st, insertStatement "orders" ["id"; "customer_id"]
          [[VInt 100; VInt 5]; [VInt 101; VInt 5]] = Done (Some st) ∧
        countByte "?"%char (st_values st) = length (st_args st) ∧
        length (st_args st) = 4%nat.
Proof.
  destruct (proj1 (proj2 (proj2 (insertStatement_placeholders "orders"
              ["id"; "customer_id"] [[VInt 100; VInt 5]; [VInt 101; VInt 5]]))))
    as (st & Hst & Hcount & Hlen & _).
  - discriminate.
  - discriminate.
  - repeat constructor.
  - exists st. split; [exact Hst|]. split; [exact Hcount|exact Hlen].
Defined.

(** ** Numbers as text *)

Lemma digitOf_digit d :
  0 ≤ d < 10 → digitOf (Ascii.ascii_of_N (Z.to_N (48 + d))) = Some d.
Proof.
  intros Hd. unfold digitOf.
  rewrite Ascii.N_ascii_embedding by lia.
  rewrite Z2N.id by lia. rewrite bool_decide_eq_true_2 by lia. f_equal. lia.
Qed.

Lemma parseDigits_digit num n d s :
  0 ≤ d < 10 → n * 10 + d < 2 ^ 64 →
  parseDigits num n (String (Ascii.ascii_of_N (Z.to_N (48 + d))) s) =
  parseDigits num (n * 10 + d) s.
Proof.
  intros Hd Hlt. simpl. rewrite digitOf_digit by done.
  by rewrite bool_decide_eq_false_2 by lia.
Qed.

Lemma parseDigits_formatDigits num fuel : ∀ n acc,
  0 ≤ n < 10 ^ Z.of_nat fuel → n < 2 ^ 64 →
  parseDigits num 0 (formatDigits fuel n acc) = parseDigits num n acc.
Proof.
  induction fuel as [|fuel IH]; intros n acc Hn Hlt.
  { simpl in *. by replace n with 0 by lia. }
  simpl formatDigits.
  assert (0 ≤ n mod 10 < 10) as Hmod by (apply Z.mod_pos_bound; lia).
  destruct (bool_decide_reflect (n < 10)) as [Hsmall|Hbig].
  - rewrite parseDigits_digit; [|done|rewrite Z.mod_small by lia; lia].
    by rewrite Z.mod_small by lia.
  - assert (n = n / 10 * 10 + n mod 10) as Hdiv.
    { pose proof (Z.div_mod n 10). lia. }
    rewrite IH.
    + rewrite parseDigits_digit; [|done|lia]. by rewrite <- Hdiv.
    + split; [apply Z.div_pos; lia|].
      apply Z.div_lt_upper_bound; [lia|].
      rewrite Nat2Z.inj_succ, Z.pow_succ_r in Hn by lia. lia.
    + pose proof (Z.div_pos n 10). lia.
Qed.

Lemma startsDigit_formatDigits fuel : ∀ n acc,
  startsDigit acc ∨ fuel ≠ 0%nat → startsDigit (formatDigits fuel n acc).
Proof.
  induction fuel as [|fuel IH]; intros n acc Hstart; simpl.
  { by destruct Hstart. }
  assert (0 ≤ n mod 10 < 10) as Hmod by (apply Z.mod_pos_bound; lia).
  assert (startsDigit (String (Ascii.ascii_of_N (Z.to_N (48 + n mod 10))) acc)) as Hd.
  { simpl. by rewrite digitOf_digit. }
  destruct (bool_decide (n < 10)); [done|]. apply IH. by left.
Qed.

Lemma fuel_enough n :
  0 ≤ n → n < 10 ^ Z.of_nat (S (Z.to_nat (Z.log2 n))).
Proof.
  intros Hn. rewrite Nat2Z.inj_succ, Z2Nat.id by apply Z.log2_nonneg.
  destruct (decide (n = 0)) as [->|Hne]; [done|].
  pose proof (Z.log2_spec n ltac:(lia)) as [_ Hlt].
  eapply Z.lt_le_trans; [exact Hlt|].
  apply Z.pow_le_mono_l. lia.
Qed.

Lemma Atoi_formatInt z : - 2 ^ 63 ≤ z < 2 ^ 63 → Atoi (formatInt z) = Done z.
Proof.
  intros Hz. unfold formatInt.
  destruct (bool_decide_reflect (z < 0)) as [Hneg|Hpos].
  - set (body := formatDigits _ (- z) EmptyString).
    assert (startsDigit body) as Hstart by (apply startsDigit_formatDigits; by right).
    unfold Atoi. rewrite !bool_decide_eq_true_2 by (by try left).
    destruct body as [|a rest] eqn:Hbody; [done|]. rewrite <- Hbody. unfold body.
    rewrite parseDigits_formatDigits; [|split; [lia|apply fuel_enough; lia]|lia].
    simpl. rewrite bool_decide_eq_false_2 by lia. simpl. f_equal. lia.
  - set (s := formatDigits _ z EmptyString).
    assert (startsDigit s) as Hstart by (apply startsDigit_formatDigits; by right).
    destruct s as [|a rest] eqn:Hs; [done|]. simpl in Hstart.
    assert (a ≠ "-"%char ∧ a ≠ "+"%char) as [Hm Hp].
    { split; intros ->; by destruct Hstart. }
    unfold Atoi. rewrite (bool_decide_eq_false_2 (a = "-"%char)) by done.
    rewrite bool_decide_eq_false_2 by (by intros [?|?]).
    rewrite <- Hs. unfold s.
    rewrite parseDigits_formatDigits; [|split; [lia|apply fuel_enough; lia]|lia].
    simpl. by rewrite bool_decide_eq_false_2 by lia.
Qed.

Lemma numeric_formatDigits fuel : ∀ n acc,
  Forall numeric (bytes acc) → Forall numeric (bytes (formatDigits fuel n acc)).
Proof.
  induction fuel as [|fuel IH]; intros n acc Hacc; simpl; [done|].
  assert (0 ≤ n mod 10 < 10) as Hmod by (apply Z.mod_pos_bound; lia).
  assert (Forall numeric (bytes (String (Ascii.ascii_of_N (Z.to_N (48 + n mod 10))) acc)))
    as Hd.
  { rewrite bytes_String. constructor; [|done]. left. by rewrite digitOf_digit. }
  destruct (bool_decide (n < 10)); [done|]. by apply IH.
Qed.

Lemma numeric_formatInt z : Forall numeric (bytes (formatInt z)).
Proof.
  unfold formatInt. destruct (bool_decide (z < 0)).
  - rewrite bytes_String. constructor; [by right|].
    apply numeric_formatDigits. constructor.
  - apply numeric_formatDigits. constructor.
Qed.

Lemma parseDigits_nonneg num s : ∀ n v,
  0 ≤ n → parseDigits num n s = Done v → 0 ≤ v.
Proof.
  induction s as [|a s IH]; intros n v Hn; simpl.
  { by intros [= <-]. }
  unfold digitOf. destruct (bool_decide_reflect (48 ≤ Z.of_N (Ascii.N_of_ascii a) ≤ 57));
    [|done].
  destruct (bool_decide (2 ^ 64 ≤ _)); [done|]. apply IH. lia.
Qed.

Lemma Atoi_range s z : Atoi s = Done z → - 2 ^ 63 ≤ z < 2 ^ 63.
Proof.
  unfold Atoi. destruct s as [|a rest]; [done|].
  set (body := if bool_decide _ then rest else String a rest).
  destruct body as [|b body'] eqn:Hbody; [done|].
  destruct (parseDigits (String a rest) 0 (String b body')) as [un| | |] eqn:Hun;
    simpl; [|done..].
  apply parseDigits_nonneg in Hun; [|done].
  destruct (bool_decide (a = "-"%char)); simpl.
  - destruct (bool_decide_reflect (2 ^ 63 < un)); [done|]. intros [= <-]. lia.
  - destruct (bool_decide_reflect (2 ^ 63 ≤ un)); [done|]. intros [= <-]. lia.
Qed.

(** ** Splitting and joining *)

Lemma stringsSplit_nonempty s sep : stringsSplit s sep ≠ [].
Proof.
  induction s as [|a s IH]; simpl; [done|].
  destruct (bool_decide (a = sep)); [done|]. by destruct (stringsSplit s sep).
Qed.

Lemma stringsSplit_whole s sep : sep ∉ bytes s → stringsSplit s sep = [s].
Proof.
  induction s as [|a s IH]; simpl; [done|]. rewrite bytes_String.
  intros [Hne Hnot]%not_elem_of_cons.
  rewrite bool_decide_eq_false_2 by done. by rewrite IH.
Qed.

Lemma stringsSplit_app a sep b :
  sep ∉ bytes a → stringsSplit (a +:+ String sep b) sep = a :: stringsSplit b sep.
Proof.
  induction a as [|x a IH]; simpl.
  { intros _. by rewrite bool_decide_eq_true_2. }
  rewrite bytes_String. intros [Hne Hnot]%not_elem_of_cons.
  rewrite bool_decide_eq_false_2 by done. by rewrite IH.
Qed.

Lemma stringsSplit_length s sep :
  length (stringsSplit s sep) = S (countByte sep s).
Proof.
  unfold countByte. induction s as [|a s IH]; simpl; [done|].
  rewrite bytes_String. destruct (bool_decide_reflect (a = sep)) as [->|Hne].
  - rewrite filter_cons_True by done. simpl. by rewrite IH.
  - rewrite filter_cons_False by done.
    pose proof (stringsSplit_nonempty s sep).
    by destruct (stringsSplit s sep).
Qed.

Lemma stringsSplit_elem s sep x :
  x ∈ stringsSplit s sep → (sep ∉ bytes x) ∧ (∀ a, a ∈ bytes x → a ∈ bytes s).
Proof.
  revert x. induction s as [|a s IH]; intros x; simpl.
  { intros ->%list_elem_of_singleton. split; [apply not_elem_of_nil|done]. }
  rewrite bytes_String. destruct (bool_decide_reflect (a = sep)) as [->|Hne].
  - intros [->|Hin]%elem_of_cons.
    + split; [apply not_elem_of_nil|]. intros b Hb. by apply elem_of_nil in Hb.
    + destruct (IH x Hin) as [Hnot Hsub]. split; [done|].
      intros b Hb. right. by apply Hsub.
  - pose proof (stringsSplit_nonempty s sep).
    destruct (stringsSplit s sep) as [|first rest]; [done|].
    intros [->|Hin]%elem_of_cons.
    + destruct (IH first) as [Hnot Hsub]; [left|].
      rewrite bytes_String. split.
      * intros [?|?]%elem_of_cons; [congruence|done].
      * intros b [->|Hb]%elem_of_cons; [left|right; by apply Hsub].
    + destruct (IH x) as [Hnot Hsub]; [by right|]. split; [done|].
      intros b Hb. right. by apply Hsub.
Qed.

Lemma stringsJoin_stringsSplit s sep :
  stringsJoin (stringsSplit s sep) (String sep EmptyString) = s.
Proof.
  induction s as [|a s IH]; simpl; [done|].
  pose proof (stringsSplit_nonempty s sep).
  destruct (stringsSplit s sep) as [|first rest] eqn:Hsplit; [done|].
  destruct (bool_decide (a = sep)) eqn:Ha.
  - apply bool_decide_eq_true_1 in Ha as ->.
    change (stringsJoin (EmptyString :: first :: rest) (String sep EmptyString))
      with (String sep (stringsJoin (first :: rest) (String sep EmptyString))).
    by rewrite IH.
  - destruct rest as [|second rest].
    + simpl in *. by rewrite IH.
    + change (stringsJoin (String a first :: second :: rest) (String sep EmptyString))
        with (String a (stringsJoin (first :: second :: rest) (String sep EmptyString))).
      by rewrite IH.
Qed.

Lemma stringsSplit_stringsJoin items sep :
  items ≠ [] → Forall (λ s, sep ∉ bytes s) items →
  stringsSplit (stringsJoin items (String sep EmptyString)) sep = items.
Proof.
  intros Hne Hall. induction Hall as [|e rest He Hrest IH]; [done|].
  destruct rest as [|e' rest].
  { simpl. by apply stringsSplit_whole. }
  change (stringsJoin (e :: e' :: rest) (String sep EmptyString))
    with (e +:+ String sep EmptyString +:+ stringsJoin (e' :: rest) (String sep EmptyString)).
  change (String sep EmptyString +:+ stringsJoin (e' :: rest) (String sep EmptyString))
    with (String sep (stringsJoin (e' :: rest) (String sep EmptyString))).
  rewrite stringsSplit_app by done. f_equal. by apply IH.
Qed.

(** ** The prompt for the tables *)

Lemma numeric_no_separator a :
  numeric a → a ≠ ","%char ∧ a ≠ ":"%char.
Proof.
  intros [[d Hd]|Heq]; split; intros Hs.
  - rewrite Hs in Hd. vm_compute in Hd. discriminate Hd.
  - rewrite Hs in Hd. vm_compute in Hd. discriminate Hd.
  - rewrite Hs in Heq. discriminate Heq.
  - rewrite Hs in Heq. discriminate Heq.
Qed.

Lemma formatInt_no_separator z :
  (","%char ∉ bytes (formatInt z)) ∧ (":"%char ∉ bytes (formatInt z)).
Proof.
  pose proof (numeric_formatInt z) as Hall. rewrite Forall_forall in Hall.
  split; intros Hin; apply Hall in Hin; by apply numeric_no_separator in Hin as [? ?].
Qed.

Lemma parseDigits_cases num s : ∀ n,
  (∃ v, parseDigits num n s = Done v) ∨ (∃ e, parseDigits num n s = Failed e).
Proof.
  induction s as [|a s IH]; intros n; simpl; [eauto|].
  destruct (digitOf a); [|eauto].
  destruct (bool_decide (2 ^ 64 ≤ _)); [eauto|apply IH].
Qed.

Lemma Atoi_cases s : (∃ v, Atoi s = Done v) ∨ (∃ e, Atoi s = Failed e).
Proof.
  unfold Atoi. destruct s as [|a rest]; [eauto|].
  destruct (if bool_decide _ then rest else String a rest) as [|b body] eqn:Hbody; [eauto|].
  destruct (parseDigits_cases (String a rest) (String b body) 0) as [[un ->]|[e ->]];
    simpl; [|eauto].
  destruct (negb _ && _); [eauto|]. destruct (_ && _); eauto.
Qed.

Lemma parsePair_cases m pair :
  (∃ name text, pair = name +:+ ":" +:+ text ∧ (":"%char ∉ bytes name) ∧
     ((∃ lim, Atoi text = Done lim ∧ parsePair m pair = Done (<[name := lim]> m)) ∨
      (∃ e, Atoi text = Failed e ∧ parsePair m pair = Failed (InvalidLimit name e)))) ∨
  (countByte ":"%char pair ≠ 1%nat ∧ parsePair m pair = Failed (InvalidTableFormat pair)).
Proof.
  unfold parsePair.
  pose proof (stringsSplit_length pair ":"%char) as Hlen.
  pose proof (stringsJoin_stringsSplit pair ":"%char) as Hjoin.
  pose proof (stringsSplit_elem pair ":"%char) as Helem.
  destruct (stringsSplit pair ":"%char) as [|name [|text [|]]]; simpl in Hlen.
  - right. split; [lia|done].
  - right. split; [lia|done].
  - left. exists name, text. split; [by rewrite <- Hjoin|].
    split; [apply (Helem name); left|].
    destruct (Atoi_cases text) as [[lim Hl]|[e He]].
    + left. exists lim. by rewrite Hl.
    + right. exists e. by rewrite He.
  - right. split; [lia|done].
Qed.

Lemma parsePairs_spec items : ∀ m0,
  (∀ m, foldlO parsePair m0 items = Done m →
     dom m0 ⊆ dom m ∧ (items ≠ [] → m ≠ ∅) ∧
     ∀ t lim, m !! t = Some lim →
       m0 !! t = Some lim ∨
       ∃ text, t +:+ ":" +:+ text ∈ items ∧ (":"%char ∉ bytes t) ∧ Atoi text = Done lim) ∧
  (∀ pair, foldlO parsePair m0 items = Failed (InvalidTableFormat pair) →
     pair ∈ items ∧ countByte ":"%char pair ≠ 1%nat) ∧
  (∀ t e, foldlO parsePair m0 items = Failed (InvalidLimit t e) →
     ∃ text, t +:+ ":" +:+ text ∈ items ∧ Atoi text = Failed e).
Proof.
  induction items as [|pair items IH]; intros m0; simpl.
  { split_and!; [|done..]. intros m [= <-]. split_and!; [done|done|]. intros t lim ?. by left. }
  destruct (parsePair_cases m0 pair)
    as [(name & text & -> & Hname & [(lim & Ha & ->)|(e & Ha & ->)])|[Hcount ->]]; simpl.
  - destruct (IH (<[name := lim]> m0)) as (HD & HF & HL). split_and!.
    + intros m Hm. destruct (HD m Hm) as (Hdom & _ & Hkeys). split_and!.
      * etrans; [|exact Hdom]. rewrite dom_insert. set_solver.
      * intros _ ->. rewrite dom_insert, dom_empty in Hdom. set_solver.
      * intros t l Hl. destruct (Hkeys t l Hl) as [Hold|(text' & Hin & ? & ?)].
        -- destruct (decide (name = t)) as [->|Hne].
           ++ rewrite lookup_insert_eq in Hold. injection Hold as <-.
              right. exists text. split_and!; [left|done..].
           ++ rewrite lookup_insert_ne in Hold by done. by left.
        -- right. exists text'. split_and!; [by right|done..].
    + intros pair' Hf. destruct (HF pair' Hf) as [? ?]. split; [by right|done].
    + intros t e Hf. destruct (HL t e Hf) as (text' & ? & ?). exists text'.
      split; [by right|done].
  - split_and!; [done..|]. intros t e' [= <- <-]. exists text. split; [left|done].
  - split_and!; [done| |done]. intros pair' [= <-]. split; [left|done].
Qed.

(** X20. [parseTablesPrompt] accepts every text of the form
    table:limit,table:limit with at least one pair, table names without
    comma and colon and limits that fit [int], and returns the map of the
    pairs, a later pair replacing an earlier one for the same table. *)
Theorem parseTablesPrompt_accepts l :
  l ≠ [] →
  Forall (λ p, (","%char ∉ bytes p.1) ∧ (":"%char ∉ bytes p.1) ∧ - 2 ^ 63 ≤ p.2 < 2 ^ 63) l →
  parseTablesPrompt (formatTables l) = Done (tablesOf l).
Proof.
  intros Hne Hall. unfold parseTablesPrompt, formatTables, tablesOf.
  rewrite stringsSplit_stringsJoin.
  - generalize (∅ : gmap string Z).
    induction Hall as [|[name z] l (Hc & Hs & Hz) Hall IH]; intros m; [done|].
    rewrite fmap_cons. simpl. unfold parsePair at 1.
    change (name +:+ ":" +:+ formatInt z) with (name +:+ String ":"%char (formatInt z)).
    rewrite stringsSplit_app by done.
    rewrite stringsSplit_whole by apply formatInt_no_separator.
    rewrite Atoi_formatInt by done. simpl.
    destruct l as [|p l]; [done|]. by apply IH.
  - by destruct l.
  - apply Forall_fmap. eapply Forall_impl; [exact Hall|].
    intros [name z] (Hc & _ & _). simpl.
    rewrite bytes_app. intros [?|Hin]%elem_of_app; [done|].
    change (bytes (":" +:+ formatInt z)) with (bytes (String ":"%char (formatInt z))) in Hin.
    rewrite bytes_String in Hin. apply elem_of_cons in Hin as [?|Hin]; [done|].
    by apply formatInt_no_separator in Hin.
Qed.

Lemma parseTablesPrompt_accepts_witness :
  parseTablesPrompt "events:1000,companies:-1" =
  Done (tablesOf [("events", 1000); ("companies", -1)]).
Proof.
  apply (parseTablesPrompt_accepts [("events", 1000); ("companies", -1)]).
  - discriminate.
  - repeat constructor; simpl; try lia; vm_compute; intros Hin;
      repeat (apply elem_of_cons in Hin as [Hin|Hin]; [discriminate Hin|]);
      by apply elem_of_nil in Hin.
Defined.

(** X21. [parseTablesPrompt] never returns an empty map; a table of the
    map holds neither comma nor colon, its limit fits [int] and is the
    number [strconv.Atoi] reads after the colon of a pair of the input.
    The first fatal error is for a pair of the input that does not hold
    exactly one colon; the second for a pair whose limit [strconv.Atoi]
    rejects. *)
Theorem parseTablesPrompt_result tablesInput :
  (∀ m, parseTablesPrompt tablesInput = Done m →
     m ≠ ∅ ∧
     ∀ t limit, m !! t = Some limit →
       (","%char ∉ bytes t) ∧ (":"%char ∉ bytes t) ∧ - 2 ^ 63 ≤ limit < 2 ^ 63 ∧
       ∃ text, t +:+ ":" +:+ text ∈ stringsSplit tablesInput ","%char ∧
               Atoi text = Done limit) ∧
  (∀ pair, parseTablesPrompt tablesInput = Failed (InvalidTableFormat pair) →
     pair ∈ stringsSplit tablesInput ","%char ∧ countByte ":"%char pair ≠ 1%nat) ∧
  (∀ t e, parseTablesPrompt tablesInput = Failed (InvalidLimit t e) →
     ∃ text, t +:+ ":" +:+ text ∈ stringsSplit tablesInput ","%char ∧
             Atoi text = Failed e).
Proof.
  unfold parseTablesPrompt.
  destruct (parsePairs_spec (stringsSplit tablesInput ","%char) ∅) as (HD & HF & HL).
  split_and!; [|done..].
  intros m Hm. destruct (HD m Hm) as (_ & Hne & Hkeys).
  split; [apply Hne, stringsSplit_nonempty|].
  intros t limit Hl. destruct (Hkeys t limit Hl) as [Hold|(text & Hin & Hcolon & Ha)].
  { by rewrite lookup_empty in Hold. }
  pose proof (Atoi_range _ _ Ha) as Hrange.
  split_and!; [|done|lia|lia|by exists text].
  apply stringsSplit_elem in Hin as [Hnot _]. rewrite bytes_app in Hnot.
  intros Hc. apply Hnot, elem_of_app. by left.
Qed.

Lemma parseTablesPrompt_result_witness :
  parseTablesPrompt "events:1000,companies:-1" =
    Done (tablesOf [("events", 1000); ("companies", -1)]) ∧
  tablesOf [("events", 1000); ("companies", -1)] ≠ ∅.
Proof.
  assert (parseTablesPrompt "events:1000,companies:-1" =
          Done (tablesOf [("events", 1000); ("companies", -1)])) as Hp
    by (vm_compute; reflexivity).
  split; [exact Hp|].
  exact (proj1 (proj1 (parseTablesPrompt_result "events:1000,companies:-1") _ Hp)).
Defined.

(** ** The data source name *)

Lemma bytes_buildDSN user pass host port dbName :
  bytes (buildDSN user pass host port dbName) =
  bytes user ++ ":"%char :: (bytes pass ++ "@"%char ::
    (bytes "tcp(" ++ (bytes host ++ ":"%char ::
       (bytes (formatInt port) ++ ")"%char :: "/"%char :: bytes dbName)))).
Proof. unfold buildDSN. rewrite !bytes_app. reflexivity. Qed.

(** X22. [buildDSN] maps different arguments to different texts when
    the user names hold no colon, the passwords no at sign, the hosts no
    colon and the ports fit [int]; a colon in the user name is not
    escaped: the text is the one of the shorter user name with the rest
    moved to the password. *)
Theorem buildDSN_unambiguous :
  (∀ user1 pass1 host1 port1 db1 user2 pass2 host2 port2 db2,
     (":"%char ∉ bytes user1) → (":"%char ∉ bytes user2) →
     ("@"%char ∉ bytes pass1) → ("@"%char ∉ bytes pass2) →
     (":"%char ∉ bytes host1) → (":"%char ∉ bytes host2) →
     - 2 ^ 63 ≤ port1 < 2 ^ 63 → - 2 ^ 63 ≤ port2 < 2 ^ 63 →
     buildDSN user1 pass1 host1 port1 db1 = buildDSN user2 pass2 host2 port2 db2 →
     user1 = user2 ∧ pass1 = pass2 ∧ host1 = host2 ∧ port1 = port2 ∧ db1 = db2) ∧
  (∀ user rest pass host port dbName,
     buildDSN (user +:+ ":" +:+ rest) pass host port dbName =
     buildDSN user (rest +:+ ":" +:+ pass) host port dbName).
Proof.
  split.
  - intros user1 pass1 host1 port1 db1 user2 pass2 host2 port2 db2
      Hu1 Hu2 Hp1 Hp2 Hh1 Hh2 Hr1 Hr2 Heq.
    apply (f_equal bytes) in Heq. rewrite !bytes_buildDSN in Heq.
    apply app_first_occurrence in Heq as [Huser Heq]; [|done..].
    apply app_first_occurrence in Heq as [Hpass Heq]; [|done..].
    apply app_inv_head in Heq.
    apply app_first_occurrence in Heq as [Hhost Heq]; [|done..].
    assert (∀ z, ")"%char ∉ bytes (formatInt z)) as Hparen.
    { intros z Hin. pose proof (numeric_formatInt z) as Hall.
      rewrite Forall_forall in Hall. apply Hall in Hin as [[d Hd]|Hm].
      - vm_compute in Hd. discriminate Hd.
      - discriminate Hm. }
    apply app_first_occurrence in Heq as [Hport Heq]; [|done..].
    injection Heq as Hdb.
    apply bytes_inj in Huser, Hpass, Hhost, Hport, Hdb.
    split_and!; [done..| |done].
    assert (Atoi (formatInt port1) = Atoi (formatInt port2)) as Ha by (by rewrite Hport).
    rewrite !Atoi_formatInt in Ha by done. by injection Ha.
  - intros user rest pass host port dbName. unfold buildDSN.
    by rewrite !append_assoc.
Qed.

Lemma buildDSN_unambiguous_witness :
  buildDSN "root" "secret" "localhost" 3306 "prod_db" =
    buildDSN "root" "secret" "localhost" 3306 "prod_db" ∧
  "root" = "root" ∧ "secret" = "secret" ∧ "localhost" = "localhost" ∧
  3306 = 3306 ∧ "prod_db" = "prod_db".
Proof.
  split; [reflexivity|].
  apply (proj1 buildDSN_unambiguous "root" "secret" "localhost" 3306 "prod_db"
           "root" "secret" "localhost" 3306 "prod_db");
    try reflexivity; try lia;
    vm_compute; intros Hin;
    repeat (apply elem_of_cons in Hin as [Hin|Hin]; [discriminate Hin|]);
    by apply elem_of_nil in Hin.
Defined.
